(** * A shallow embedding of two PyTorch sources

    - [torch/csrc/jit/tensorexpr/llvm_jit.cpp]: the LLVM-based JIT engine of
      the tensor-expression compiler (module [llvm_jit]);
    - [aten/src/ATen/ConjugateFallback.cpp]: the boxed fallback of the
      [Conjugate] dispatch key (module [ConjugateFallback]).

    Functions of the two files are translated one by one and keep their
    names.  What the files call but do not define (LLVM's ORC classes, the
    intrinsic table of [intrinsic_symbols_if.h], ATen's native kernels) is
    either a [Variable] of the enclosing section or a small model whose doc
    comment names the function it stands for. *)

From Stdlib Require Import ZArith Ascii String List Bool Lia Sorted.
From stdpp Require Import gmap strings list fin_maps.

Local Open Scope string_scope.
Local Open Scope Z_scope.

(** ** Results of fallible calls *)

(** The payload of an [llvm::Error]: the text it prints with [operator<<]. *)
Definition ErrorInfo := string.

(** [llvm::Error]: [None] is [Error::success()]. *)
Definition Error := option ErrorInfo.

(** [llvm::Expected<T>]. *)
Inductive Expected (T : Type) : Type :=
| Value (v : T)
| Failure (e : ErrorInfo).
Arguments Value {T} v.
Arguments Failure {T} e.

(** Modelled from the spec: the macros [TORCH_INTERNAL_ASSERT] and
    [TORCH_CHECK] of [c10/util/Exception.h], which is not among the sources.
    A call that may trip one of them returns a value, or it raises and hands
    back no value; [msg] is the message the source gives the macro (the
    macro itself puts the failed condition and the source location before
    it). *)
Inductive Outcome (T : Type) : Type :=
| Returns (v : T)
| Raises (msg : string).
Arguments Returns {T} v.
Arguments Raises {T} msg.

Definition is_fatal {T : Type} (o : Outcome T) : bool :=
  match o with Returns _ => false | Raises _ => true end.

(** Sequencing of calls that may raise: a raised assertion ends the
    computation. *)
#[global] Instance Outcome_bind : MBind Outcome := fun A B k o =>
  match o with
  | Returns v => k v
  | Raises m => Raises m
  end.

#[global] Instance Outcome_ret : MRet Outcome := fun A v => Returns v.

#[global] Instance Outcome_fmap : FMap Outcome := fun A B f o =>
  match o with
  | Returns v => Returns (f v)
  | Raises m => Raises m
  end.

Module llvm_jit.

(** ** Lines 39-55: [formatError] and [assertSuccess] *)

Definition defaultErrorMsg : string := "Unexpected failure in LLVM JIT".

(** [msg] is a C string pointer: [None] is the null pointer. *)
Definition formatError (err : ErrorInfo) (msg : option string) : string :=
  (match msg with Some m => m | None => defaultErrorMsg end) +:+ ": " +:+ err.

(** The overload of [assertSuccess] on an [llvm::Expected<T>], lines 47-51. *)
Definition assertSuccess {T : Type} (valOrErr : Expected T) (msg : option string)
  : Outcome T :=
  match valOrErr with
  | Value v => Returns v
  | Failure e => Raises (formatError e msg)
  end.

(** The overload of [assertSuccess] on an [llvm::Error], lines 53-55. *)
Definition assertSuccess_Error (err : Error) (msg : option string) : Outcome unit :=
  match err with
  | None => Returns tt
  | Some e => Raises (formatError e msg)
  end.

(** ** Lines 63-89: [makeTargetMachineBuilder] *)

Module CodeGenOpt.
Inductive Level := None | Less | Default | Aggressive.
End CodeGenOpt.

Module FPOpFusion.
Inductive FPOpFusionMode := Fast | Standard | Strict.
End FPOpFusion.

(** The one field of [llvm::TargetOptions] the source writes. *)
Record TargetOptions := { AllowFPOpFusion : FPOpFusion.FPOpFusionMode }.

(** [llvm::orc::JITTargetMachineBuilder]; the relocation and code models stay
    unset in the source and are left out. *)
Record JITTargetMachineBuilder := {
  TT : string;
  CPU : string;
  Features : list string;
  OptLevel : CodeGenOpt.Level;
  Options : TargetOptions
}.

(** [StringRef::lower]: ASCII upper-case letters are mapped to lower case. *)
Definition ascii_lower (c : ascii) : ascii :=
  let n := N_of_ascii c in
  if ((65 <=? n) && (n <=? 90))%N then ascii_of_N (n + 32) else c.

Fixpoint lower (s : string) : string :=
  match s with
  | EmptyString => EmptyString
  | String c r => String (ascii_lower c) (lower r)
  end.

(** [SubtargetFeatures::hasFlag]: the string starts with [+] or [-]. *)
Definition hasFlag (s : string) : bool :=
  match s with
  | String c _ => (Ascii.eqb c "+" || Ascii.eqb c "-")%bool
  | EmptyString => false
  end.

Definition flag (Enable : bool) : string := if Enable then "+" else "-".

(** [SubtargetFeatures::AddFeature(String, Enable)]: empty names are dropped,
    a name that already carries a flag keeps it, any other name gets the flag
    of [Enable]; the name is lower-cased. *)
Definition AddFeature (Features : list string) (s : string) (Enable : bool)
  : list string :=
  match s with
  | EmptyString => Features
  | _ => Features ++ [if hasFlag s then lower s else flag Enable +:+ lower s]
  end.

(** [JITTargetMachineBuilder::addFeatures(FeatureVec)] calls
    [AddFeature(F)] (with [Enable] at its default, true) on each element. *)
Definition addFeatures (JTMB : JITTargetMachineBuilder) (FeatureVec : list string)
  : JITTargetMachineBuilder :=
  {| TT := TT JTMB; CPU := CPU JTMB;
     Features := fold_left (fun fs f => AddFeature fs f true) FeatureVec (Features JTMB);
     OptLevel := OptLevel JTMB; Options := Options JTMB |}.

Definition setCodeGenOptLevel (JTMB : JITTargetMachineBuilder) (l : CodeGenOpt.Level) :=
  {| TT := TT JTMB; CPU := CPU JTMB; Features := Features JTMB;
     OptLevel := l; Options := Options JTMB |}.

Definition setCPU (JTMB : JITTargetMachineBuilder) (cpu : string) :=
  {| TT := TT JTMB; CPU := cpu; Features := Features JTMB;
     OptLevel := OptLevel JTMB; Options := Options JTMB |}.

Definition setAllowFPOpFusion (JTMB : JITTargetMachineBuilder)
  (m : FPOpFusion.FPOpFusionMode) :=
  {| TT := TT JTMB; CPU := CPU JTMB; Features := Features JTMB;
     OptLevel := OptLevel JTMB; Options := {| AllowFPOpFusion := m |} |}.

(** What [llvm::sys] reports about the machine the process runs on. *)
Record Host := {
  getProcessTriple : string;
  getHostCPUName : string;
  (** the entries of the [StringMap<bool>] filled by [getHostCPUFeatures],
      in the order the map iterates them *)
  getHostCPUFeatures : list (string * bool)
}.

(** The builder as its constructor leaves it (line 69): only the triple is
    set. *)
Definition JITTargetMachineBuilder_ctor (triple : string) : JITTargetMachineBuilder :=
  {| TT := triple; CPU := ""; Features := [];
     OptLevel := CodeGenOpt.None;
     Options := {| AllowFPOpFusion := FPOpFusion.Standard |} |}.

(** The [#else] branch, lines 69-87. *)
Definition makeTargetMachineBuilder (host : Host) : JITTargetMachineBuilder :=
  let JTMB := JITTargetMachineBuilder_ctor (getProcessTriple host) in
  let SubtargetFeatures :=
    fold_left (fun fs Feature => AddFeature fs (fst Feature) (snd Feature))
              (getHostCPUFeatures host) [] in
  let JTMB := setCodeGenOptLevel JTMB CodeGenOpt.Default in
  let JTMB := setCPU JTMB (getHostCPUName host) in
  let JTMB := addFeatures JTMB SubtargetFeatures in
  setAllowFPOpFusion JTMB FPOpFusion.Fast.

(** ** The toolchain the engine is built on

    The engine is glue over LLVM's ORC layers.  The parts of LLVM and of the
    process that the source reaches are collected in [Env]; the ORC
    operations the source calls are modelled below on plain symbol tables,
    each under the name of the operation it stands for. *)

Definition JITTargetAddress := Z.

(** [llvm::JITSymbol]: null (converts to [false]); a symbol with its address
    cached; a symbol with a materializer, [GetAddress] being what the
    materializer gives when it is run; or an error. *)
Inductive JITSymbol :=
| JITSymbol_null
| JITSymbol_at (addr : JITTargetAddress)
| JITSymbol_lazy (GetAddress : Expected JITTargetAddress)
| JITSymbol_error (e : ErrorInfo).

(** [JITSymbol::getAddress]: the result of the materializer if there is one,
    else the cached address, which is 0 for the null symbol; the error of an
    error symbol. *)
Definition getAddress (Sym : JITSymbol) : Expected JITTargetAddress :=
  match Sym with
  | JITSymbol_null => Value 0
  | JITSymbol_at a => Value a
  | JITSymbol_lazy GetAddress => GetAddress
  | JITSymbol_error e => Failure e
  end.

(** An entry of the array returned by [getSymbols()]
    ([intrinsic_symbols_if.h]); [symbol = None] is the null name of the
    sentinel. *)
Record SymbolAddressIf := {
  symbol : option string;
  address : JITTargetAddress
}.

(** [llvm::TargetMachine], as far as the builder determines it. *)
Record TargetMachine := {
  getTargetTriple : string;
  getTargetCPU : string;
  getTargetFeatureString : list string;
  getOptLevel : CodeGenOpt.Level;
  TM_Options : TargetOptions
}.

Definition DataLayout := string.

(** An IR module handed to [addModule], seen from the engine: the globals it
    defines, each with the address its code is loaded at once the module is
    compiled and linked; the error, if any, with which the toolchain's add
    call turns the module down by itself ([LLJIT::addIRModule]: a data layout
    that does not fit the session; [IRCompileLayer::addModule] of the LLVM 8
    snapshot, which compiles at once: object code that cannot be read); and
    the error, if any, of what the add call puts off: compiling and linking
    in the modern engine, linking in the legacy one (code the backend cannot
    select, a reference that nothing resolves).  All definitions are strong
    and exported. *)
Record Module := {
  definitions : list (string * JITTargetAddress);
  rejection : Error;
  materialization : Error
}.

Record Env := {
  host : Host;
  (** [TargetRegistry::lookupTarget] on a triple: [None] when the target is
      registered *)
  lookupTarget : string -> Error;
  (** [Target::createTargetMachine] of the registered target: whether it hands
      out a machine for the settings of a builder *)
  Target_createTargetMachine : JITTargetMachineBuilder -> bool;
  (** what the construction of an [LLJIT] reports apart from creating its
      target machine (the platform support of later versions); [None] when
      nothing *)
  LLJIT_setup : Error;
  (** the data layout of a target machine *)
  createDataLayout : TargetMachine -> DataLayout;
  (** [MangleAndInterner] and [Mangler::getNameWithPrefix] under the engine's
      data layout: the linker-level name of a global *)
  Mangle : string -> string;
  (** the address of a linker-level name in the running process
      ([DynamicLibrarySearchGenerator], [getSymbolAddressInProcess]); 0 when
      the process has no such symbol *)
  getSymbolAddressInProcess : string -> JITTargetAddress;
  (** [DynamicLibrarySearchGenerator::GetForCurrentProcess]: [None] when the
      process image can be opened *)
  GetForCurrentProcess : Error;
  (** the array [getSymbols()] returns *)
  getSymbols : list SymbolAddressIf;
  (** the address of the function [DispatchParallel] *)
  DispatchParallel : JITTargetAddress;
  (** whether LLVM was built with its [assert]s compiled in *)
  LLVM_ENABLE_ASSERTIONS : bool
}.

Definition DuplicateDefinition (name : string) : ErrorInfo :=
  "Duplicate definition of symbol '" +:+ name +:+ "'".

Definition SymbolsNotFound (name : string) : ErrorInfo :=
  "Symbols not found: { " +:+ name +:+ " }".

Definition FailedToMaterialize (names : list string) : ErrorInfo :=
  "Failed to materialize symbols: { " +:+ String.concat ", " names +:+ " }".

(** Where a symbol of a dylib stands when it is not ready: its
    materialization unit has not run yet ([MU] are the names the unit is
    responsible for, [outcome] is what running it will give), or
    materialization has failed and the symbol is in the error state. *)
Inductive SymbolState :=
| Unmaterialized (MU : list string) (outcome : Error)
| HasError (MU : list string).

Definition unit_of (st : SymbolState) : list string :=
  match st with Unmaterialized MU _ => MU | HasError MU => MU end.

(** [llvm::orc::JITDylib]: its symbol table, each symbol with the address it
    has or will have once it is materialized; whether a definition generator
    is attached; and the symbols that are not ready.  A symbol in the error
    state stays in the table, as from LLVM 10 on. *)
Record JITDylib := {
  Symbols : gmap string JITTargetAddress;
  DefGenerator : bool;
  NotReady : gmap string SymbolState
}.

Definition JITDylib_empty : JITDylib :=
  {| Symbols := ∅; DefGenerator := false; NotReady := ∅ |}.

(** The first of [syms] that the table already holds. *)
Definition first_duplicate (tbl : gmap string JITTargetAddress)
  (syms : list (string * JITTargetAddress)) : option string :=
  fst <$> List.find (fun s => bool_decide (is_Some (tbl !! s.1))) syms.

(** The symbols [MU] of a unit enter the table with the unit still to be
    run; they leave the not-ready state; they enter the error state. *)
Definition pending (MU : list string) (outcome : Error) (tbl : gmap string SymbolState)
  : gmap string SymbolState :=
  fold_right (fun n t => <[n := Unmaterialized MU outcome]> t) tbl MU.

Definition emitted (MU : list string) (tbl : gmap string SymbolState)
  : gmap string SymbolState :=
  fold_right (fun n t => delete n t) tbl MU.

Definition failed (MU : list string) (tbl : gmap string SymbolState)
  : gmap string SymbolState :=
  fold_right (fun n t => <[n := HasError MU]> t) tbl MU.

(** [JITDylib::define] of [absoluteSymbols(syms)]: a name already in the
    table is a [DuplicateDefinition] and nothing is added; otherwise all
    symbols are, and they are ready. *)
Definition define (JD : JITDylib) (syms : list (string * JITTargetAddress))
  : Error * JITDylib :=
  match first_duplicate (Symbols JD) syms with
  | Some name => (Some (DuplicateDefinition name), JD)
  | None =>
      (None, {| Symbols := fold_right (fun s tbl => <[s.1 := s.2]> tbl) (Symbols JD) syms;
                DefGenerator := DefGenerator JD;
                NotReady := emitted (map fst syms) (NotReady JD) |})
  end.

(** [JITDylib::define] of the materialization unit of an IR module with the
    symbols [syms]: the same check for duplicates; the symbols are entered
    with the unit still to be run. *)
Definition define_MU (JD : JITDylib) (syms : list (string * JITTargetAddress))
  (outcome : Error) : Error * JITDylib :=
  match first_duplicate (Symbols JD) syms with
  | Some name => (Some (DuplicateDefinition name), JD)
  | None =>
      (None, {| Symbols := fold_right (fun s tbl => <[s.1 := s.2]> tbl) (Symbols JD) syms;
                DefGenerator := DefGenerator JD;
                NotReady := pending (map fst syms) outcome (NotReady JD) |})
  end.

(** [setGenerator] / [addGenerator] with the process-symbol generator. *)
Definition setGenerator (JD : JITDylib) : JITDylib :=
  {| Symbols := Symbols JD; DefGenerator := true; NotReady := NotReady JD |}.

(** [ExecutionSession::lookup] of one linker-level name in one dylib.  A
    name in the table is answered from the table: at once when it is ready;
    after its materialization unit has run (the module is compiled and
    linked) when it has not; and with [FailedToMaterialize], naming the
    symbols of the unit, when the unit fails or has failed (the error of the
    unit itself goes to the error reporter of the session).  For a name that
    is not in the table the generator, if one is attached, is asked: it
    defines the symbol of the process in the dylib before the lookup is
    answered. *)
Definition ES_lookup (env : Env) (JD : JITDylib) (name : string)
  : Expected JITTargetAddress * JITDylib :=
  match Symbols JD !! name with
  | Some a =>
      match NotReady JD !! name with
      | None => (Value a, JD)
      | Some (Unmaterialized MU None) =>
          (Value a, {| Symbols := Symbols JD; DefGenerator := DefGenerator JD;
                       NotReady := emitted MU (NotReady JD) |})
      | Some (Unmaterialized MU (Some _)) =>
          (Failure (FailedToMaterialize MU),
           {| Symbols := Symbols JD; DefGenerator := DefGenerator JD;
              NotReady := failed MU (NotReady JD) |})
      | Some (HasError MU) => (Failure (FailedToMaterialize MU), JD)
      end
  | None =>
      if DefGenerator JD && negb (getSymbolAddressInProcess env name =? 0) then
        let a := getSymbolAddressInProcess env name in
        (Value a, (define JD [(name, a)]).2)
      else (Failure (SymbolsNotFound name), JD)
  end.

Definition CouldNotAllocate : ErrorInfo := "Could not allocate target machine".

(** [JITTargetMachineBuilder::createTargetMachine]: the target of the triple
    is looked up, and the target is asked for a machine. *)
Definition createTargetMachine (env : Env) (JTMB : JITTargetMachineBuilder)
  : Expected TargetMachine :=
  match lookupTarget env (TT JTMB) with
  | Some e => Failure e
  | None =>
      if Target_createTargetMachine env JTMB then
        Value {| getTargetTriple := TT JTMB; getTargetCPU := CPU JTMB;
                 getTargetFeatureString := Features JTMB;
                 getOptLevel := OptLevel JTMB; TM_Options := Options JTMB |}
      else Failure CouldNotAllocate
  end.

(** ** Lines 91-114: [registerIntrinsics] *)

Definition entry (env : Env) (name : string) (ptr : JITTargetAddress)
  : string * JITTargetAddress := (Mangle env name, ptr).

(** The loop of lines 105-109 over the array from [syms] on.  It stops at the
    first entry with a null name; a list that ends without one stands for an
    array whose sentinel follows its last listed entry. *)
Fixpoint registerIntrinsics_loop (env : Env) (syms : list SymbolAddressIf)
  (JD : JITDylib) (intrinsics : gset string) : Outcome (JITDylib * gset string) :=
  match syms with
  | [] => Returns (JD, intrinsics)
  | s :: syms' =>
      match symbol s with
      | None => Returns (JD, intrinsics)
      | Some name =>
          let r := define JD [entry env name (address s)] in
          _ ← assertSuccess_Error r.1 None;
          registerIntrinsics_loop env syms' r.2 ({[ name ]} ∪ intrinsics)
      end
  end.

Definition registerIntrinsics (env : Env) (JD : JITDylib) (intrinsics : gset string)
  : Outcome (JITDylib * gset string) :=
  r ← registerIntrinsics_loop env (getSymbols env) JD intrinsics;
  let d := define r.1 [entry env "DispatchParallel" (DispatchParallel env)] in
  _ ← assertSuccess_Error d.1 None;
  Returns (d.2, r.2).

(** The linker-level symbols a module defines. *)
Definition module_symbols (env : Env) (M : Module) : list (string * JITTargetAddress) :=
  map (fun d => (Mangle env d.1, d.2)) (definitions M).

(** ** Lines 121-173: the engine for LLVM 9 and later *)

Module Modern.

(** [llvm::orc::LLJIT]: its main dylib and its data layout. *)
Record LLJIT := {
  getMainJITDylib : JITDylib;
  LLJIT_getDataLayout : DataLayout
}.

(** [LLJITBuilder().setJITTargetMachineBuilder(JTMB).create()]: the LLJIT
    creates a target machine from the builder, for its data layout and its
    compiler, and sets itself up. *)
Definition LLJIT_create (env : Env) (JTMB : JITTargetMachineBuilder) : Expected LLJIT :=
  match createTargetMachine env JTMB with
  | Failure e => Failure e
  | Value tm =>
      match LLJIT_setup env with
      | Some e => Failure e
      | None =>
          Value {| getMainJITDylib := JITDylib_empty;
                   LLJIT_getDataLayout := createDataLayout env tm |}
      end
  end.

(** [LLJIT::addIRModule]: the module is turned down by itself, or its
    materialization unit is defined in the main dylib.  Nothing is compiled
    or linked here: that is done when a symbol of the module is first looked
    up. *)
Definition addIRModule (env : Env) (J : LLJIT) (M : Module) : Error * LLJIT :=
  match rejection M with
  | Some e => (Some e, J)
  | None =>
      let r := define_MU (getMainJITDylib J) (module_symbols env M) (materialization M) in
      (r.1, {| getMainJITDylib := r.2; LLJIT_getDataLayout := LLJIT_getDataLayout J |})
  end.

(** [LLJIT::lookup(UnmangledName)]. *)
Definition lookup (env : Env) (J : LLJIT) (Name : string)
  : Expected JITTargetAddress * LLJIT :=
  let r := ES_lookup env (getMainJITDylib J) (Mangle env Name) in
  (r.1, {| getMainJITDylib := r.2; LLJIT_getDataLayout := LLJIT_getDataLayout J |}).

Record PytorchLLVMJITImpl := {
  TM : TargetMachine;
  LLJ : LLJIT;
  intrinsics : gset string
}.

(** The constructor, lines 129-150. *)
Definition ctor (env : Env) : Outcome PytorchLLVMJITImpl :=
  TM ← assertSuccess (createTargetMachine env (makeTargetMachineBuilder (host env))) None;
  LLJ ← assertSuccess (LLJIT_create env (makeTargetMachineBuilder (host env))) None;
  _ ← assertSuccess_Error (GetForCurrentProcess env) None;
  let JD := setGenerator (getMainJITDylib LLJ) in
  r ← registerIntrinsics env JD ∅;
  mret {| TM := TM;
          LLJ := {| getMainJITDylib := r.1;
                    LLJIT_getDataLayout := LLJIT_getDataLayout LLJ |};
          intrinsics := r.2 |}.

(** Lines 152-156.  The engine after the call is returned next to the
    outcome: a raised assertion leaves the object behind as it is then. *)
Definition addModule (env : Env) (this : PytorchLLVMJITImpl) (M : Module)
  : Outcome unit * PytorchLLVMJITImpl :=
  let r := addIRModule env (LLJ this) M in
  (assertSuccess_Error r.1 (Some "Failed to add module to compile layer"),
   {| TM := TM this; LLJ := r.2; intrinsics := intrinsics this |}).

(** Lines 158-160.  The lookup may leave a process symbol defined in the
    dylib, and the symbols of a module materialized or in the error
    state. *)
Definition findSymbol (env : Env) (this : PytorchLLVMJITImpl) (Name : string)
  : Outcome JITSymbol * PytorchLLVMJITImpl :=
  let r := lookup env (LLJ this) Name in
  (JITSymbol_at <$> assertSuccess r.1 None,
   {| TM := TM this; LLJ := r.2; intrinsics := intrinsics this |}).

(** Lines 162-164. *)
Definition hasSymbol (this : PytorchLLVMJITImpl) (Name : string) : bool :=
  bool_decide (Name ∈ intrinsics this).

(** Lines 166-172. *)
Definition getTargetMachine (this : PytorchLLVMJITImpl) : TargetMachine := TM this.

Definition getDataLayout (this : PytorchLLVMJITImpl) : DataLayout :=
  LLJIT_getDataLayout (LLJ this).

End Modern.

(** ** Lines 175-257: the engine for the LLVM 8 snapshot *)

Module Legacy.

(** [VModuleKey] is a [uint64_t], and [ES.allocateVModule()] is
    [++LastVModuleKey].  The counter is held as a number without a bound:
    this is the counter of the library for the first [2^64 - 1] allocations
    of a session, before the [uint64_t] wraps to 0; statements about the keys
    that are handed out carry that bound. *)
Definition VModuleKey := N.

(** The symbol table of a linked object: each name with what its
    materializer gives when the address of the symbol is asked for, which is
    when the object is linked: the address the code is loaded at, or the
    error of linking. *)
Definition ObjectFile := list (string * Expected JITTargetAddress).

(** [LinkedObject::getSymbol]: a symbol with the materializer of the
    object. *)
Definition getSymbol (obj : ObjectFile) (Name : string) : JITSymbol :=
  match List.find (fun s => String.eqb s.1 Name) obj with
  | Some s => JITSymbol_lazy s.2
  | None => JITSymbol_null
  end.

(** [RTDyldObjectLinkingLayer::findSymbol], which [IRCompileLayer::findSymbol]
    forwards to: the linked objects are searched in the order of their keys,
    and the null symbol is returned when none has the name.  The objects are
    listed in that order: keys are handed out increasing and an object is
    appended under a new key. *)
Fixpoint CompileLayer_findSymbol (LinkedObjects : list (VModuleKey * ObjectFile))
  (Name : string) (ExportedSymbolsOnly : bool) : JITSymbol :=
  match LinkedObjects with
  | [] => JITSymbol_null
  | KV :: rest =>
      match getSymbol KV.2 Name with
      | JITSymbol_null => CompileLayer_findSymbol rest Name ExportedSymbolsOnly
      | Sym => Sym
      end
  end.

(** The object a module is compiled to, as the object layer holds it: not
    yet linked. *)
Definition compiled (env : Env) (M : Module) : ObjectFile :=
  map (fun s => (s.1, match materialization M with
                      | None => Value s.2
                      | Some e => Failure e
                      end))
      (module_symbols env M).

(** [IRCompileLayer::addModule(K, M)]: compile and hand the object to the
    object layer under key [K]; the object is linked when the address of one
    of its symbols is asked for. *)
Definition CompileLayer_addModule (env : Env)
  (LinkedObjects : list (VModuleKey * ObjectFile)) (K : VModuleKey) (M : Module)
  : Error * list (VModuleKey * ObjectFile) :=
  match rejection M with
  | Some e => (Some e, LinkedObjects)
  | None => (None, (LinkedObjects ++ [(K, compiled env M)])%list)
  end.

Definition holds_key (LinkedObjects : list (VModuleKey * ObjectFile)) (K : VModuleKey)
  : bool :=
  existsb (fun KV => N.eqb KV.1 K) LinkedObjects.

(** [RTDyldObjectLinkingLayer::removeObject], which
    [IRCompileLayer::removeModule] forwards to: an [assert] that the key is
    held, then the entry is erased and [Error::success()] returned.  The
    [assert] stops the process in a build of LLVM that has it compiled in. *)
Definition CompileLayer_removeModule (env : Env)
  (LinkedObjects : list (VModuleKey * ObjectFile)) (K : VModuleKey)
  : Outcome (Error * list (VModuleKey * ObjectFile)) :=
  if LLVM_ENABLE_ASSERTIONS env && negb (holds_key LinkedObjects K) then
    Raises "VModuleKey not associated with object"
  else
    Returns (None, List.filter (fun KV => negb (N.eqb KV.1 K)) LinkedObjects).

Record PytorchLLVMJITImpl := {
  (** the main dylib of [ES] *)
  MainJITDylib : JITDylib;
  (** the key counter of [ES] *)
  LastKey : VModuleKey;
  TM : TargetMachine;
  DL : DataLayout;
  (** the objects held by [ObjectLayer] under [CompileLayer] *)
  LinkedObjects : list (VModuleKey * ObjectFile);
  intrinsics : gset string
}.

(** The lookup lambda handed to [createLegacyLookupResolver], lines 191-204. *)
Definition Resolver (env : Env) (this : PytorchLLVMJITImpl) (Name : string)
  : Outcome JITSymbol :=
  match CompileLayer_findSymbol (LinkedObjects this) Name false with
  | JITSymbol_at a => Returns (JITSymbol_at a)
  | JITSymbol_lazy GetAddress => Returns (JITSymbol_lazy GetAddress)
  | JITSymbol_error e => Returns (JITSymbol_error e)
  | JITSymbol_null =>
      let SymAddr := getSymbolAddressInProcess env Name in
      if negb (SymAddr =? 0) then Returns (JITSymbol_at SymAddr)
      else
        a ← assertSuccess (ES_lookup env (MainJITDylib this) (Mangle env Name)).1 None;
        mret (JITSymbol_at a)
  end.

(** The constructor, lines 188-221.  The resolver is the function
    [Resolver] above; the call of [LoadLibraryPermanently] at line 220 has its
    result dropped and leaves the engine alone. *)
Definition ctor (env : Env) : Outcome PytorchLLVMJITImpl :=
  TM ← assertSuccess (createTargetMachine env (makeTargetMachineBuilder (host env))) None;
  r ← registerIntrinsics env JITDylib_empty ∅;
  mret {| MainJITDylib := r.1; LastKey := 0%N; TM := TM;
          DL := createDataLayout env TM; LinkedObjects := [];
          intrinsics := r.2 |}.

(** Lines 223-225. *)
Definition getTargetMachine (this : PytorchLLVMJITImpl) : TargetMachine := TM this.

(** Lines 227-233; [ES.allocateVModule()] is the incremented counter. *)
Definition addModule (env : Env) (this : PytorchLLVMJITImpl) (M : Module)
  : Outcome unit * PytorchLLVMJITImpl :=
  let K := (LastKey this + 1)%N in
  let r := CompileLayer_addModule env (LinkedObjects this) K M in
  (assertSuccess_Error r.1 (Some "Failed to add module to compile layer"),
   {| MainJITDylib := MainJITDylib this; LastKey := K; TM := TM this;
      DL := DL this; LinkedObjects := r.2; intrinsics := intrinsics this |}).

(** Lines 235-240. *)
Definition findSymbol (env : Env) (this : PytorchLLVMJITImpl) (Name : string)
  : JITSymbol :=
  let MangledName := Mangle env Name in
  CompileLayer_findSymbol (LinkedObjects this) MangledName true.

(** Lines 242-244. *)
Definition hasSymbol (this : PytorchLLVMJITImpl) (Name : string) : bool :=
  bool_decide (Name ∈ intrinsics this).

(** Lines 246-248. *)
Definition getSymbolAddress (env : Env) (this : PytorchLLVMJITImpl) (Name : string)
  : Outcome JITTargetAddress :=
  assertSuccess (getAddress (findSymbol env this Name)) None.

(** Lines 250-252. *)
Definition removeModule (env : Env) (this : PytorchLLVMJITImpl) (K : VModuleKey)
  : Outcome unit * PytorchLLVMJITImpl :=
  match CompileLayer_removeModule env (LinkedObjects this) K with
  | Raises m => (Raises m, this)
  | Returns r =>
      (assertSuccess_Error r.1 None,
       {| MainJITDylib := MainJITDylib this; LastKey := LastKey this; TM := TM this;
          DL := DL this; LinkedObjects := r.2; intrinsics := intrinsics this |})
  end.

(** Lines 254-256. *)
Definition getDataLayout (this : PytorchLLVMJITImpl) : DataLayout := DL this.

End Legacy.

(** ** Lines 121, 175, 259-261: the choice of the engine *)

Inductive Variant := modern | legacy.

(** The preprocessor conditions; [None] is the [#error]. *)
Definition select_variant (LLVM_VERSION_MAJOR LLVM_VERSION_PATCH : Z) : option Variant :=
  if 9 <=? LLVM_VERSION_MAJOR then Some modern
  else if (LLVM_VERSION_MAJOR =? 8) && (LLVM_VERSION_PATCH =? 20181009) then Some legacy
  else None.

(** The class [PytorchLLVMJITImpl] of the build. *)
Inductive PytorchLLVMJITImpl :=
| ModernImpl (this : Modern.PytorchLLVMJITImpl)
| LegacyImpl (this : Legacy.PytorchLLVMJITImpl).

Definition variant_of (impl : PytorchLLVMJITImpl) : Variant :=
  match impl with ModernImpl _ => modern | LegacyImpl _ => legacy end.

Definition Impl_ctor (env : Env) (v : Variant) : Outcome PytorchLLVMJITImpl :=
  match v with
  | modern => ModernImpl <$> Modern.ctor env
  | legacy => LegacyImpl <$> Legacy.ctor env
  end.

Definition Impl_addModule (env : Env) (impl : PytorchLLVMJITImpl) (M : Module)
  : Outcome unit * PytorchLLVMJITImpl :=
  match impl with
  | ModernImpl this =>
      let r := Modern.addModule env this M in (r.1, ModernImpl r.2)
  | LegacyImpl this =>
      let r := Legacy.addModule env this M in (r.1, LegacyImpl r.2)
  end.

Definition Impl_findSymbol (env : Env) (impl : PytorchLLVMJITImpl) (Name : string)
  : Outcome JITSymbol * PytorchLLVMJITImpl :=
  match impl with
  | ModernImpl this =>
      let r := Modern.findSymbol env this Name in (r.1, ModernImpl r.2)
  | LegacyImpl this => (Returns (Legacy.findSymbol env this Name), impl)
  end.

Definition Impl_hasSymbol (impl : PytorchLLVMJITImpl) (Name : string) : bool :=
  match impl with
  | ModernImpl this => Modern.hasSymbol this Name
  | LegacyImpl this => Legacy.hasSymbol this Name
  end.

Definition Impl_getTargetMachine (impl : PytorchLLVMJITImpl) : TargetMachine :=
  match impl with
  | ModernImpl this => Modern.getTargetMachine this
  | LegacyImpl this => Legacy.getTargetMachine this
  end.

Definition Impl_getDataLayout (impl : PytorchLLVMJITImpl) : DataLayout :=
  match impl with
  | ModernImpl this => Modern.getDataLayout this
  | LegacyImpl this => Legacy.getDataLayout this
  end.

(** ** Lines 263-288: the facade [PytorchLLVMJIT] *)

(** The facade holds [impl_], a [std::unique_ptr] to the one implementation
    object it owns. *)
Record PytorchLLVMJIT := { impl_ : PytorchLLVMJITImpl }.

(** What happens to implementation objects during a call. *)
Inductive Event := Impl_constructed | Impl_destroyed.

(** Lines 263-264: [impl_(std::make_unique<PytorchLLVMJITImpl>())].  When the
    implementation's constructor raises, no object comes into being. *)
Definition PytorchLLVMJIT_ctor (env : Env) (v : Variant)
  : Outcome PytorchLLVMJIT * list Event :=
  match Impl_ctor env v with
  | Returns impl => (Returns {| impl_ := impl |}, [Impl_constructed])
  | Raises m => (Raises m, [])
  end.

(** Line 266: the defaulted destructor destroys the member [impl_], whose
    destructor deletes the object it points to. *)
Definition PytorchLLVMJIT_dtor (this : PytorchLLVMJIT) : list Event :=
  [Impl_destroyed].

(** Lines 268-272. *)
Definition PytorchLLVMJIT_addModule (env : Env) (this : PytorchLLVMJIT) (M : Module)
  : Outcome unit * PytorchLLVMJIT :=
  let r := Impl_addModule env (impl_ this) M in (r.1, {| impl_ := r.2 |}).

(** Lines 274-276. *)
Definition PytorchLLVMJIT_findSymbol (env : Env) (this : PytorchLLVMJIT) (Name : string)
  : Outcome JITSymbol * PytorchLLVMJIT :=
  let r := Impl_findSymbol env (impl_ this) Name in (r.1, {| impl_ := r.2 |}).

(** Lines 278-280. *)
Definition PytorchLLVMJIT_hasSymbol (this : PytorchLLVMJIT) (Name : string) : bool :=
  Impl_hasSymbol (impl_ this) Name.

(** Lines 282-284. *)
Definition PytorchLLVMJIT_getTargetMachine (this : PytorchLLVMJIT) : TargetMachine :=
  Impl_getTargetMachine (impl_ this).

(** Lines 286-288. *)
Definition PytorchLLVMJIT_getDataLayout (this : PytorchLLVMJIT) : DataLayout :=
  Impl_getDataLayout (impl_ this).

(** *** Runs of a facade *)

(** A call of one of the five public operations. *)
Inductive Call :=
| call_addModule (M : Module)
| call_findSymbol (Name : string)
| call_hasSymbol (Name : string)
| call_getTargetMachine
| call_getDataLayout.

(** What a call hands back to the caller. *)
Inductive Answer :=
| ans_unit (o : Outcome unit)
| ans_symbol (o : Outcome JITSymbol)
| ans_bool (b : bool)
| ans_TargetMachine (tm : TargetMachine)
| ans_DataLayout (dl : DataLayout).

Definition PytorchLLVMJIT_call (env : Env) (this : PytorchLLVMJIT) (c : Call)
  : Answer * PytorchLLVMJIT * list Event :=
  match c with
  | call_addModule M =>
      let r := PytorchLLVMJIT_addModule env this M in (ans_unit r.1, r.2, [])
  | call_findSymbol Name =>
      let r := PytorchLLVMJIT_findSymbol env this Name in (ans_symbol r.1, r.2, [])
  | call_hasSymbol Name => (ans_bool (PytorchLLVMJIT_hasSymbol this Name), this, [])
  | call_getTargetMachine =>
      (ans_TargetMachine (PytorchLLVMJIT_getTargetMachine this), this, [])
  | call_getDataLayout =>
      (ans_DataLayout (PytorchLLVMJIT_getDataLayout this), this, [])
  end.

(** The same calls made on an implementation object directly. *)
Definition Impl_call (env : Env) (impl : PytorchLLVMJITImpl) (c : Call)
  : Answer * PytorchLLVMJITImpl :=
  match c with
  | call_addModule M =>
      let r := Impl_addModule env impl M in (ans_unit r.1, r.2)
  | call_findSymbol Name =>
      let r := Impl_findSymbol env impl Name in (ans_symbol r.1, r.2)
  | call_hasSymbol Name => (ans_bool (Impl_hasSymbol impl Name), impl)
  | call_getTargetMachine => (ans_TargetMachine (Impl_getTargetMachine impl), impl)
  | call_getDataLayout => (ans_DataLayout (Impl_getDataLayout impl), impl)
  end.

(** A sequence of calls on a facade: the answers, the facade afterwards and
    the events of the calls. *)
Fixpoint PytorchLLVMJIT_calls (env : Env) (this : PytorchLLVMJIT) (cs : list Call)
  : list Answer * PytorchLLVMJIT * list Event :=
  match cs with
  | [] => ([], this, [])
  | c :: cs' =>
      let r := PytorchLLVMJIT_call env this c in
      let rs := PytorchLLVMJIT_calls env r.1.2 cs' in
      (r.1.1 :: rs.1.1, rs.1.2, (r.2 ++ rs.2)%list)
  end.

Fixpoint Impl_calls (env : Env) (impl : PytorchLLVMJITImpl) (cs : list Call)
  : list Answer * PytorchLLVMJITImpl :=
  match cs with
  | [] => ([], impl)
  | c :: cs' =>
      let r := Impl_call env impl c in
      let rs := Impl_calls env r.2 cs' in
      (r.1 :: rs.1, rs.2)
  end.

(** The life of a facade: construction, calls, destruction.  The events of
    the whole life are returned with the answers. *)
Definition PytorchLLVMJIT_life (env : Env) (v : Variant) (cs : list Call)
  : Outcome (list Answer) * list Event :=
  match PytorchLLVMJIT_ctor env v with
  | (Returns this, ev0) =>
      let r := PytorchLLVMJIT_calls env this cs in
      (Returns r.1.1, (ev0 ++ r.2 ++ PytorchLLVMJIT_dtor r.1.2)%list)
  | (Raises m, ev0) => (Raises m, ev0)
  end.

(** ** A concrete environment for examples *)

Definition env0 : Env :=
  {| host := {| getProcessTriple := "x86_64-unknown-linux-gnu";
                getHostCPUName := "skylake";
                getHostCPUFeatures := [("avx2", true); ("fma", true); ("avx512f", false)] |};
     lookupTarget := fun _ => None;
     Target_createTargetMachine := fun _ => true;
     LLJIT_setup := None;
     createDataLayout := fun _ => "e-m:e-i64:64-f80:128-n8:16:32:64-S128";
     Mangle := fun name => name;
     getSymbolAddressInProcess :=
       fun name => if String.eqb name "malloc" then 7000
                   else if String.eqb name "sinf" then 7100 else 0;
     GetForCurrentProcess := None;
     getSymbols := [ {| symbol := Some "sinf"; address := 4096 |};
                     {| symbol := Some "cosf"; address := 4160 |};
                     {| symbol := None; address := 0 |} ];
     DispatchParallel := 5000;
     LLVM_ENABLE_ASSERTIONS := false |}.

(** ** Notions the statements use *)

(** The names the loop of [registerIntrinsics] walks over: those before the
    first null name. *)
Fixpoint enumerated (syms : list SymbolAddressIf) : list string :=
  match syms with
  | [] => []
  | s :: syms' =>
      match symbol s with
      | None => []
      | Some name => name :: enumerated syms'
      end
  end.

(** The feature string [AddFeature] derives from a host feature. *)
Definition feature_string (f : string) (b : bool) : string :=
  if hasFlag f then lower f else flag b +:+ lower f.

(** The engines a program can hold: a constructed engine, and the engine any
    call leaves behind (whether the call returned or raised). *)
Inductive reachable (env : Env) (v : Variant) : PytorchLLVMJITImpl -> Prop :=
| reach_ctor impl :
    Impl_ctor env v = Returns impl -> reachable env v impl
| reach_addModule impl M :
    reachable env v impl -> reachable env v (Impl_addModule env impl M).2
| reach_findSymbol impl Name :
    reachable env v impl -> reachable env v (Impl_findSymbol env impl Name).2
| reach_removeModule this K :
    reachable env v (LegacyImpl this) ->
    reachable env v (LegacyImpl (Legacy.removeModule env this K).2).

Definition Impl_intrinsics (impl : PytorchLLVMJITImpl) : gset string :=
  match impl with
  | ModernImpl this => Modern.intrinsics this
  | LegacyImpl this => Legacy.intrinsics this
  end.

(** The kept host features, as [AddFeature] spells them. *)
Definition host_features (l : list (string * bool)) : list string :=
  omap (fun F => if decide (F.1 = "") then None else Some (feature_string F.1 F.2)) l.

(** What a symbol table in list form gives a name: the address, or other
    value, of its first entry under the name. *)
Definition defined_by {A : Type} (syms : list (string * A)) (name : string)
  : option A :=
  snd <$> List.find (fun s => String.eqb s.1 name) syms.

(** On the modern engines a program can hold, the generator is attached and
    every enumerated intrinsic and the parallel-dispatch entry are defined
    in the dylib. *)
Definition Modern_linked (env : Env) (this : Modern.PytorchLLVMJITImpl) : Prop :=
  let JD := Modern.getMainJITDylib (Modern.LLJ this) in
  DefGenerator JD = true
  /\ is_Some (Symbols JD !! Mangle env "DispatchParallel")
  /\ forall n, n ∈ enumerated (getSymbols env) -> is_Some (Symbols JD !! Mangle env n).

(** ** Engines and modules for examples *)

(** An engine with nothing in it, for the case that cannot occur below. *)
Definition no_engine : Legacy.PytorchLLVMJITImpl :=
  {| Legacy.MainJITDylib := JITDylib_empty; Legacy.LastKey := 0%N;
     Legacy.TM := {| getTargetTriple := ""; getTargetCPU := "";
                     getTargetFeatureString := []; getOptLevel := CodeGenOpt.None;
                     TM_Options := {| AllowFPOpFusion := FPOpFusion.Standard |} |};
     Legacy.DL := ""; Legacy.LinkedObjects := []; Legacy.intrinsics := ∅ |}.

(** The engine of each variant constructed in [env0]. *)
Definition engine0 (v : Variant) : PytorchLLVMJITImpl :=
  match Impl_ctor env0 v with
  | Returns impl => impl
  | Raises _ => LegacyImpl no_engine
  end.

Definition legacy0 : Legacy.PytorchLLVMJITImpl :=
  match engine0 legacy with
  | LegacyImpl this => this
  | ModernImpl _ => no_engine
  end.

(** A module that defines a global under the name of the intrinsic ["sinf"],
    one that defines ["foo"], and one the toolchain turns down. *)
Definition module_sinf : Module :=
  {| definitions := [("sinf", 9000)]; rejection := None; materialization := None |}.

Definition module_foo : Module :=
  {| definitions := [("foo", 9100)]; rejection := None; materialization := None |}.

Definition module_bad : Module :=
  {| definitions := [("bar", 9200)]; rejection := Some "incompatible data layout";
     materialization := None |}.

(** A module the add call takes and that cannot be linked: it refers to a
    name that nothing defines. *)
Definition module_unlinkable : Module :=
  {| definitions := [("baz", 9400); ("qux", 9500)]; rejection := None;
     materialization := Some "Symbols not found: { nowhere }" |}.

(** ** Further notions *)

(** The entries the loop of [registerIntrinsics] walks over, with their
    addresses: those before the first null name. *)
Fixpoint enumerated_entries (syms : list SymbolAddressIf)
  : list (string * JITTargetAddress) :=
  match syms with
  | [] => []
  | s :: syms' =>
      match symbol s with
      | None => []
      | Some name => (name, address s) :: enumerated_entries syms'
      end
  end.

(** Table entries as the linker-level symbols [JD.define] is given for
    them. *)
Definition mangled (env : Env) (es : list (string * JITTargetAddress))
  : list (string * JITTargetAddress) :=
  map (fun e => entry env e.1 e.2) es.

(** The linker-level symbols [registerIntrinsics] defines, in the order of
    its calls of [JD.define]: the enumerated entries, then the
    parallel-dispatch entry. *)
Definition linked_symbols (env : Env) : list (string * JITTargetAddress) :=
  (mangled env (enumerated_entries (getSymbols env))
   ++ [entry env "DispatchParallel" (DispatchParallel env)])%list.

(** Nothing the engine does takes a symbol out of a dylib or gives it
    another address. *)
Definition keeps (JD JD' : JITDylib) : Prop :=
  forall k a, Symbols JD !! k = Some a -> Symbols JD' !! k = Some a.

(** The main dylib of a modern engine. *)
Definition Modern_JD (this : Modern.PytorchLLVMJITImpl) : JITDylib :=
  Modern.getMainJITDylib (Modern.LLJ this).

(** The symbol is in the dylib at the address, and it is ready. *)
Definition ready (JD : JITDylib) (k : string) (a : JITTargetAddress) : Prop :=
  Symbols JD !! k = Some a /\ NotReady JD !! k = None.

(** The symbols that are not ready are in the table, and the symbols of one
    unit stand alike. *)
Definition units_coherent (JD : JITDylib) : Prop :=
  forall n st, NotReady JD !! n = Some st ->
    is_Some (Symbols JD !! n) /\ n ∈ unit_of st
    /\ forall m, m ∈ unit_of st -> NotReady JD !! m = Some st.

(** The engine answers [findSymbol] for the name with the symbol, from its
    own tables: the modern engine has the address ready in its dylib, the
    legacy one has the symbol in a linked module. *)
Definition stands (env : Env) (impl : PytorchLLVMJITImpl) (Name : string)
  (Sym : JITSymbol) : Prop :=
  match impl with
  | ModernImpl this =>
      exists a, Sym = JITSymbol_at a /\ ready (Modern_JD this) (Mangle env Name) a
  | LegacyImpl this =>
      Legacy.findSymbol env this Name = Sym /\ Sym <> JITSymbol_null
  end.

(** The keys of the linked objects of a legacy engine, in the order of the
    objects. *)
Definition linked_keys (this : Legacy.PytorchLLVMJITImpl) : list Legacy.VModuleKey :=
  map fst (Legacy.LinkedObjects this).

(** The keys of the linked objects are in increasing order and are among
    the keys handed out so far, which start at 1. *)
Definition keys_in_order (this : Legacy.PytorchLLVMJITImpl) : Prop :=
  StronglySorted N.lt (linked_keys this)
  /\ Forall (fun K => (0 < K <= Legacy.LastKey this)%N) (linked_keys this).

(** No source of the legacy resolver has the name: no linked module, not
    the process, not the main dylib. *)
Definition unresolved (env : Env) (this : Legacy.PytorchLLVMJITImpl) (Name : string)
  : Prop :=
  Legacy.CompileLayer_findSymbol (Legacy.LinkedObjects this) Name false = JITSymbol_null
  /\ getSymbolAddressInProcess env Name = 0
  /\ Symbols (Legacy.MainJITDylib this) !! Mangle env Name = None.

(** The calls that change a legacy engine. *)
Inductive LegacyCall :=
| legacy_addModule (M : Module)
| legacy_removeModule (K : Legacy.VModuleKey).

(** A sequence of such calls: the engine it leaves, and the keys that
    [ES.allocateVModule()] gave to the calls of [addModule], in their
    order. *)
Fixpoint Legacy_calls (env : Env) (this : Legacy.PytorchLLVMJITImpl)
  (cs : list LegacyCall) : Legacy.PytorchLLVMJITImpl * list Legacy.VModuleKey :=
  match cs with
  | [] => (this, [])
  | legacy_addModule M :: cs' =>
      let this' := (Legacy.addModule env this M).2 in
      let r := Legacy_calls env this' cs' in
      (r.1, Legacy.LastKey this' :: r.2)
  | legacy_removeModule K :: cs' =>
      Legacy_calls env (Legacy.removeModule env this K).2 cs'
  end.

(** How many of the calls are calls of [addModule]. *)
Definition additions (cs : list LegacyCall) : nat :=
  length (List.filter (fun c => match c with legacy_addModule _ => true | _ => false end) cs).

(** The modern engine constructed in [env0], and a module that defines
    ["malloc"], which the process of [env0] has. *)
Definition modern0 : Modern.PytorchLLVMJITImpl :=
  match engine0 modern with
  | ModernImpl this => this
  | LegacyImpl this =>
      {| Modern.TM := Legacy.TM this;
         Modern.LLJ := {| Modern.getMainJITDylib := JITDylib_empty;
                          Modern.LLJIT_getDataLayout := "" |};
         Modern.intrinsics := ∅ |}
  end.

Definition module_malloc : Module :=
  {| definitions := [("malloc", 9300)]; rejection := None; materialization := None |}.

End llvm_jit.

Module ConjugateFallback.

(** ** The data the fallback works on *)

(** [c10::AliasInfo], as far as the fallback asks. *)
Record AliasInfo := { isWrite : bool }.

(** [c10::Argument]. *)
Record Argument := { alias_info : option AliasInfo }.

(** [c10::FunctionSchema]. *)
Record FunctionSchema := {
  name : string;
  arguments : list Argument
}.

(** An element of a complex tensor: real and imaginary part.  The parts
    stand for floating-point numbers; the one operation on them here is the
    change of sign of the imaginary part. *)
Definition Complex := (Z * Z)%type.

Definition conj (z : Complex) : Complex := (z.1, - z.2).

(** A [TensorImpl]: the storage it views and its conjugate bit.  A tensor
    covers the whole of its storage, and several tensors can view one
    storage. *)
Record TensorImpl := {
  storage : nat;
  conj_bit : bool
}.

(** The tensors and storages that are alive, by identity.  A [Tensor] is a
    handle: the identity of its [TensorImpl]. *)
Record Heap := {
  impls : gmap nat TensorImpl;
  storages : gmap nat (list Complex)
}.

(** [c10::IValue]: a tensor handle or some other value. *)
Inductive IValue :=
| Tensor (t : nat)
| NotTensor (payload : Z).

(** Modelled from the spec: [TensorImpl::is_conj], declared in
    [c10/core/TensorImpl.h], which is not among the sources; it reads the
    conjugate bit. *)
Definition is_conj (h : Heap) (t : nat) : bool :=
  match impls h !! t with
  | Some i => conj_bit i
  | None => false
  end.

(** Modelled from the spec: [Tensor::set_conj], which is not among the
    sources; it writes the conjugate bit and nothing else. *)
Definition set_conj (h : Heap) (t : nat) (b : bool) : Heap :=
  {| impls := alter (fun i => {| storage := storage i; conj_bit := b |}) t (impls h);
     storages := storages h |}.

(** Modelled from the spec: [native::conj_physical_], declared in
    [ATen/NativeFunctions.h] and defined outside the sources; it conjugates
    the physical data of the tensor in place and leaves the bit alone. *)
Definition conj_physical_ (h : Heap) (t : nat) : Heap :=
  match impls h !! t with
  | Some i =>
      {| impls := impls h;
         storages := alter (map conj) (storage i) (storages h) |}
  | None => h
  end.

(** Modelled from the spec: [native::resolve_conj], defined outside the
    sources; for a tensor with the bit set it makes a new tensor, on a new
    storage, that holds the conjugated data with the bit clear, and it
    returns any other tensor as it is. *)
Definition resolve_conj (h : Heap) (t : nat) : nat * Heap :=
  match impls h !! t with
  | Some i =>
      if conj_bit i then
        let t' := fresh (dom (impls h)) in
        let s' := fresh (dom (storages h)) in
        (t', {| impls := <[t' := {| storage := s'; conj_bit := false |}]> (impls h);
                storages := <[s' := map conj (default [] (storages h !! storage i))]>
                              (storages h) |})
      else (t, h)
  | None => (t, h)
  end.

(** The state a call of the fallback works on: the argument stack, the heap,
    and the redispatches made so far, each with the key set, the stack and
    the heap it was made with. *)
Record State := {
  stack : list IValue;
  heap : Heap;
  redispatched : list (Z * list IValue * Heap)
}.

Section Fallback.

(** The kernels behind [redispatchBoxed]: from the key set, the stack and
    the heap to an outcome and the stack and heap left behind. *)
Variable kernel : Z -> list IValue -> Heap -> Outcome unit * (list IValue * Heap).

(** The position of [DispatchKey::Conjugate] in the enumeration of
    [c10/core/DispatchKey.h]. *)
Variable DispatchKey_Conjugate : Z.

(** Whether [TORCH_INTERNAL_ASSERT_DEBUG_ONLY] is compiled out. *)
Variable NDEBUG : bool.

(** [DispatchKeySet(DispatchKeySet::FULL_AFTER, k)]: the keys below [k]. *)
Definition FULL_AFTER (k : Z) : Z := Z.shiftl 1 (k - 1) - 1.

(** [op.redispatchBoxed(ks, stack)]. *)
Definition redispatchBoxed (ks : Z) (st : State) : Outcome unit * State :=
  let r := kernel ks (stack st) (heap st) in
  (r.1, {| stack := r.2.1; heap := r.2.2;
           redispatched := (redispatched st ++ [(ks, stack st, heap st)])%list |}).

Definition mix_message (schema_name : string) : string :=
  "Unsupported operator for conjugate fallback: " +:+ schema_name +:+
  "Conjugate fallback doesn't work for operators with a mix " +:+
  "mutable and non-mutable inputs that alias with outputs, " +:+
  "this must be implemented manually.  " +:+
  "If you got this error on a core op, please report a bug to PyTorch.".

(** Lines 31-46: the loop that finds [is_write], from the argument it has
    reached on. *)
Fixpoint is_write_loop (schema_name : string) (args : list Argument)
  (is_write : option bool) : Outcome (option bool) :=
  match args with
  | [] => Returns is_write
  | arg :: args' =>
      match alias_info arg with
      | Some ai =>
          match is_write with
          | Some w =>
              if Bool.eqb w (isWrite ai)
              then is_write_loop schema_name args' is_write
              else Raises (mix_message schema_name)
          | None => is_write_loop schema_name args' (Some (isWrite ai))
          end
      | None => is_write_loop schema_name args' is_write
      end
  end.

Definition debug_assert_message : string :=
  "argument.alias_info()->isWrite() INTERNAL ASSERT FAILED".

(** Line 29: [stack->size() - num_arguments], a subtraction of [size_t],
    which wraps around.  With fewer values on the stack than the operator has
    arguments the result is [size + 2^64 - num_arguments], an index beyond
    the end of the stack. *)
Definition stack_start_of (size num_arguments : nat) : nat :=
  if (num_arguments <=? size)%nat then (size - num_arguments)%nat
  else (size + (2 ^ 64 - num_arguments))%nat.

(** Line 60 with an index beyond the end of the stack: [operator[]] of
    [std::vector] does not check its index, and what the program does from
    there on is not defined.  The call ends at that point, with this
    outcome. *)
Definition out_of_bounds_message : string :=
  "stack[stack_start + i]: index beyond the end of the stack".

(** Lines 59-86: the loop over the arguments from index [i] on, with the
    arguments from there in [args].  It returns the stack, the heap and
    [mutable_inputs] as it leaves them. *)
Fixpoint materialize_loop (args : list Argument) (i stack_start : nat)
  (stk : list IValue) (h : Heap) (mutable_inputs : list nat)
  : Outcome unit * (list IValue * Heap * list nat) :=
  match args with
  | [] => (Returns tt, (stk, h, mutable_inputs))
  | argument :: args' =>
      match stk !! (stack_start + i)%nat with
      | Some (Tensor t) =>
          match alias_info argument with
          | Some ai =>
              if negb NDEBUG && negb (isWrite ai) then
                (Raises debug_assert_message, (stk, h, mutable_inputs))
              else if negb (is_conj h t) then
                materialize_loop args' (S i) stack_start stk h mutable_inputs
              else
                let h1 := set_conj (conj_physical_ h t) t false in
                materialize_loop args' (S i) stack_start
                  (<[(stack_start + i)%nat := Tensor t]> stk) h1
                  (mutable_inputs ++ [t])%list
          | None =>
              if negb (is_conj h t) then
                materialize_loop args' (S i) stack_start stk h mutable_inputs
              else
                let r := resolve_conj h t in
                materialize_loop args' (S i) stack_start
                  (<[(stack_start + i)%nat := Tensor r.1]> stk) r.2 mutable_inputs
          end
      | Some (NotTensor _) =>
          materialize_loop args' (S i) stack_start stk h mutable_inputs
      | None => (Raises out_of_bounds_message, (stk, h, mutable_inputs))
      end
  end.

(** Lines 90-93. *)
Definition restore_loop (mutable_inputs : list nat) (h : Heap) : Heap :=
  fold_left (fun h mutable_input => set_conj (conj_physical_ h mutable_input) mutable_input true)
            mutable_inputs h.

(** Lines 10-94. *)
Definition conjugateFallback (op : FunctionSchema) (dispatch_keys : Z) (st : State)
  : Outcome unit * State :=
  let num_arguments := length (arguments op) in
  let stack_start := stack_start_of (length (stack st)) num_arguments in
  let ks := Z.land dispatch_keys (FULL_AFTER DispatchKey_Conjugate) in
  match is_write_loop (name op) (arguments op) None with
  | Raises m => (Raises m, st)
  | Returns (Some false) => redispatchBoxed ks st
  | Returns _ =>
      match materialize_loop (arguments op) 0 stack_start (stack st) (heap st) [] with
      | (Raises m, (stk, h, _)) =>
          (Raises m, {| stack := stk; heap := h; redispatched := redispatched st |})
      | (Returns _, (stk, h, mutable_inputs)) =>
          match redispatchBoxed ks
                  {| stack := stk; heap := h; redispatched := redispatched st |} with
          | (Raises m, st2) => (Raises m, st2)
          | (Returns _, st2) =>
              (Returns tt,
               {| stack := stack st2; heap := restore_loop mutable_inputs (heap st2);
                  redispatched := redispatched st2 |})
          end
      end
  end.

End Fallback.

(** ** An in-place operator for examples *)

Definition write_arg : Argument := {| alias_info := Some {| isWrite := true |} |}.
Definition view_arg : Argument := {| alias_info := Some {| isWrite := false |} |}.
Definition plain_arg : Argument := {| alias_info := None |}.

(** [mul_(Tensor(a!) self, Tensor other)]. *)
Definition mul_ : FunctionSchema :=
  {| name := "aten::mul_"; arguments := [write_arg; plain_arg] |}.

Definition mixed_op : FunctionSchema :=
  {| name := "aten::mixed"; arguments := [write_arg; plain_arg; view_arg] |}.

(** Tensor 0 views storage 0 with the bit set; tensor 1 views storage 1 with
    the bit set. *)
Definition heap0 : Heap :=
  {| impls := {[ 0%nat := {| storage := 0%nat; conj_bit := true |};
                 1%nat := {| storage := 1%nat; conj_bit := true |} ]};
     storages := {[ 0%nat := [(1, 2); (3, -4)]; 1%nat := [(5, 6)] ]} |}.

Definition state0 : State :=
  {| stack := [NotTensor 42; Tensor 0; Tensor 1]; heap := heap0; redispatched := [] |}.

(** A kernel that pops two arguments, pushes the first back and leaves the
    heap alone. *)
Definition kernel_id (ks : Z) (stk : list IValue) (h : Heap)
  : Outcome unit * (list IValue * Heap) :=
  (Returns tt, (take (length stk - 1) stk, h)).


(** The arguments carry alias information with both kinds of flag. *)
Definition mixed (args : list Argument) : Prop :=
  exists arg1 arg2 a1 a2,
    arg1 ∈ args /\ arg2 ∈ args
    /\ alias_info arg1 = Some a1 /\ alias_info arg2 = Some a2
    /\ isWrite a1 <> isWrite a2.

(** The storage a tensor views. *)
Definition storage_of (h : Heap) (t : nat) : option nat :=
  storage <$> impls h !! t.

(** How many of the tensors [ms] view the storage [s]. *)
Definition views (h : Heap) (ms : list nat) (s : nat) : nat :=
  length (List.filter (fun t => bool_decide (storage_of h t = Some s)) ms).

(** One pass of lines 79-80 or 91-92 over a tensor. *)
Definition flip (b : bool) (h : Heap) (t : nat) : Heap :=
  set_conj (conj_physical_ h t) t b.

Definition with_bit (b : bool) (i : TensorImpl) : TensorImpl :=
  {| storage := storage i; conj_bit := b |}.

(** How the heap [h] reached inside the loop of lines 59-86, with
    [mutable_inputs] at [ms], relates to the heap [h0] the fallback was
    called with. *)
Record Prepared (h0 h : Heap) (ms : list nat) : Prop := {
  prep_NoDup : NoDup ms;
  prep_conj : forall t, t ∈ ms -> is_conj h0 t = true;
  prep_impls : forall t i0, impls h0 !! t = Some i0 ->
    impls h !! t = Some (if decide (t ∈ ms) then with_bit false i0 else i0);
  prep_new : forall t i, impls h !! t = Some i -> impls h0 !! t = None ->
    conj_bit i = false;
  prep_storages : forall s d, storages h0 !! s = Some d ->
    storages h !! s = Some (Nat.iter (views h0 ms s) (map conj) d)
}.

(** A tensor that [op] may write, that sits on the stack [stk] of a call in
    the slot of its argument, and whose conjugate bit is set in [h]. *)
Definition mutable_conj_input (op : FunctionSchema) (stk : list IValue) (h : Heap)
  (t : nat) : Prop :=
  exists i arg ai,
    arguments op !! i = Some arg /\ alias_info arg = Some ai /\ isWrite ai = true
    /\ stk !! (length stk - length (arguments op) + i)%nat = Some (Tensor t)
    /\ is_conj h t = true.

(** The logical contents of a tensor: the data of the storage it views,
    conjugated when its conjugate bit is set. *)
Definition value (h : Heap) (t : nat) : option (list Complex) :=
  match impls h !! t with
  | Some i => (if conj_bit i then map conj else id) <$> storages h !! storage i
  | None => None
  end.

(** Every tensor of the heap views a storage of the heap. *)
Definition storages_alive (h : Heap) : Prop :=
  forall t i, impls h !! t = Some i -> is_Some (storages h !! storage i).

(** Every argument with alias information is written. *)
Definition writes_only (args : list Argument) : Prop :=
  forall arg ai, arg ∈ args -> alias_info arg = Some ai -> isWrite ai = true.

(** Some argument carries alias information and none of them is written:
    the operators line 48 takes for view operators. *)
Definition view_op (args : list Argument) : Prop :=
  (exists arg ai, arg ∈ args /\ alias_info arg = Some ai)
  /\ forall arg ai, arg ∈ args -> alias_info arg = Some ai -> isWrite ai = false.

(** No tensor in one of the top [n] slots of the stack has its bit set. *)
Definition no_conj_argument (n : nat) (stk : list IValue) (h : Heap) : Prop :=
  forall k t, (k < n)%nat -> stk !! (length stk - n + k)%nat = Some (Tensor t) ->
    is_conj h t = false.

(** What one turn of the loop of lines 59-86 does at the slot [pos] of the
    stack: it passes over the slot (lines 61-63 and 72-74), or conjugates a
    mutable input in place (lines 79-81 and 85), or puts a resolved copy in
    the slot (lines 83 and 85). *)
Inductive Turn (argument : Argument) (pos : nat) (stk : list IValue) (h : Heap)
  (ms : list nat) : list IValue -> Heap -> list nat -> Prop :=
| turn_pass :
    (forall t, stk !! pos = Some (Tensor t) -> is_conj h t = false) ->
    Turn argument pos stk h ms stk h ms
| turn_flip t :
    stk !! pos = Some (Tensor t) -> is_Some (alias_info argument) ->
    is_conj h t = true ->
    Turn argument pos stk h ms (<[pos := Tensor t]> stk) (flip false h t) (ms ++ [t])%list
| turn_resolve t :
    stk !! pos = Some (Tensor t) -> alias_info argument = None ->
    is_conj h t = true ->
    Turn argument pos stk h ms
      (<[pos := Tensor (resolve_conj h t).1]> stk) (resolve_conj h t).2 ms.

(** A kernel that raises. *)
Definition kernel_raise (ks : Z) (stk : list IValue) (h : Heap)
  : Outcome unit * (list IValue * Heap) :=
  (Raises "kernel", (stk, h)).

(** [add(Tensor self, Tensor other)]. *)
Definition add : FunctionSchema :=
  {| name := "aten::add"; arguments := [plain_arg; plain_arg] |}.

(** [view(Tensor(a) self, int size)]. *)
Definition view : FunctionSchema :=
  {| name := "aten::view"; arguments := [view_arg; plain_arg] |}.

End ConjugateFallback.

(** * Properties of the engine *)

Module llvm_jit_properties.

Import llvm_jit.


Section TargetMachineBuilder.

Lemma ascii_lower_idem c : ascii_lower (ascii_lower c) = ascii_lower c.
Proof. destruct c as [[] [] [] [] [] [] [] []]; reflexivity. Qed.

Lemma lower_idem s : lower (lower s) = lower s.
Proof. induction s as [|c s IH]; simpl; [done|]. by rewrite ascii_lower_idem, IH. Qed.

Lemma lower_app s t : lower (s +:+ t) = lower s +:+ lower t.
Proof. induction s as [|c s IH]; simpl; [done|]. by rewrite IH. Qed.

Lemma hasFlag_lower s : hasFlag (lower s) = hasFlag s.
Proof.
  destruct s as [|c s]; simpl; [done|].
  destruct c as [[] [] [] [] [] [] [] []]; reflexivity.
Qed.

Lemma feature_string_stable f b :
  f <> "" ->
  feature_string f b <> "" /\ hasFlag (feature_string f b) = true
  /\ lower (feature_string f b) = feature_string f b.
Proof.
  intros Hf. unfold feature_string.
  destruct (hasFlag f) eqn:E.
  - rewrite hasFlag_lower, lower_idem. split; [|done].
    destruct f; [done|]. simpl. discriminate.
  - destruct b; unfold flag; rewrite lower_app, lower_idem;
      (split; [change (String ?c ("" +:+ lower f)) with (String c (lower f)) | done]);
      discriminate.
Qed.

Lemma AddFeature_nonempty fs f b :
  f <> "" -> AddFeature fs f b = (fs ++ [feature_string f b])%list.
Proof. destruct f; [done|]. reflexivity. Qed.

Lemma first_pass l acc :
  fold_left (fun fs F => AddFeature fs (fst F) (snd F)) l acc
  = (acc ++ host_features l)%list.
Proof.
  revert acc. induction l as [|[f b] l IH]; intros acc; simpl.
  - by rewrite app_nil_r.
  - rewrite IH. unfold host_features at 2. simpl. fold (host_features l).
    case_decide as Hf.
    + simpl in Hf. by subst f.
    + simpl in Hf. rewrite (AddFeature_nonempty _ _ _ Hf). by rewrite <- app_assoc.
Qed.

Lemma second_pass l acc :
  fold_left (fun fs f => AddFeature fs f true) (host_features l) acc
  = (acc ++ host_features l)%list.
Proof.
  revert acc. induction l as [|[f b] l IH]; intros acc.
  - simpl. by rewrite app_nil_r.
  - unfold host_features. simpl. fold (host_features l).
    case_decide as Hf; simpl in Hf; simpl.
    + apply IH.
    + destruct (feature_string_stable f b Hf) as (Hne & Hflag & Hlow).
      rewrite IH, (AddFeature_nonempty _ _ _ Hne).
      unfold feature_string at 1. rewrite Hflag, Hlow. by rewrite <- app_assoc.
Qed.

Lemma makeTargetMachineBuilder_Features h :
  Features (makeTargetMachineBuilder h) = host_features (getHostCPUFeatures h).
Proof.
  unfold makeTargetMachineBuilder. simpl. rewrite first_pass. simpl.
  by rewrite second_pass.
Qed.

(** A constructed engine hands out the target machine made from the
    builder. *)
Lemma getTargetMachine_of_builder (env : Env) (v : Variant) (impl : PytorchLLVMJITImpl) :
  Impl_ctor env v = Returns impl ->
  createTargetMachine env (makeTargetMachineBuilder (host env))
  = Value (Impl_getTargetMachine impl)
  /\ getTargetCPU (Impl_getTargetMachine impl) = getHostCPUName (host env).
Proof.
  assert (Hcpu : forall tm,
    createTargetMachine env (makeTargetMachineBuilder (host env)) = Value tm ->
    getTargetCPU tm = getHostCPUName (host env)).
  { unfold createTargetMachine. destruct (lookupTarget env _); [discriminate|].
    destruct (Target_createTargetMachine env _); [|discriminate].
    by intros tm [= <-]. }
  destruct v; simpl.
  - unfold Modern.ctor.
    destruct (createTargetMachine env _) as [tm|] eqn:Htm; [|discriminate]. simpl.
    destruct (assertSuccess (Modern.LLJIT_create env _) None) as [J|]; [|discriminate].
    simpl. destruct (assertSuccess_Error (GetForCurrentProcess env) None); [|discriminate].
    simpl. destruct (registerIntrinsics env _ ∅) as [[JD' I']|]; [|discriminate].
    simpl. intros [= <-]. simpl. split; [done|]. by apply Hcpu.
  - unfold Legacy.ctor.
    destruct (createTargetMachine env _) as [tm|] eqn:Htm; [|discriminate]. simpl.
    destruct (registerIntrinsics env _ ∅) as [[JD' I']|]; [|discriminate].
    simpl. intros [= <-]. simpl. split; [done|]. by apply Hcpu.
Qed.

(** C4.  The builder made by [makeTargetMachineBuilder] carries the host's
    CPU name, the default code-generation level and the fast floating-point
    fusion mode, and its feature list holds, for every named feature the host
    reports, that feature with the host's flag ([+] when enabled, [-]
    when not), and nothing else. *)
Theorem makeTargetMachineBuilder_describes_host (h : Host) :
  let JTMB := makeTargetMachineBuilder h in
  TT JTMB = getProcessTriple h /\
  CPU JTMB = getHostCPUName h /\
  OptLevel JTMB = CodeGenOpt.Default /\
  AllowFPOpFusion (Options JTMB) = FPOpFusion.Fast /\
  (forall f b, (f, b) ∈ getHostCPUFeatures h -> f <> "" -> hasFlag f = false ->
     (flag b +:+ lower f) ∈ Features JTMB) /\
  (forall s, s ∈ Features JTMB ->
     exists f b, (f, b) ∈ getHostCPUFeatures h /\ s = feature_string f b).
Proof.
  intros JTMB. repeat split; try reflexivity.
  - intros f b Hin Hf Hflag. unfold JTMB.
    rewrite makeTargetMachineBuilder_Features. unfold host_features.
    apply list_elem_of_omap. exists (f, b). split; [done|]. simpl.
    case_decide; [done|]. unfold feature_string. by rewrite Hflag.
  - intros s Hs. unfold JTMB in Hs.
    rewrite makeTargetMachineBuilder_Features in Hs. unfold host_features in Hs.
    apply list_elem_of_omap in Hs as ([f b] & Hin & Heq). simpl in Heq.
    case_decide; [done|]. exists f, b. split; [done|]. congruence.
Qed.

(** The statement at the host of [env0]. *)
Lemma makeTargetMachineBuilder_describes_host_witness :
  CPU (makeTargetMachineBuilder (host env0)) = "skylake"
  /\ "-avx512f" ∈ Features (makeTargetMachineBuilder (host env0)).
Proof.
  pose proof (makeTargetMachineBuilder_describes_host (host env0)) as H.
  destruct H as (_ & Hcpu & _ & _ & Hfeat & _).
  split; [exact Hcpu|].
  apply (Hfeat "avx512f" false).
  - simpl. apply list_elem_of_In. simpl. tauto.
  - discriminate.
  - reflexivity.
Defined.

End TargetMachineBuilder.

Section Intrinsics.

Context (env : Env).

Lemma define_single JD name a :
  define JD [(name, a)] =
    match Symbols JD !! name with
    | Some _ => (Some (DuplicateDefinition name), JD)
    | None => (None, {| Symbols := <[name := a]> (Symbols JD);
                        DefGenerator := DefGenerator JD;
                        NotReady := delete name (NotReady JD) |})
    end.
Proof.
  unfold define, first_duplicate. simpl.
  destruct (Symbols JD !! name) as [b|] eqn:E.
  - rewrite bool_decide_eq_true_2 by eauto. reflexivity.
  - rewrite bool_decide_eq_false_2 by (intros [? ?]; congruence). reflexivity.
Qed.

Lemma registerIntrinsics_loop_spec syms : forall JD I JD' I',
  registerIntrinsics_loop env syms JD I = Returns (JD', I') ->
  I' = list_to_set (enumerated syms) ∪ I
  /\ (forall n, n ∈ enumerated syms -> is_Some (Symbols JD' !! Mangle env n))
  /\ (forall k, is_Some (Symbols JD !! k) -> is_Some (Symbols JD' !! k))
  /\ DefGenerator JD' = DefGenerator JD.
Proof.
  induction syms as [|s syms IH]; intros JD I JD' I' Hrun; simpl in Hrun.
  - inversion Hrun; subst. simpl. split; [set_solver|]. split; [|done].
    intros n Hn. by apply elem_of_nil in Hn.
  - destruct (symbol s) as [name|] eqn:Hs; simpl; rewrite Hs.
    + unfold entry in Hrun. rewrite define_single in Hrun.
      destruct (Symbols JD !! Mangle env name) eqn:Hfree; [discriminate|].
      simpl in Hrun. apply IH in Hrun as (HI & Hdef & Hmono & Hgen). simpl in *.
      split; [set_solver|]. split; [|split; [|done]].
      * intros n Hn. apply elem_of_cons in Hn as [->|Hn]; [|by apply Hdef].
        apply Hmono. rewrite lookup_insert_eq. eauto.
      * intros k Hk. apply Hmono.
        destruct (decide (Mangle env name = k)) as [->|Hne].
        -- rewrite lookup_insert_eq. eauto.
        -- by rewrite lookup_insert_ne.
    + inversion Hrun; subst. split; [set_solver|]. split; [|done].
      intros n Hn. by apply elem_of_nil in Hn.
Qed.

(** What a successful [registerIntrinsics] leaves: the query set holds the
    enumerated names and no other, the parallel-dispatch entry is defined in
    the dylib, and its name is not among the enumerated ones. *)
Lemma registerIntrinsics_spec JD JD' I' :
  registerIntrinsics env JD ∅ = Returns (JD', I') ->
  I' = list_to_set (enumerated (getSymbols env))
  /\ ("DispatchParallel" ∉ enumerated (getSymbols env))
  /\ Symbols JD' !! Mangle env "DispatchParallel" = Some (DispatchParallel env)
  /\ (forall n, n ∈ enumerated (getSymbols env) -> is_Some (Symbols JD' !! Mangle env n))
  /\ DefGenerator JD' = DefGenerator JD.
Proof.
  unfold registerIntrinsics. intros Hrun.
  destruct (registerIntrinsics_loop env (getSymbols env) JD ∅) as [[JD1 I1]|] eqn:Hloop;
    [|discriminate].
  simpl in Hrun. unfold entry in Hrun. rewrite define_single in Hrun.
  apply registerIntrinsics_loop_spec in Hloop as (HI & Hdef & Hmono & Hgen).
  destruct (Symbols JD1 !! Mangle env "DispatchParallel") eqn:Hfree; [discriminate|].
  simpl in Hrun. inversion Hrun; subst. simpl.
  split; [set_solver|]. split; [|split; [apply lookup_insert_eq|split; [|done]]].
  - intros Hin. apply Hdef in Hin as [? Hin]. congruence.
  - intros n Hn. destruct (decide (Mangle env "DispatchParallel" = Mangle env n)) as [->|Hne].
    + rewrite lookup_insert_eq. eauto.
    + rewrite lookup_insert_ne by done. by apply Hdef.
Qed.

Lemma Impl_ctor_intrinsics v impl :
  Impl_ctor env v = Returns impl ->
  Impl_intrinsics impl = list_to_set (enumerated (getSymbols env))
  /\ "DispatchParallel" ∉ enumerated (getSymbols env).
Proof.
  destruct v; simpl.
  - unfold Modern.ctor.
    destruct (assertSuccess (createTargetMachine env _) None) as [tm|]; [|discriminate].
    simpl. destruct (assertSuccess (Modern.LLJIT_create env _) None) as [J|]; [|discriminate].
    simpl. destruct (assertSuccess_Error (GetForCurrentProcess env) None); [|discriminate].
    simpl. destruct (registerIntrinsics env _ ∅) as [[JD' I']|] eqn:Hreg; [|discriminate].
    simpl. intros [= <-]. simpl.
    apply registerIntrinsics_spec in Hreg as (? & ? & _). done.
  - unfold Legacy.ctor.
    destruct (assertSuccess (createTargetMachine env _) None) as [tm|]; [|discriminate].
    simpl. destruct (registerIntrinsics env _ ∅) as [[JD' I']|] eqn:Hreg; [|discriminate].
    simpl. intros [= <-]. simpl.
    apply registerIntrinsics_spec in Hreg as (? & ? & _). done.
Qed.

Lemma Legacy_removeModule_intrinsics this K :
  Legacy.intrinsics (Legacy.removeModule env this K).2 = Legacy.intrinsics this.
Proof.
  unfold Legacy.removeModule.
  by destruct (Legacy.CompileLayer_removeModule env _ K).
Qed.

Lemma reachable_intrinsics v impl :
  reachable env v impl ->
  Impl_intrinsics impl = list_to_set (enumerated (getSymbols env))
  /\ "DispatchParallel" ∉ enumerated (getSymbols env).
Proof.
  induction 1 as [impl Hc|impl M _ IH|impl Name _ IH|this K _ IH].
  - by eapply Impl_ctor_intrinsics.
  - by destruct impl.
  - by destruct impl.
  - simpl in *. by rewrite Legacy_removeModule_intrinsics.
Qed.

Lemma Impl_hasSymbol_intrinsics impl Name :
  Impl_hasSymbol impl Name = true <-> Name ∈ Impl_intrinsics impl.
Proof. destruct impl; simpl; apply bool_decide_eq_true. Qed.

(** C1, as the code has it.  On every engine a program can hold, [hasSymbol]
    answers true exactly for the names the intrinsic table enumerates before
    its sentinel, whatever modules were added; the name of the
    parallel-dispatch entry is not one of them, so
    [hasSymbol("DispatchParallel")] is false. *)
Theorem hasSymbol_exactly_enumerated (v : Variant) (impl : PytorchLLVMJITImpl) :
  reachable env v impl ->
  (forall Name, Impl_hasSymbol impl Name = true <-> Name ∈ enumerated (getSymbols env))
  /\ Impl_hasSymbol impl "DispatchParallel" = false.
Proof.
  intros Hr. apply reachable_intrinsics in Hr as [HI Hdp].
  assert (Hiff : forall Name,
    Impl_hasSymbol impl Name = true <-> Name ∈ enumerated (getSymbols env)).
  { intros Name. rewrite Impl_hasSymbol_intrinsics, HI. apply elem_of_list_to_set. }
  split; [exact Hiff|].
  apply not_true_is_false. intros Ht. by apply Hiff in Ht.
Qed.

End Intrinsics.

Lemma engine0_constructed v : Impl_ctor env0 v = Returns (engine0 v).
Proof. destruct v; vm_compute; reflexivity. Qed.

(** C1 at the modern engine of [env0]: ["sinf"] is enumerated and known. *)
Lemma hasSymbol_exactly_enumerated_witness :
  Impl_hasSymbol (engine0 modern) "sinf" = true
  /\ Impl_hasSymbol (engine0 modern) "DispatchParallel" = false.
Proof.
  destruct (hasSymbol_exactly_enumerated env0 modern (engine0 modern)) as [Hiff Hdp].
  - apply reach_ctor. vm_compute. reflexivity.
  - split; [|exact Hdp]. apply Hiff. simpl. apply list_elem_of_In. simpl. tauto.
Defined.

(** C1 as the spec words it fails: the engines constructed in [env0], of
    either variant, answer false for the parallel-dispatch entry, although
    the modern one resolves it; so [hasSymbol("DispatchParallel")] is not
    true on every constructed engine. *)
Lemma hasSymbol_DispatchParallel_false :
  (Impl_ctor env0 modern = Returns (engine0 modern)
   /\ Impl_ctor env0 legacy = Returns (engine0 legacy)
   /\ Impl_hasSymbol (engine0 modern) "DispatchParallel" = false
   /\ Impl_hasSymbol (engine0 legacy) "DispatchParallel" = false
   /\ (Impl_findSymbol env0 (engine0 modern) "DispatchParallel").1
      = Returns (JITSymbol_at 5000))
  /\ ~ (forall env v impl,
         Impl_ctor env v = Returns impl ->
         Impl_hasSymbol impl "DispatchParallel" = true).
Proof.
  split; [repeat split; vm_compute; reflexivity|].
  intros Hclaim. specialize (Hclaim env0 modern (engine0 modern)).
  assert (Hc : Impl_ctor env0 modern = Returns (engine0 modern))
    by (vm_compute; reflexivity).
  apply Hclaim in Hc. vm_compute in Hc. discriminate.
Qed.

Section Resolution.

Context (env : Env).

Lemma lookup_emitted MU (tbl : gmap string SymbolState) k :
  emitted MU tbl !! k = if decide (k ∈ MU) then None else tbl !! k.
Proof.
  unfold emitted. induction MU as [|n MU IH]; cbn [fold_right].
  - by rewrite decide_False by apply not_elem_of_nil.
  - destruct (decide (n = k)) as [->|Hne].
    + rewrite lookup_delete_eq, decide_True; [done|]. apply elem_of_cons. by left.
    + rewrite lookup_delete_ne, IH by done.
      destruct (decide (k ∈ MU)) as [Hin|Hnin].
      * rewrite decide_True; [done|]. apply elem_of_cons. by right.
      * rewrite decide_False; [done|]. rewrite elem_of_cons. naive_solver.
Qed.

Lemma lookup_fold_insert (v : SymbolState) l (tbl : gmap string SymbolState) k :
  fold_right (fun n t => <[n := v]> t) tbl l !! k
  = if decide (k ∈ l) then Some v else tbl !! k.
Proof.
  induction l as [|n l IH]; cbn [fold_right].
  - by rewrite decide_False by apply not_elem_of_nil.
  - destruct (decide (n = k)) as [->|Hne].
    + rewrite lookup_insert_eq, decide_True; [done|]. apply elem_of_cons. by left.
    + rewrite lookup_insert_ne, IH by done.
      destruct (decide (k ∈ l)) as [Hin|Hnin].
      * rewrite decide_True; [done|]. apply elem_of_cons. by right.
      * rewrite decide_False; [done|]. rewrite elem_of_cons. naive_solver.
Qed.

Lemma lookup_failed MU (tbl : gmap string SymbolState) k :
  failed MU tbl !! k = if decide (k ∈ MU) then Some (HasError MU) else tbl !! k.
Proof. apply lookup_fold_insert. Qed.

Lemma emitted_emitted MU tbl : emitted MU (emitted MU tbl) = emitted MU tbl.
Proof. apply map_eq. intros k. rewrite !lookup_emitted. by case_decide. Qed.

Lemma failed_failed MU tbl : failed MU (failed MU tbl) = failed MU tbl.
Proof. apply map_eq. intros k. rewrite !lookup_failed. by case_decide. Qed.

(** The lookup of a name that is not in the table, with its call of
    [JD.define] worked out. *)
Lemma ES_lookup_None JD name :
  Symbols JD !! name = None ->
  ES_lookup env JD name
  = if DefGenerator JD && negb (getSymbolAddressInProcess env name =? 0) then
      (Value (getSymbolAddressInProcess env name),
       {| Symbols := <[name := getSymbolAddressInProcess env name]> (Symbols JD);
          DefGenerator := DefGenerator JD;
          NotReady := delete name (NotReady JD) |})
    else (Failure (SymbolsNotFound name), JD).
Proof.
  intros E. unfold ES_lookup. rewrite E.
  destruct (DefGenerator JD && _); [|done]. cbn zeta. by rewrite define_single, E.
Qed.

Lemma ES_lookup_found JD name a :
  Symbols JD !! name = Some a -> NotReady JD !! name = None ->
  ES_lookup env JD name = (Value a, JD).
Proof. unfold ES_lookup. by intros -> ->. Qed.

Lemma ES_lookup_process JD name :
  Symbols JD !! name = None -> DefGenerator JD = true ->
  getSymbolAddressInProcess env name <> 0 ->
  (ES_lookup env JD name).1 = Value (getSymbolAddressInProcess env name).
Proof.
  intros E G Hp. rewrite (ES_lookup_None _ _ E), G. simpl.
  destruct (Z.eqb_spec (getSymbolAddressInProcess env name) 0); [done|]. reflexivity.
Qed.

Lemma ES_lookup_unresolved JD name :
  Symbols JD !! name = None -> getSymbolAddressInProcess env name = 0 ->
  ES_lookup env JD name = (Failure (SymbolsNotFound name), JD).
Proof.
  intros E Hp. rewrite (ES_lookup_None _ _ E), Hp. simpl. by rewrite andb_false_r.
Qed.

(** A second lookup of a name finds the dylib as the first left it: a
    process symbol is defined, a unit has run or its symbols are in the
    error state. *)
Lemma ES_lookup_again JD name :
  ES_lookup env (ES_lookup env JD name).2 name = ES_lookup env JD name.
Proof.
  destruct (Symbols JD !! name) as [a|] eqn:E.
  - unfold ES_lookup at 2 3. rewrite E.
    destruct (NotReady JD !! name) as [[MU [e|]|MU]|] eqn:N; cbn [snd].
    + unfold ES_lookup. cbn [Symbols NotReady DefGenerator]. rewrite E, lookup_failed.
      case_decide; [done|]. by rewrite N, failed_failed.
    + unfold ES_lookup. cbn [Symbols NotReady DefGenerator]. rewrite E, lookup_emitted.
      case_decide; [done|]. by rewrite N, emitted_emitted.
    + unfold ES_lookup. by rewrite E, N.
    + unfold ES_lookup. by rewrite E, N.
  - rewrite (ES_lookup_None _ _ E).
    destruct (DefGenerator JD && negb (getSymbolAddressInProcess env name =? 0)) eqn:G;
      cbn [snd].
    + unfold ES_lookup. cbn [Symbols NotReady]. by rewrite lookup_insert_eq, lookup_delete_eq.
    + by rewrite (ES_lookup_None _ _ E), G.
Qed.

Lemma Modern_findSymbol_again this Name :
  Modern.findSymbol env (Modern.findSymbol env this Name).2 Name
  = Modern.findSymbol env this Name.
Proof.
  unfold Modern.findSymbol, Modern.lookup. simpl.
  by rewrite ES_lookup_again.
Qed.

(** C5.  Looking a name up a second time, on the engine as the first lookup
    left it, gives the same outcome (the same address, or the same raised
    assertion) and leaves the engine as it was; in both variants. *)
Theorem findSymbol_twice (impl : PytorchLLVMJITImpl) (Name : string) :
  Impl_findSymbol env (Impl_findSymbol env impl Name).2 Name
  = Impl_findSymbol env impl Name.
Proof.
  destruct impl as [this|this]; [|reflexivity].
  unfold Impl_findSymbol. cbn [fst snd]. by rewrite Modern_findSymbol_again.
Qed.

(** The modern half of C2: a name that neither the dylib nor the process
    resolves raises, and the engine is left as it was. *)
Lemma Modern_findSymbol_unresolved this Name :
  Symbols (Modern.getMainJITDylib (Modern.LLJ this)) !! Mangle env Name = None ->
  getSymbolAddressInProcess env (Mangle env Name) = 0 ->
  Modern.findSymbol env this Name
  = (Raises (defaultErrorMsg +:+ ": " +:+ SymbolsNotFound (Mangle env Name)), this).
Proof.
  intros Hjd Hp. unfold Modern.findSymbol, Modern.lookup.
  rewrite (ES_lookup_unresolved _ _ Hjd Hp). simpl.
  by destruct this as [tm [jd dl] I].
Qed.

(** The legacy half: with no module linked, every lookup returns the null
    symbol and [getSymbolAddress] the address 0, without an assertion. *)
Lemma Legacy_findSymbol_no_modules this Name :
  Legacy.ctor env = Returns this ->
  Legacy.findSymbol env this Name = JITSymbol_null
  /\ Legacy.getSymbolAddress env this Name = Returns 0.
Proof.
  unfold Legacy.ctor.
  destruct (assertSuccess (createTargetMachine env _) None) as [tm|]; [|discriminate].
  simpl. destruct (registerIntrinsics env _ ∅) as [[JD' I']|]; [|discriminate].
  simpl. intros [= <-]. split; reflexivity.
Qed.

End Resolution.

(** C2 at its failing input.  On the legacy engine of [env0], with no module
    added, the lookup of an unknown name returns the null symbol and
    [getSymbolAddress] returns 0; neither raises.  The modern engine raises
    on the same name. *)
Theorem Legacy_findSymbol_unknown_is_null :
  Impl_ctor env0 legacy = Returns (engine0 legacy)
  /\ Impl_findSymbol env0 (engine0 legacy) "definitely_unknown_symbol_xyz"
     = (Returns JITSymbol_null, engine0 legacy)
  /\ (match engine0 legacy with
      | LegacyImpl this =>
          Legacy.getSymbolAddress env0 this "definitely_unknown_symbol_xyz" = Returns 0
      | ModernImpl _ => False
      end)
  /\ is_fatal (Impl_findSymbol env0 (engine0 modern) "definitely_unknown_symbol_xyz").1
     = true.
Proof. repeat split; vm_compute; reflexivity. Qed.

Section ModuleDefinitions.

Context (env : Env).

Lemma first_duplicate_None tbl syms :
  first_duplicate tbl syms = None -> forall s, s ∈ syms -> tbl !! s.1 = None.
Proof.
  unfold first_duplicate. intros Hnone s Hs.
  destruct (List.find _ syms) eqn:Hf; [discriminate|].
  apply list_elem_of_In in Hs.
  pose proof (find_none _ _ Hf s Hs) as Hb. simpl in Hb.
  apply bool_decide_eq_false in Hb.
  destruct (tbl !! s.1); [|done]. exfalso. apply Hb. eauto.
Qed.

Lemma first_duplicate_Some tbl syms s :
  s ∈ syms -> is_Some (tbl !! s.1) -> is_Some (first_duplicate tbl syms).
Proof.
  intros Hs Hin. unfold first_duplicate.
  destruct (List.find _ syms) eqn:Hf; [by eexists|].
  apply list_elem_of_In in Hs.
  pose proof (find_none _ _ Hf s Hs) as Hb. simpl in Hb.
  apply bool_decide_eq_false in Hb. done.
Qed.

Lemma first_duplicate_free tbl syms :
  first_duplicate tbl syms = None <-> forall k, k ∈ map fst syms -> tbl !! k = None.
Proof.
  split.
  - intros Hnone k Hk. apply list_elem_of_fmap in Hk as (s & -> & Hs).
    by apply (first_duplicate_None _ _ Hnone).
  - intros Hfree. destruct (first_duplicate tbl syms) as [n|] eqn:Hd; [|done].
    unfold first_duplicate in Hd.
    destruct (List.find _ syms) as [s|] eqn:Hf; [|discriminate].
    apply find_some in Hf as [Hin Hb]. apply bool_decide_eq_true in Hb as [b Hb].
    rewrite Hfree in Hb; [discriminate|].
    apply list_elem_of_fmap. exists s. split; [done|]. by apply list_elem_of_In.
Qed.

Lemma lookup_defined (syms : list (string * JITTargetAddress)) :
  forall (tbl : gmap string JITTargetAddress) name,
  fold_right (fun s t => <[s.1 := s.2]> t) tbl syms !! name
  = match defined_by syms name with Some a => Some a | None => tbl !! name end.
Proof.
  induction syms as [|[n a] syms IH]; intros tbl name; [reflexivity|].
  unfold defined_by in *. simpl.
  destruct (String.eqb_spec n name) as [->|Hne]; simpl.
  - by rewrite lookup_insert_eq.
  - rewrite lookup_insert_ne by done. apply IH.
Qed.

Lemma defined_by_elem {A} (syms : list (string * A)) name a :
  defined_by syms name = Some a -> (name, a) ∈ syms.
Proof.
  unfold defined_by. destruct (List.find _ syms) as [[n b]|] eqn:Hf; [|discriminate].
  simpl. intros [= ->]. apply find_some in Hf as [Hin Heq]. simpl in Heq.
  apply String.eqb_eq in Heq as ->. by apply list_elem_of_In.
Qed.

Lemma defined_by_None {A} (syms : list (string * A)) k :
  defined_by syms k = None <-> k ∉ map fst syms.
Proof.
  unfold defined_by. induction syms as [|[n a] syms IH]; simpl.
  - split; [intros _; apply not_elem_of_nil|done].
  - destruct (String.eqb_spec n k) as [->|Hne]; simpl.
    + split; [done|]. intros Hnin. exfalso. apply Hnin, elem_of_cons. by left.
    + rewrite IH. rewrite elem_of_cons. naive_solver.
Qed.

Lemma defined_by_compiled M k :
  defined_by (Legacy.compiled env M) k
  = (fun a => match materialization M with None => Value a | Some e => Failure e end)
      <$> defined_by (module_symbols env M) k.
Proof.
  unfold Legacy.compiled, defined_by.
  induction (module_symbols env M) as [|[n a] syms IH]; [done|]. simpl.
  by destruct (String.eqb n k).
Qed.

Lemma compiled_names M :
  map fst (Legacy.compiled env M) = map fst (module_symbols env M).
Proof. unfold Legacy.compiled. rewrite map_map. by apply map_ext. Qed.

Lemma Legacy_getSymbol_defined_by obj Name :
  Legacy.getSymbol obj Name
  = match defined_by obj Name with
    | Some r => JITSymbol_lazy r
    | None => JITSymbol_null
    end.
Proof. unfold Legacy.getSymbol, defined_by. by destruct (List.find _ obj). Qed.

Lemma CompileLayer_findSymbol_app objs K obj Name b :
  Legacy.CompileLayer_findSymbol (objs ++ [(K, obj)]) Name b
  = match Legacy.CompileLayer_findSymbol objs Name b with
    | JITSymbol_null => Legacy.getSymbol obj Name
    | Sym => Sym
    end.
Proof.
  induction objs as [|KV objs IH]; simpl.
  - by destruct (Legacy.getSymbol obj Name).
  - destruct (Legacy.getSymbol KV.2 Name); [apply IH|done..].
Qed.

Lemma CompileLayer_findSymbol_flag objs Name b b' :
  Legacy.CompileLayer_findSymbol objs Name b = Legacy.CompileLayer_findSymbol objs Name b'.
Proof. induction objs as [|KV objs IH]; simpl; [done|]. by rewrite IH. Qed.

(** What the legacy [addModule] gives and leaves: it goes by the error of
    the add call alone. *)
Lemma Legacy_addModule_eq this M :
  Legacy.addModule env this M
  = (match rejection M with
     | Some e => Raises ("Failed to add module to compile layer: " +:+ e)
     | None => Returns tt
     end,
     {| Legacy.MainJITDylib := Legacy.MainJITDylib this;
        Legacy.LastKey := (Legacy.LastKey this + 1)%N;
        Legacy.TM := Legacy.TM this; Legacy.DL := Legacy.DL this;
        Legacy.LinkedObjects :=
          match rejection M with
          | Some _ => Legacy.LinkedObjects this
          | None => (Legacy.LinkedObjects this
                     ++ [((Legacy.LastKey this + 1)%N, Legacy.compiled env M)])%list
          end;
        Legacy.intrinsics := Legacy.intrinsics this |}).
Proof.
  unfold Legacy.addModule, Legacy.CompileLayer_addModule. by destruct (rejection M).
Qed.

(** A module the legacy engine accepts is appended to the linked objects. *)
Lemma Legacy_addModule_Returns this M :
  (Legacy.addModule env this M).1 = Returns tt ->
  Legacy.LinkedObjects (Legacy.addModule env this M).2
  = (Legacy.LinkedObjects this
     ++ [((Legacy.LastKey this + 1)%N, Legacy.compiled env M)])%list.
Proof.
  rewrite Legacy_addModule_eq. cbn [fst snd Legacy.LinkedObjects].
  destruct (rejection M); [discriminate|done].
Qed.

(** What the modern [addModule] gives and leaves. *)
Lemma Modern_addModule_eq this M :
  Modern.addModule env this M
  = match rejection M with
    | Some e => (Raises ("Failed to add module to compile layer: " +:+ e), this)
    | None =>
        match first_duplicate (Symbols (Modern_JD this)) (module_symbols env M) with
        | Some name =>
            (Raises ("Failed to add module to compile layer: " +:+ DuplicateDefinition name),
             this)
        | None =>
            (Returns tt,
             {| Modern.TM := Modern.TM this;
                Modern.LLJ :=
                  {| Modern.getMainJITDylib :=
                       {| Symbols := fold_right (fun s tbl => <[s.1 := s.2]> tbl)
                                       (Symbols (Modern_JD this)) (module_symbols env M);
                          DefGenerator := DefGenerator (Modern_JD this);
                          NotReady := pending (map fst (module_symbols env M))
                                        (materialization M) (NotReady (Modern_JD this)) |};
                     Modern.LLJIT_getDataLayout := Modern.LLJIT_getDataLayout (Modern.LLJ this) |};
                Modern.intrinsics := Modern.intrinsics this |})
        end
    end.
Proof.
  unfold Modern.addModule, Modern.addIRModule, define_MU, Modern_JD.
  destruct this as [tm [jd dl] I]. cbn [Modern.LLJ Modern.getMainJITDylib Modern.TM
    Modern.intrinsics Modern.LLJIT_getDataLayout].
  destruct (rejection M); [done|].
  by destruct (first_duplicate (Symbols jd) (module_symbols env M)).
Qed.


(** The modern engine turns down a module that defines a name its dylib
    already holds. *)
Lemma Modern_addModule_duplicate this M s :
  s ∈ module_symbols env M ->
  is_Some (Symbols (Modern_JD this) !! s.1) ->
  is_fatal (Modern.addModule env this M).1 = true
  /\ (Modern.addModule env this M).2 = this.
Proof.
  intros Hs Hheld. rewrite Modern_addModule_eq.
  destruct (rejection M); [done|].
  by destruct (first_duplicate_Some _ _ _ Hs Hheld) as [n ->].
Qed.

Lemma Modern_ctor_linked this : Modern.ctor env = Returns this -> Modern_linked env this.
Proof.
  unfold Modern.ctor.
  destruct (assertSuccess (createTargetMachine env _) None) as [tm|]; [|discriminate].
  simpl. destruct (assertSuccess (Modern.LLJIT_create env _) None) as [J|]; [|discriminate].
  simpl. destruct (assertSuccess_Error (GetForCurrentProcess env) None); [|discriminate].
  simpl. destruct (registerIntrinsics env _ ∅) as [[JD' I']|] eqn:Hreg; [|discriminate].
  simpl. intros [= <-].
  apply registerIntrinsics_spec in Hreg as (_ & _ & Hdp & Hdef & Hgen).
  unfold Modern_linked. simpl. rewrite Hgen, Hdp. eauto.
Qed.

Lemma ES_lookup_grows JD name k :
  DefGenerator (ES_lookup env JD name).2 = DefGenerator JD
  /\ (is_Some (Symbols JD !! k) -> is_Some (Symbols (ES_lookup env JD name).2 !! k)).
Proof.
  destruct (Symbols JD !! name) eqn:E.
  - unfold ES_lookup. rewrite E.
    by destruct (NotReady JD !! name) as [[MU [e|]|MU]|].
  - rewrite (ES_lookup_None env _ _ E).
    destruct (DefGenerator JD && _); [|done]. simpl. split; [done|].
    intros Hk. destruct (decide (name = k)) as [->|Hne].
    + rewrite lookup_insert_eq. eauto.
    + by rewrite lookup_insert_ne.
Qed.

Lemma define_grows JD syms k :
  DefGenerator (define JD syms).2 = DefGenerator JD
  /\ (is_Some (Symbols JD !! k) -> is_Some (Symbols (define JD syms).2 !! k)).
Proof.
  unfold define. destruct (first_duplicate (Symbols JD) syms); [done|].
  simpl. split; [done|]. intros Hk. rewrite lookup_defined.
  by destruct (defined_by syms k).
Qed.

Lemma define_MU_grows JD syms o k :
  DefGenerator (define_MU JD syms o).2 = DefGenerator JD
  /\ (is_Some (Symbols JD !! k) -> is_Some (Symbols (define_MU JD syms o).2 !! k)).
Proof.
  unfold define_MU. destruct (first_duplicate (Symbols JD) syms); [done|].
  simpl. split; [done|]. intros Hk. rewrite lookup_defined.
  by destruct (defined_by syms k).
Qed.

Lemma reachable_Modern_linked v impl :
  reachable env v impl ->
  match impl with ModernImpl this => Modern_linked env this | LegacyImpl _ => True end.
Proof.
  induction 1 as [impl Hc|impl M _ IH|impl Name _ IH|this K _ IH]; [| | |done].
  - destruct v; simpl in Hc.
    + destruct (Modern.ctor env) as [this|] eqn:E; [|discriminate].
      injection Hc as <-. by apply Modern_ctor_linked.
    + destruct (Legacy.ctor env); [|discriminate]. by injection Hc as <-.
  - destruct impl as [this|this]; [|done]. simpl.
    destruct IH as (Hg & Hdp & Hdef).
    unfold Modern_linked, Modern.addModule, Modern.addIRModule. simpl.
    destruct (rejection M); simpl; [done|].
    split; [|split].
    + by rewrite (proj1 (define_MU_grows _ _ _ "")).
    + by apply define_MU_grows.
    + intros n Hn. by apply define_MU_grows, Hdef.
  - destruct impl as [this|this]; [|done]. simpl.
    destruct IH as (Hg & Hdp & Hdef).
    unfold Modern_linked, Modern.findSymbol, Modern.lookup. simpl.
    split; [|split].
    + by rewrite (proj1 (ES_lookup_grows _ _ "")).
    + by apply ES_lookup_grows.
    + intros n Hn. by apply ES_lookup_grows, Hdef.
Qed.

End ModuleDefinitions.

Section Construction.

Context (env : Env).

Lemma enumerated_fst syms : enumerated syms = map fst (enumerated_entries syms).
Proof.
  induction syms as [|s syms IH]; simpl; [done|].
  destruct (symbol s); simpl; [by rewrite IH|done].
Qed.

Lemma defined_by_cons {A} n (a : A) syms k :
  defined_by ((n, a) :: syms) k = if String.eqb n k then Some a else defined_by syms k.
Proof. unfold defined_by. simpl. by destruct (String.eqb n k). Qed.

(** One turn of the loop of lines 105-109. *)
Lemma registerIntrinsics_loop_cons s syms JD I :
  registerIntrinsics_loop env (s :: syms) JD I
  = match symbol s with
    | None => Returns (JD, I)
    | Some name =>
        match Symbols JD !! Mangle env name with
        | Some _ => Raises (formatError (DuplicateDefinition (Mangle env name)) None)
        | None =>
            registerIntrinsics_loop env syms
              {| Symbols := <[Mangle env name := address s]> (Symbols JD);
                 DefGenerator := DefGenerator JD;
                 NotReady := delete (Mangle env name) (NotReady JD) |} ({[name]} ∪ I)
        end
    end.
Proof.
  cbn [registerIntrinsics_loop]. destruct (symbol s) as [name|]; [|done].
  unfold entry. rewrite define_single.
  by destruct (Symbols JD !! Mangle env name).
Qed.

(** When the loop of lines 105-109 returns, and the table it then leaves. *)
Lemma registerIntrinsics_loop_returns syms : forall JD I,
  (exists r, registerIntrinsics_loop env syms JD I = Returns r)
  <-> NoDup (map fst (mangled env (enumerated_entries syms)))
      /\ forall k, k ∈ map fst (mangled env (enumerated_entries syms)) ->
           Symbols JD !! k = None.
Proof.
  induction syms as [|s syms IH]; intros JD I.
  - simpl. split; [|by eauto]. intros _. split; [constructor|].
    intros k Hk. by apply elem_of_nil in Hk.
  - rewrite registerIntrinsics_loop_cons. cbn [enumerated_entries].
    destruct (symbol s) as [name|] eqn:Hs.
    + cbn [mangled map fst entry].
      fold (mangled env (enumerated_entries syms)).
      destruct (Symbols JD !! Mangle env name) as [b|] eqn:Hfree.
      * split; [intros [r Hr]; discriminate Hr|]. intros [_ Hfree'].
        rewrite Hfree' in Hfree; [done|]. apply elem_of_cons. by left.
      * rewrite IH. cbn [Symbols]. split.
        -- intros [Hnd Hall]. split.
           ++ apply NoDup_cons. split; [|done]. intros Hin.
              apply Hall in Hin. by rewrite lookup_insert_eq in Hin.
           ++ intros k Hk. apply elem_of_cons in Hk as [->|Hk]; [done|].
              specialize (Hall k Hk).
              apply lookup_insert_None in Hall as [? _]. done.
        -- intros [Hnd Hall]. apply NoDup_cons in Hnd as [Hnin Hnd].
           split; [done|]. intros k Hk. apply lookup_insert_None. split.
           ++ apply Hall. apply elem_of_cons. by right.
           ++ intros <-. done.
    + simpl. split; [|by eauto]. intros _. split; [constructor|].
      intros k Hk. by apply elem_of_nil in Hk.
Qed.

Lemma registerIntrinsics_loop_table syms : forall JD I JD' I',
  registerIntrinsics_loop env syms JD I = Returns (JD', I') ->
  forall k, Symbols JD' !! k
    = match defined_by (mangled env (enumerated_entries syms)) k with
      | Some a => Some a
      | None => Symbols JD !! k
      end.
Proof.
  induction syms as [|s syms IH]; intros JD I JD' I' Hrun k.
  - simpl in Hrun. by injection Hrun as <- <-.
  - rewrite registerIntrinsics_loop_cons in Hrun. cbn [enumerated_entries].
    destruct (symbol s) as [name|] eqn:Hs.
    + destruct (Symbols JD !! Mangle env name) as [b|] eqn:Hfree; [discriminate|].
      assert (Hret : exists r, registerIntrinsics_loop env syms
                {| Symbols := <[Mangle env name:=address s]> (Symbols JD);
                   DefGenerator := DefGenerator JD;
                   NotReady := delete (Mangle env name) (NotReady JD) |}
                ({[name]} ∪ I) = Returns r)
        by eauto.
      apply registerIntrinsics_loop_returns in Hret as [_ Hall]. cbn [Symbols] in Hall.
      rewrite (IH _ _ _ _ Hrun k). cbn [Symbols].
      change (mangled env ((name, address s) :: enumerated_entries syms))
        with ((Mangle env name, address s) :: mangled env (enumerated_entries syms)).
      rewrite defined_by_cons.
      destruct (String.eqb_spec (Mangle env name) k) as [<-|Hne].
      * destruct (defined_by (mangled env (enumerated_entries syms)) (Mangle env name))
          as [a|] eqn:Hd; [|by rewrite lookup_insert_eq].
        apply defined_by_elem in Hd.
        assert (Hin : Mangle env name ∈ map fst (mangled env (enumerated_entries syms))).
        { apply list_elem_of_fmap. by exists (Mangle env name, a). }
        apply Hall in Hin. by rewrite lookup_insert_eq in Hin.
      * by rewrite lookup_insert_ne.
    + simpl. by injection Hrun as <- <-.
Qed.

Lemma defined_by_NoDup {A} (syms : list (string * A)) k a :
  NoDup (map fst syms) -> (k, a) ∈ syms -> defined_by syms k = Some a.
Proof.
  unfold defined_by. induction syms as [|[n b] syms IH]; intros Hnd Hin.
  - by apply elem_of_nil in Hin.
  - simpl in *. apply NoDup_cons in Hnd as [Hnin Hnd].
    apply elem_of_cons in Hin as [[= -> ->]|Hin].
    + by rewrite String.eqb_refl.
    + destruct (String.eqb_spec n k) as [->|Hne]; [|by apply IH].
      exfalso. apply Hnin. apply list_elem_of_fmap. by exists (k, a).
Qed.

(** [registerIntrinsics], with its calls of [JD.define] worked out. *)
Lemma registerIntrinsics_eq JD I :
  registerIntrinsics env JD I
  = match registerIntrinsics_loop env (getSymbols env) JD I with
    | Raises m => Raises m
    | Returns r =>
        match Symbols r.1 !! Mangle env "DispatchParallel" with
        | Some _ =>
            Raises (formatError (DuplicateDefinition (Mangle env "DispatchParallel")) None)
        | None =>
            Returns ({| Symbols := <[Mangle env "DispatchParallel" := DispatchParallel env]>
                                     (Symbols r.1);
                        DefGenerator := DefGenerator r.1;
                        NotReady := delete (Mangle env "DispatchParallel") (NotReady r.1) |},
                     r.2)
        end
    end.
Proof.
  unfold registerIntrinsics.
  destruct (registerIntrinsics_loop env (getSymbols env) JD I) as [r|m]; [|done].
  cbn [mbind Outcome_bind]. unfold entry. rewrite define_single.
  by destruct (Symbols r.1 !! Mangle env "DispatchParallel").
Qed.

Lemma NoDup_linked_symbols :
  NoDup (map fst (linked_symbols env))
  <-> NoDup (map fst (mangled env (enumerated_entries (getSymbols env))))
      /\ Mangle env "DispatchParallel"
         ∉ map fst (mangled env (enumerated_entries (getSymbols env))).
Proof.
  unfold linked_symbols. rewrite map_app, NoDup_app. cbn [map fst entry].
  split.
  - intros (Hnd & Hdisj & _). split; [done|]. intros Hin.
    apply (Hdisj _ Hin). by apply list_elem_of_singleton.
  - intros [Hnd Hnin]. split; [done|]. split; [|apply NoDup_singleton].
    intros k Hk Hk'. apply list_elem_of_singleton in Hk' as ->. done.
Qed.

(** When [registerIntrinsics] returns on an empty dylib, and the table it
    then leaves. *)
Lemma registerIntrinsics_returns JD :
  Symbols JD = ∅ ->
  (exists r, registerIntrinsics env JD ∅ = Returns r)
  <-> NoDup (map fst (linked_symbols env)).
Proof.
  intros Hempty. rewrite registerIntrinsics_eq, NoDup_linked_symbols.
  destruct (registerIntrinsics_loop env (getSymbols env) JD ∅) as [[JD1 I1]|m] eqn:Hloop.
  - assert (Hret : exists r, registerIntrinsics_loop env (getSymbols env) JD ∅ = Returns r)
      by eauto.
    apply registerIntrinsics_loop_returns in Hret as [Hnd _].
    pose proof (registerIntrinsics_loop_table _ _ _ _ _ Hloop
                  (Mangle env "DispatchParallel")) as Htab.
    rewrite Hempty, lookup_empty in Htab. cbn [fst snd]. rewrite Htab.
    destruct (defined_by (mangled env (enumerated_entries (getSymbols env)))
                (Mangle env "DispatchParallel")) as [a|] eqn:Hd.
    + split; [intros [r Hr]; discriminate Hr|].
      intros [_ Hnin]. exfalso. apply Hnin.
      apply defined_by_elem in Hd. apply list_elem_of_fmap.
      by exists (Mangle env "DispatchParallel", a).
    + split; [|by eauto]. intros _. split; [done|]. by apply defined_by_None.
  - split; [intros [r Hr]; discriminate Hr|]. intros [Hnd _]. exfalso.
    assert (Hret : exists r, registerIntrinsics_loop env (getSymbols env) JD ∅ = Returns r).
    { apply registerIntrinsics_loop_returns. split; [done|].
      intros k _. by rewrite Hempty, lookup_empty. }
    destruct Hret as [r Hr]. congruence.
Qed.

Lemma registerIntrinsics_table JD JD' I' :
  Symbols JD = ∅ ->
  registerIntrinsics env JD ∅ = Returns (JD', I') ->
  forall k a, (k, a) ∈ linked_symbols env -> Symbols JD' !! k = Some a.
Proof.
  intros Hempty Hrun.
  assert (Hnd : NoDup (map fst (linked_symbols env))).
  { apply (registerIntrinsics_returns JD Hempty). eauto. }
  apply NoDup_linked_symbols in Hnd as [Hnd1 Hnin].
  rewrite registerIntrinsics_eq in Hrun.
  destruct (registerIntrinsics_loop env (getSymbols env) JD ∅) as [[JD1 I1]|m] eqn:Hloop;
    [|discriminate].
  cbn [fst snd] in Hrun.
  destruct (Symbols JD1 !! Mangle env "DispatchParallel") eqn:Hfree; [discriminate|].
  injection Hrun as <- <-. cbn [Symbols].
  intros k a Hin. unfold linked_symbols in Hin.
  apply elem_of_app in Hin as [Hin|Hin].
  - assert (k <> Mangle env "DispatchParallel") as Hne.
    { intros ->. apply Hnin. apply list_elem_of_fmap.
      by exists (Mangle env "DispatchParallel", a). }
    rewrite lookup_insert_ne by done.
    rewrite (registerIntrinsics_loop_table _ _ _ _ _ Hloop k).
    by rewrite (defined_by_NoDup _ _ _ Hnd1 Hin).
  - apply list_elem_of_singleton in Hin. unfold entry in Hin. injection Hin as -> ->.
    apply lookup_insert_eq.
Qed.

(** The constructors, with their assertions worked out. *)
Lemma Modern_ctor_eq :
  Modern.ctor env
  = match createTargetMachine env (makeTargetMachineBuilder (host env)) with
    | Failure e => Raises (formatError e None)
    | Value tm =>
        match LLJIT_setup env with
        | Some e => Raises (formatError e None)
        | None =>
            match GetForCurrentProcess env with
            | Some e => Raises (formatError e None)
            | None =>
                match registerIntrinsics env (setGenerator JITDylib_empty) ∅ with
                | Raises m => Raises m
                | Returns r =>
                    Returns {| Modern.TM := tm;
                               Modern.LLJ :=
                                 {| Modern.getMainJITDylib := r.1;
                                    Modern.LLJIT_getDataLayout := createDataLayout env tm |};
                               Modern.intrinsics := r.2 |}
                end
            end
        end
    end.
Proof.
  unfold Modern.ctor, Modern.LLJIT_create.
  destruct (createTargetMachine env (makeTargetMachineBuilder (host env))); [|done].
  cbn [assertSuccess mbind Outcome_bind].
  destruct (LLJIT_setup env); [done|].
  cbn [assertSuccess mbind Outcome_bind].
  destruct (GetForCurrentProcess env); [done|].
  cbn [assertSuccess_Error mbind Outcome_bind Modern.getMainJITDylib].
  by destruct (registerIntrinsics env (setGenerator JITDylib_empty) ∅).
Qed.

Lemma Legacy_ctor_eq :
  Legacy.ctor env
  = match createTargetMachine env (makeTargetMachineBuilder (host env)) with
    | Failure e => Raises (formatError e None)
    | Value tm =>
        match registerIntrinsics env JITDylib_empty ∅ with
        | Raises m => Raises m
        | Returns r =>
            Returns {| Legacy.MainJITDylib := r.1; Legacy.LastKey := 0%N;
                       Legacy.TM := tm; Legacy.DL := createDataLayout env tm;
                       Legacy.LinkedObjects := []; Legacy.intrinsics := r.2 |}
        end
    end.
Proof.
  unfold Legacy.ctor.
  destruct (createTargetMachine env (makeTargetMachineBuilder (host env))); [|done].
  cbn [assertSuccess mbind Outcome_bind].
  by destruct (registerIntrinsics env JITDylib_empty ∅).
Qed.

(** When [createTargetMachine] hands out a machine for the host's builder. *)
Lemma createTargetMachine_returns :
  (exists tm, createTargetMachine env (makeTargetMachineBuilder (host env)) = Value tm)
  <-> lookupTarget env (getProcessTriple (host env)) = None
      /\ Target_createTargetMachine env (makeTargetMachineBuilder (host env)) = true.
Proof.
  unfold createTargetMachine.
  change (TT (makeTargetMachineBuilder (host env))) with (getProcessTriple (host env)).
  destruct (lookupTarget env (getProcessTriple (host env))).
  - split; [intros [tm Htm]; discriminate Htm|]. by intros [? _].
  - destruct (Target_createTargetMachine env _).
    + split; [done|]. eauto.
    + split; [intros [tm Htm]; discriminate Htm|]. by intros [_ ?].
Qed.

End Construction.

Section Readiness.

Context (env : Env).

Lemma define_keeps JD syms : keeps JD (define JD syms).2.
Proof.
  unfold keeps, define. intros k a Hk.
  destruct (first_duplicate (Symbols JD) syms) eqn:Hd; [done|].
  cbn [snd Symbols]. rewrite lookup_defined.
  destruct (defined_by syms k) as [b|] eqn:Hb; [|done].
  apply defined_by_elem in Hb.
  pose proof (first_duplicate_None _ _ Hd _ Hb) as Hfree. simpl in Hfree. congruence.
Qed.

Lemma define_MU_keeps JD syms o : keeps JD (define_MU JD syms o).2.
Proof.
  unfold keeps, define_MU. intros k a Hk.
  destruct (first_duplicate (Symbols JD) syms) eqn:Hd; [done|].
  cbn [snd Symbols]. rewrite lookup_defined.
  destruct (defined_by syms k) as [b|] eqn:Hb; [|done].
  apply defined_by_elem in Hb.
  pose proof (first_duplicate_None _ _ Hd _ Hb) as Hfree. simpl in Hfree. congruence.
Qed.

Lemma ES_lookup_keeps JD name : keeps JD (ES_lookup env JD name).2.
Proof.
  unfold keeps. intros k a Hk.
  destruct (Symbols JD !! name) eqn:E.
  - unfold ES_lookup. rewrite E.
    by destruct (NotReady JD !! name) as [[MU [e|]|MU]|].
  - rewrite (ES_lookup_None env _ _ E).
    destruct (DefGenerator JD && _); [|done]. cbn [snd Symbols].
    rewrite lookup_insert_ne; [done|]. intros <-. congruence.
Qed.

(** A symbol that is ready stays ready, whatever is defined or looked up
    later. *)
Lemma define_ready JD syms k a : ready JD k a -> ready (define JD syms).2 k a.
Proof.
  intros [Hs Hn]. split; [by apply define_keeps|].
  unfold define. destruct (first_duplicate (Symbols JD) syms); [done|].
  cbn [snd NotReady]. rewrite lookup_emitted. by case_decide.
Qed.

Lemma define_MU_ready JD syms o k a : ready JD k a -> ready (define_MU JD syms o).2 k a.
Proof.
  intros [Hs Hn]. split; [by apply define_MU_keeps|].
  unfold define_MU. destruct (first_duplicate (Symbols JD) syms) eqn:Hd; [done|].
  cbn [snd NotReady]. unfold pending. rewrite lookup_fold_insert.
  case_decide as Hin; [|done].
  rewrite (proj1 (first_duplicate_free _ _) Hd k Hin) in Hs. discriminate.
Qed.

Lemma ES_lookup_ready JD name k a :
  units_coherent JD -> ready JD k a -> ready (ES_lookup env JD name).2 k a.
Proof.
  intros Hwf [Hs Hn]. split; [by apply ES_lookup_keeps|].
  destruct (Symbols JD !! name) as [b|] eqn:E.
  - unfold ES_lookup. rewrite E.
    destruct (NotReady JD !! name) as [[MU [e|]|MU]|] eqn:N; cbn [snd NotReady]; try done.
    + rewrite lookup_failed. case_decide as Hin; [|done].
      destruct (Hwf _ _ N) as (_ & _ & Hall). rewrite (Hall k Hin) in Hn. discriminate.
    + rewrite lookup_emitted. by case_decide.
  - rewrite (ES_lookup_None env _ _ E).
    destruct (DefGenerator JD && _); [|done]. cbn [snd NotReady].
    rewrite lookup_delete_ne; [done|]. intros <-. congruence.
Qed.

(** Defining and looking up keep the units coherent. *)
Lemma define_coherent JD syms : units_coherent JD -> units_coherent (define JD syms).2.
Proof.
  intros Hwf. unfold define.
  destruct (first_duplicate (Symbols JD) syms) eqn:Hd; [done|].
  pose proof (proj1 (first_duplicate_free _ _) Hd) as Hfree.
  intros n st. cbn [snd NotReady Symbols]. rewrite lookup_emitted.
  case_decide as Hin; [discriminate|]. intros Hn.
  destruct (Hwf _ _ Hn) as (Hsym & Hself & Hall).
  split; [|split; [done|]].
  - rewrite lookup_defined. by destruct (defined_by syms n).
  - intros m Hm. rewrite lookup_emitted. case_decide as Hin'; [|by apply Hall].
    destruct (Hwf _ _ (Hall m Hm)) as ([b Hb] & _). rewrite (Hfree m Hin') in Hb.
    discriminate.
Qed.

Lemma define_MU_coherent JD syms o :
  units_coherent JD -> units_coherent (define_MU JD syms o).2.
Proof.
  intros Hwf. unfold define_MU.
  destruct (first_duplicate (Symbols JD) syms) eqn:Hd; [done|].
  pose proof (proj1 (first_duplicate_free _ _) Hd) as Hfree.
  intros n st. cbn [snd NotReady Symbols]. unfold pending. rewrite lookup_fold_insert.
  case_decide as Hin.
  - intros [= <-]. cbn [unit_of]. split; [|split; [done|]].
    + rewrite lookup_defined. destruct (defined_by syms n) eqn:Hdef; [eauto|].
      by apply defined_by_None in Hdef.
    + intros m Hm. rewrite lookup_fold_insert. by rewrite decide_True.
  - intros Hn. destruct (Hwf _ _ Hn) as (Hsym & Hself & Hall).
    split; [|split; [done|]].
    + rewrite lookup_defined. by destruct (defined_by syms n).
    + intros m Hm. rewrite lookup_fold_insert. case_decide as Hin'; [|by apply Hall].
      destruct (Hwf _ _ (Hall m Hm)) as ([b Hb] & _). rewrite (Hfree m Hin') in Hb.
      discriminate.
Qed.

Lemma ES_lookup_coherent JD name :
  units_coherent JD -> units_coherent (ES_lookup env JD name).2.
Proof.
  intros Hwf. destruct (Symbols JD !! name) as [b|] eqn:E.
  - unfold ES_lookup. rewrite E.
    destruct (NotReady JD !! name) as [[MU [e|]|MU]|] eqn:N; cbn [snd]; try done.
    + destruct (Hwf _ _ N) as (_ & _ & Hunit). cbn [unit_of] in Hunit.
      intros n st. cbn [NotReady Symbols]. rewrite lookup_failed.
      case_decide as Hin.
      * intros [= <-]. cbn [unit_of]. split; [|split; [done|]].
        -- by destruct (Hwf _ _ (Hunit n Hin)) as (? & _).
        -- intros m Hm. rewrite lookup_failed. by rewrite decide_True.
      * intros Hn. destruct (Hwf _ _ Hn) as (Hsym & Hself & Hall).
        split; [done|]. split; [done|].
        intros m Hm. rewrite lookup_failed. case_decide as Hin'; [|by apply Hall].
        exfalso. apply Hin. pose proof (Hall m Hm) as H1. rewrite (Hunit m Hin') in H1.
        injection H1 as <-. done.
    + destruct (Hwf _ _ N) as (_ & _ & Hunit). cbn [unit_of] in Hunit.
      intros n st. cbn [NotReady Symbols]. rewrite lookup_emitted.
      case_decide as Hin; [discriminate|].
      intros Hn. destruct (Hwf _ _ Hn) as (Hsym & Hself & Hall).
      split; [done|]. split; [done|].
      intros m Hm. rewrite lookup_emitted. case_decide as Hin'; [|by apply Hall].
      exfalso. apply Hin. pose proof (Hall m Hm) as H1. rewrite (Hunit m Hin') in H1.
      injection H1 as <-. done.
  - unfold ES_lookup. rewrite E.
    destruct (DefGenerator JD && _); [|done]. cbn zeta. by apply define_coherent.
Qed.

(** A lookup that returns leaves the symbol ready. *)
Lemma ES_lookup_Value JD name a :
  units_coherent JD -> (ES_lookup env JD name).1 = Value a ->
  ready (ES_lookup env JD name).2 name a.
Proof.
  intros Hwf. destruct (Symbols JD !! name) as [b|] eqn:E.
  - unfold ES_lookup. rewrite E.
    destruct (NotReady JD !! name) as [[MU [e|]|MU]|] eqn:N; cbn [fst snd]; try done.
    + intros [= ->]. split; [done|]. cbn [NotReady]. rewrite lookup_emitted.
      destruct (Hwf _ _ N) as (_ & Hself & _). by rewrite decide_True.
    + by intros [= ->].
  - rewrite (ES_lookup_None env _ _ E).
    destruct (DefGenerator JD && _); cbn [fst snd]; [|discriminate].
    intros [= <-]. split; cbn [Symbols NotReady].
    + apply lookup_insert_eq.
    + apply lookup_delete_eq.
Qed.

Lemma Modern_findSymbol_of_ready this Name a :
  ready (Modern_JD this) (Mangle env Name) a ->
  (Modern.findSymbol env this Name).1 = Returns (JITSymbol_at a).
Proof.
  intros [Hs Hn]. unfold Modern_JD in Hs, Hn.
  unfold Modern.findSymbol, Modern.lookup. cbn [fst snd].
  by rewrite (ES_lookup_found env _ _ _ Hs Hn).
Qed.

Lemma Modern_addModule_ready this M k a :
  ready (Modern_JD this) k a -> ready (Modern_JD (Modern.addModule env this M).2) k a.
Proof.
  unfold Modern_JD, Modern.addModule, Modern.addIRModule.
  destruct (rejection M); cbn [fst snd Modern.LLJ Modern.getMainJITDylib]; [done|].
  apply define_MU_ready.
Qed.

Lemma Modern_addModule_coherent this M :
  units_coherent (Modern_JD this) ->
  units_coherent (Modern_JD (Modern.addModule env this M).2).
Proof.
  unfold Modern_JD, Modern.addModule, Modern.addIRModule.
  destruct (rejection M); cbn [fst snd Modern.LLJ Modern.getMainJITDylib]; [done|].
  apply define_MU_coherent.
Qed.

Lemma Modern_findSymbol_ready this Name k a :
  units_coherent (Modern_JD this) ->
  ready (Modern_JD this) k a -> ready (Modern_JD (Modern.findSymbol env this Name).2) k a.
Proof.
  unfold Modern_JD, Modern.findSymbol, Modern.lookup.
  cbn [fst snd Modern.LLJ Modern.getMainJITDylib]. apply ES_lookup_ready.
Qed.

Lemma Modern_findSymbol_coherent this Name :
  units_coherent (Modern_JD this) ->
  units_coherent (Modern_JD (Modern.findSymbol env this Name).2).
Proof.
  unfold Modern_JD, Modern.findSymbol, Modern.lookup.
  cbn [fst snd Modern.LLJ Modern.getMainJITDylib]. apply ES_lookup_coherent.
Qed.

(** [registerIntrinsics] leaves the symbols it defines ready. *)
Lemma registerIntrinsics_loop_NotReady syms : forall JD I JD' I',
  registerIntrinsics_loop env syms JD I = Returns (JD', I') ->
  NotReady JD = ∅ -> NotReady JD' = ∅.
Proof.
  induction syms as [|s syms IH]; intros JD I JD' I' Hrun Hempty; simpl in Hrun.
  - by injection Hrun as <- <-.
  - destruct (symbol s) as [name|]; [|by injection Hrun as <- <-].
    unfold entry in Hrun. rewrite define_single in Hrun.
    destruct (Symbols JD !! Mangle env name); [discriminate|].
    simpl in Hrun. apply IH in Hrun; [done|]. cbn [NotReady].
    rewrite Hempty. apply delete_empty.
Qed.

Lemma registerIntrinsics_NotReady JD JD' I' :
  registerIntrinsics env JD ∅ = Returns (JD', I') ->
  NotReady JD = ∅ -> NotReady JD' = ∅.
Proof.
  unfold registerIntrinsics. intros Hrun Hempty.
  destruct (registerIntrinsics_loop env (getSymbols env) JD ∅) as [[JD1 I1]|] eqn:Hloop;
    [|discriminate].
  simpl in Hrun. unfold entry in Hrun. rewrite define_single in Hrun.
  apply registerIntrinsics_loop_NotReady in Hloop; [|done].
  destruct (Symbols JD1 !! Mangle env "DispatchParallel"); [discriminate|].
  simpl in Hrun. injection Hrun as <- <-. cbn [NotReady]. rewrite Hloop.
  apply delete_empty.
Qed.

(** On every modern engine a program can hold the units are coherent, and
    the symbols [registerIntrinsics] defined are ready, at their
    addresses. *)
Lemma reachable_Modern_ready v this :
  reachable env v (ModernImpl this) ->
  units_coherent (Modern_JD this)
  /\ forall k a, (k, a) ∈ linked_symbols env -> ready (Modern_JD this) k a.
Proof.
  intros Hreach.
  remember (ModernImpl this) as impl eqn:Himpl. revert this Himpl.
  induction Hreach as [impl Hc|impl M _ IH|impl Name _ IH|this0 K _ IH];
    intros this Himpl.
  - subst impl. destruct v; cbn [Impl_ctor] in Hc;
      [|destruct (Legacy.ctor env); discriminate].
    rewrite Modern_ctor_eq in Hc.
    destruct (createTargetMachine env _); [|discriminate].
    destruct (LLJIT_setup env); [discriminate|].
    destruct (GetForCurrentProcess env); [discriminate|].
    destruct (registerIntrinsics env (setGenerator JITDylib_empty) ∅)
      as [[JD' I']|] eqn:Hreg; [|discriminate].
    injection Hc as <-. cbn [Modern_JD Modern.LLJ Modern.getMainJITDylib fst].
    pose proof (registerIntrinsics_NotReady _ _ _ Hreg eq_refl) as Hempty.
    split.
    + intros n st Hn. by rewrite Hempty, lookup_empty in Hn.
    + intros k a Hin. split.
      * by apply (registerIntrinsics_table env (setGenerator JITDylib_empty) _ _ eq_refl Hreg).
      * by rewrite Hempty, lookup_empty.
  - destruct impl as [this0|this0]; [|discriminate]. cbn in Himpl.
    injection Himpl as <-. destruct (IH this0 eq_refl) as [Hwf Hready]. split.
    + by apply Modern_addModule_coherent.
    + intros k a Hin. by apply Modern_addModule_ready, Hready.
  - destruct impl as [this0|this0]; [|discriminate]. cbn in Himpl.
    injection Himpl as <-. destruct (IH this0 eq_refl) as [Hwf Hready]. split.
    + by apply Modern_findSymbol_coherent.
    + intros k a Hin. by apply Modern_findSymbol_ready, Hready.
  - discriminate.
Qed.

End Readiness.

Section SearchOrder.

Context (env : Env).

(** C3, as the code has it.  In the legacy engine a module that [addModule]
    accepted has its definition returned by [findSymbol] under every name,
    also that of an intrinsic, unless a module added before defines the
    name: [findSymbol] searches the linked modules only, and the symbol it
    returns gives the module's address, or the error of linking the module,
    when the address is asked for.  In the modern engine modules and
    intrinsics share one table: [addModule] raises on a module that defines
    the name of an intrinsic and leaves the engine as it is, and
    [findSymbol] goes on returning the intrinsic's address.  Names a module
    refers to are searched by the legacy resolver in the modules, then in
    the process, then in the main dylib with the intrinsics; the modern
    lookup answers a name of the dylib from the dylib, and asks the process
    for the others. *)
Theorem module_definitions_and_search_order :
  (forall this M Name a,
     (Legacy.addModule env this M).1 = Returns tt ->
     defined_by (module_symbols env M) (Mangle env Name) = Some a ->
     Legacy.findSymbol env this Name = JITSymbol_null ->
     Legacy.findSymbol env (Legacy.addModule env this M).2 Name
     = JITSymbol_lazy (match materialization M with
                       | None => Value a
                       | Some e => Failure e
                       end))
  /\ (forall this M Name a b,
     reachable env modern (ModernImpl this) ->
     (Name, a) ∈ enumerated_entries (getSymbols env) ->
     (Name, b) ∈ definitions M ->
     is_fatal (Modern.addModule env this M).1 = true
     /\ (Modern.addModule env this M).2 = this
     /\ (Modern.findSymbol env (Modern.addModule env this M).2 Name).1
        = Returns (JITSymbol_at a))
  /\ (forall this Name Sym,
     Legacy.CompileLayer_findSymbol (Legacy.LinkedObjects this) Name false = Sym ->
     Sym <> JITSymbol_null ->
     Legacy.Resolver env this Name = Returns Sym)
  /\ (forall this Name,
     Legacy.CompileLayer_findSymbol (Legacy.LinkedObjects this) Name false = JITSymbol_null ->
     getSymbolAddressInProcess env Name <> 0 ->
     Legacy.Resolver env this Name
     = Returns (JITSymbol_at (getSymbolAddressInProcess env Name)))
  /\ (forall this Name a,
     Legacy.CompileLayer_findSymbol (Legacy.LinkedObjects this) Name false = JITSymbol_null ->
     getSymbolAddressInProcess env Name = 0 ->
     ready (Legacy.MainJITDylib this) (Mangle env Name) a ->
     Legacy.Resolver env this Name = Returns (JITSymbol_at a))
  /\ (forall this Name a,
     Symbols (Modern_JD this) !! Mangle env Name = Some a ->
     (Modern.findSymbol env this Name).1 = Returns (JITSymbol_at a)
     \/ exists MU,
          (Modern.findSymbol env this Name).1
          = Raises (formatError (FailedToMaterialize MU) None))
  /\ (forall this Name,
     Symbols (Modern_JD this) !! Mangle env Name = None ->
     DefGenerator (Modern_JD this) = true ->
     getSymbolAddressInProcess env (Mangle env Name) <> 0 ->
     (Modern.findSymbol env this Name).1
     = Returns (JITSymbol_at (getSymbolAddressInProcess env (Mangle env Name)))).
Proof.
  split; [|split; [|split; [|split; [|split; [|split]]]]].
  - intros this M Name a Hadd Hdef Hfree.
    unfold Legacy.findSymbol in *. rewrite (Legacy_addModule_Returns env _ _ Hadd).
    rewrite CompileLayer_findSymbol_app, Hfree, Legacy_getSymbol_defined_by.
    by rewrite defined_by_compiled, Hdef.
  - intros this M Name a b Hreach HName Hin.
    apply (reachable_Modern_ready env) in Hreach as [_ Hready].
    assert (Hr : ready (Modern_JD this) (Mangle env Name) a).
    { apply Hready. unfold linked_symbols. apply elem_of_app. left.
      unfold mangled. apply list_elem_of_fmap. by exists (Name, a). }
    destruct (Modern_addModule_duplicate env this M (Mangle env Name, b)) as [Hfatal Hsame].
    + unfold module_symbols. apply list_elem_of_fmap. by exists (Name, b).
    + destruct Hr as [Hs _]. cbn [fst]. rewrite Hs. eauto.
    + split; [done|]. split; [done|]. rewrite Hsame.
      by apply Modern_findSymbol_of_ready.
  - intros this Name Sym Hfound Hnn. unfold Legacy.Resolver. rewrite Hfound.
    by destruct Sym.
  - intros this Name Hnull Hproc. unfold Legacy.Resolver. rewrite Hnull.
    by destruct (Z.eqb_spec (getSymbolAddressInProcess env Name) 0).
  - intros this Name a Hnull Hproc [Hjd Hrdy]. unfold Legacy.Resolver.
    rewrite Hnull, Hproc. simpl. by rewrite (ES_lookup_found env _ _ _ Hjd Hrdy).
  - intros this Name a Hjd. unfold Modern_JD in Hjd.
    unfold Modern.findSymbol, Modern.lookup, ES_lookup. cbn [fst snd]. rewrite Hjd.
    destruct (NotReady _ !! Mangle env Name) as [[MU [e|]|MU]|]; cbn [fst];
      [right; by exists MU|by left|right; by exists MU|by left].
  - intros this Name Hjd Hgen Hproc. unfold Modern_JD in Hjd, Hgen.
    unfold Modern.findSymbol, Modern.lookup.
    cbn [fst snd]. by rewrite (ES_lookup_process env _ _ Hjd Hgen Hproc).
Qed.

End SearchOrder.

(** C3 at the legacy engine of [env0]: the module's ["sinf"] is found, not
    the intrinsic of that name. *)
Lemma module_definitions_and_search_order_witness :
  Legacy.findSymbol env0 (Legacy.addModule env0 legacy0 module_sinf).2 "sinf"
  = JITSymbol_lazy (Value 9000).
Proof.
  apply (proj1 (module_definitions_and_search_order env0) legacy0 module_sinf "sinf" 9000).
  - vm_compute. reflexivity.
  - vm_compute. reflexivity.
  - vm_compute. reflexivity.
Defined.

(** C3 as the spec words it fails.  For a name that the intrinsic table and
    the process both define and no module does, the legacy resolver answers
    with the address in the process, not the intrinsic's: the intrinsic
    table does not come before the process symbols.  And the modern engine
    does not give a module's definition priority over an intrinsic: it
    raises when such a module is added. *)
Lemma intrinsic_before_process_fails :
  (Symbols (Legacy.MainJITDylib legacy0) !! Mangle env0 "sinf" = Some 4096
   /\ getSymbolAddressInProcess env0 "sinf" = 7100
   /\ Legacy.Resolver env0 legacy0 "sinf" = Returns (JITSymbol_at 7100)
   /\ (Impl_addModule env0 (engine0 modern) module_sinf).1
      = Raises "Failed to add module to compile layer: Duplicate definition of symbol 'sinf'")
  /\ ~ (forall env this Name a,
         Legacy.CompileLayer_findSymbol (Legacy.LinkedObjects this) Name false
         = JITSymbol_null ->
         Symbols (Legacy.MainJITDylib this) !! Mangle env Name = Some a ->
         Legacy.Resolver env this Name = Returns (JITSymbol_at a)).
Proof.
  split; [repeat split; vm_compute; reflexivity|].
  intros Hclaim. specialize (Hclaim env0 legacy0 "sinf" 4096).
  assert (Hr : Legacy.Resolver env0 legacy0 "sinf" = Returns (JITSymbol_at 4096)).
  { apply Hclaim; vm_compute; reflexivity. }
  vm_compute in Hr. discriminate.
Qed.

Section AddModule.

Context (env : Env).


End AddModule.



Section Facade.

Context (env : Env).

Lemma PytorchLLVMJIT_call_forwards this c :
  PytorchLLVMJIT_call env this c
  = ((Impl_call env (impl_ this) c).1, {| impl_ := (Impl_call env (impl_ this) c).2 |}, []).
Proof. destruct this as [impl]. destruct c; reflexivity. Qed.

Lemma PytorchLLVMJIT_calls_forward cs : forall this,
  (PytorchLLVMJIT_calls env this cs).1.1 = (Impl_calls env (impl_ this) cs).1
  /\ impl_ (PytorchLLVMJIT_calls env this cs).1.2 = (Impl_calls env (impl_ this) cs).2
  /\ (PytorchLLVMJIT_calls env this cs).2 = [].
Proof.
  induction cs as [|c cs IH]; intros this; [done|].
  cbn [PytorchLLVMJIT_calls Impl_calls]. rewrite PytorchLLVMJIT_call_forwards.
  cbn [fst snd]. destruct (IH {| impl_ := (Impl_call env (impl_ this) c).2 |}) as (H1 & H2 & H3).
  simpl in H1, H2. rewrite H1, H2, H3. done.
Qed.

(** C7.  Each of the five operations of the facade hands back what the same
    operation of the implementation object in [impl_] hands back, and leaves
    in [impl_] the object that operation leaves; no call constructs or
    destroys an implementation object.  Over the life of a facade, whatever
    calls are made, one implementation object is constructed, by the
    facade's constructor, and one is destroyed, by its destructor; when the
    implementation's constructor raises there is neither. *)
Theorem facade_owns_and_forwards :
  (forall this,
     (forall M, PytorchLLVMJIT_addModule env this M
        = ((Impl_addModule env (impl_ this) M).1,
           {| impl_ := (Impl_addModule env (impl_ this) M).2 |}))
     /\ (forall Name, PytorchLLVMJIT_findSymbol env this Name
        = ((Impl_findSymbol env (impl_ this) Name).1,
           {| impl_ := (Impl_findSymbol env (impl_ this) Name).2 |}))
     /\ (forall Name, PytorchLLVMJIT_hasSymbol this Name = Impl_hasSymbol (impl_ this) Name)
     /\ PytorchLLVMJIT_getTargetMachine this = Impl_getTargetMachine (impl_ this)
     /\ PytorchLLVMJIT_getDataLayout this = Impl_getDataLayout (impl_ this))
  /\ (forall this cs,
     (PytorchLLVMJIT_calls env this cs).1.1 = (Impl_calls env (impl_ this) cs).1
     /\ impl_ (PytorchLLVMJIT_calls env this cs).1.2 = (Impl_calls env (impl_ this) cs).2
     /\ (PytorchLLVMJIT_calls env this cs).2 = [])
  /\ (forall v cs,
     (PytorchLLVMJIT_life env v cs).2
     = match Impl_ctor env v with
       | Returns _ => [Impl_constructed; Impl_destroyed]
       | Raises _ => []
       end)
  /\ (forall v,
     (PytorchLLVMJIT_ctor env v).1 = (fun impl => {| impl_ := impl |}) <$> Impl_ctor env v).
Proof.
  split; [|split; [|split]].
  - intros [impl]. repeat split.
  - intros this cs. apply PytorchLLVMJIT_calls_forward.
  - intros v cs. unfold PytorchLLVMJIT_life, PytorchLLVMJIT_ctor.
    destruct (Impl_ctor env v) as [impl|]; [|reflexivity].
    cbn [fst snd]. by rewrite (proj2 (proj2 (PytorchLLVMJIT_calls_forward cs _))).
  - intros v. unfold PytorchLLVMJIT_ctor. by destruct (Impl_ctor env v).
Qed.

End Facade.

Section RemoveModule.

Context (env : Env).

Lemma filter_not_held (objs : list (Legacy.VModuleKey * Legacy.ObjectFile)) K :
  Legacy.holds_key objs K = false ->
  List.filter (fun KV => negb (N.eqb KV.1 K)) objs = objs.
Proof.
  unfold Legacy.holds_key. induction objs as [|KV objs IH]; simpl; [done|].
  intros H. apply orb_false_elim in H as [E H]. rewrite E. simpl. by rewrite (IH H).
Qed.

Lemma holds_key_filter (objs : list (Legacy.VModuleKey * Legacy.ObjectFile)) K :
  Legacy.holds_key (List.filter (fun KV => negb (N.eqb KV.1 K)) objs) K = false.
Proof.
  unfold Legacy.holds_key. induction objs as [|KV objs IH]; simpl; [done|].
  destruct (N.eqb _ K) eqn:E; simpl; [exact IH|]. rewrite E. exact IH.
Qed.

(** C8, as the code has it.  [removeModule] with a key the engine holds
    returns and erases the object under that key: no object is held under
    the key afterwards, and a name that no other linked object defines is
    then defined by no linked object.  With a key the engine does not hold,
    the toolchain reports no error: the call leaves the engine as it is, and
    it returns unless LLVM was built with its [assert]s, in which case
    LLVM's own assertion stops it. *)
Theorem removeModule_unlinks (this : Legacy.PytorchLLVMJITImpl) (K : Legacy.VModuleKey) :
  (Legacy.holds_key (Legacy.LinkedObjects this) K = true ->
     (Legacy.removeModule env this K).1 = Returns tt
     /\ Legacy.holds_key (Legacy.LinkedObjects (Legacy.removeModule env this K).2) K = false
     /\ forall Name,
          (forall KV, KV ∈ Legacy.LinkedObjects this -> KV.1 <> K ->
             Mangle env Name ∉ map fst KV.2) ->
          forall KV, KV ∈ Legacy.LinkedObjects (Legacy.removeModule env this K).2 ->
            Mangle env Name ∉ map fst KV.2)
  /\ (Legacy.holds_key (Legacy.LinkedObjects this) K = false ->
     Legacy.removeModule env this K
     = (if LLVM_ENABLE_ASSERTIONS env
        then Raises "VModuleKey not associated with object"
        else Returns tt,
        this)).
Proof.
  split; intros Hk; unfold Legacy.removeModule, Legacy.CompileLayer_removeModule;
    rewrite Hk; cbn [negb].
  - rewrite andb_false_r. cbn [fst snd assertSuccess_Error Legacy.LinkedObjects].
    split; [reflexivity|]. split; [apply holds_key_filter|].
    intros Name Hother KV Hin.
    apply list_elem_of_In, filter_In in Hin as [Hin Hne].
    apply Hother; [by apply list_elem_of_In|].
    intros Heq. apply negb_true_iff, N.eqb_neq in Hne. done.
  - rewrite andb_true_r. destruct (LLVM_ENABLE_ASSERTIONS env); [reflexivity|].
    cbn [fst snd assertSuccess_Error]. rewrite (filter_not_held _ _ Hk).
    by destruct this.
Qed.

End RemoveModule.

(** C8 on the legacy engine of [env0]: a module defining ["foo"] is added
    under key 1 and found, then removed, and no linked object defines
    ["foo"] any more. *)
Lemma removeModule_unlinks_witness :
  let this := (Legacy.addModule env0 legacy0 module_foo).2 in
  Legacy.findSymbol env0 this "foo" = JITSymbol_lazy (Value 9100)
  /\ (Legacy.removeModule env0 this 1%N).1 = Returns tt
  /\ forall KV, KV ∈ Legacy.LinkedObjects (Legacy.removeModule env0 this 1%N).2 ->
       "foo" ∉ map fst KV.2.
Proof.
  intros this. split; [vm_compute; reflexivity|].
  destruct (proj1 (removeModule_unlinks env0 this 1%N)) as (Hret & _ & Hgone).
  - vm_compute. reflexivity.
  - split; [exact Hret|]. apply (Hgone "foo").
    intros KV Hin Hne. apply list_elem_of_In in Hin. simpl in Hin.
    destruct Hin as [<-|[]]. by destruct Hne.
Defined.

(** C8 as the spec words it fails: with a key the engine never handed out,
    [removeModule] returns and changes nothing; so it does not raise on
    every key the engine does not hold. *)
Lemma removeModule_invalid_handle_returns :
  (LLVM_ENABLE_ASSERTIONS env0 = false
   /\ Legacy.holds_key (Legacy.LinkedObjects legacy0) 7%N = false
   /\ Legacy.removeModule env0 legacy0 7%N = (Returns tt, legacy0))
  /\ ~ (forall env this K,
         Legacy.holds_key (Legacy.LinkedObjects this) K = false ->
         is_fatal (Legacy.removeModule env this K).1 = true).
Proof.
  split; [repeat split; vm_compute; reflexivity|].
  intros Hclaim. specialize (Hclaim env0 legacy0 7%N).
  assert (Hf : is_fatal (Legacy.removeModule env0 legacy0 7%N).1 = true).
  { apply Hclaim. vm_compute. reflexivity. }
  vm_compute in Hf. discriminate.
Qed.

(** * Further properties of the engine *)

Section Builder.

(** X1.  Every entry of the feature list of the builder is a well-formed
    feature string: it is not empty, it starts with [+] or [-], and it is in
    lower case. *)
Theorem builder_features_wellformed (h : Host) (s : string) :
  s ∈ Features (makeTargetMachineBuilder h) ->
  s <> "" /\ hasFlag s = true /\ lower s = s.
Proof.
  rewrite makeTargetMachineBuilder_Features. unfold host_features.
  intros Hs. apply list_elem_of_omap in Hs as ([f b] & _ & Heq). simpl in Heq.
  case_decide as Hf; [discriminate|]. injection Heq as <-.
  by apply feature_string_stable.
Qed.

Lemma builder_features_wellformed_witness :
  hasFlag "-avx512f" = true /\ lower "-avx512f" = "-avx512f".
Proof.
  destruct (builder_features_wellformed (host env0) "-avx512f") as (_ & H1 & H2).
  - apply list_elem_of_In. vm_compute. tauto.
  - split; [exact H1|exact H2].
Defined.

End Builder.

Section Constructors.

Context (env : Env).

(** X2.  The constructor of either variant returns exactly when each call
    it makes of the toolchain succeeds: the target of the host's triple is
    registered and hands out a target machine, for the modern variant the
    LLJIT sets itself up and the process image can be opened, and the
    linker-level names of the enumerated intrinsics and of the
    parallel-dispatch entry are pairwise different, so that no call of
    [JD.define] meets a duplicate; in every other case it raises. *)
Theorem ctor_returns_iff (v : Variant) :
  (exists impl, Impl_ctor env v = Returns impl)
  <-> lookupTarget env (getProcessTriple (host env)) = None
      /\ Target_createTargetMachine env (makeTargetMachineBuilder (host env)) = true
      /\ (v = modern -> LLJIT_setup env = None /\ GetForCurrentProcess env = None)
      /\ NoDup (map fst (linked_symbols env)).
Proof.
  pose proof (createTargetMachine_returns env) as Htm.
  destruct v; cbn [Impl_ctor].
  - rewrite Modern_ctor_eq.
    destruct (createTargetMachine env (makeTargetMachineBuilder (host env))) as [tm|e].
    2:{ split; [intros [r Hr]; discriminate Hr|]. intros (H1 & H2 & _).
        destruct (proj2 Htm (conj H1 H2)) as [tm Heq]. discriminate Heq. }
    destruct (proj1 Htm (ex_intro _ tm eq_refl)) as [H1 H2].
    destruct (LLJIT_setup env) as [e|] eqn:Hs.
    { split; [intros [r Hr]; discriminate Hr|]. intros (_ & _ & Hm & _).
      by destruct (Hm eq_refl). }
    destruct (GetForCurrentProcess env) as [e|] eqn:Hg.
    { split; [intros [r Hr]; discriminate Hr|]. intros (_ & _ & Hm & _).
      by destruct (Hm eq_refl). }
    rewrite <- (registerIntrinsics_returns env (setGenerator JITDylib_empty)) by done.
    destruct (registerIntrinsics env (setGenerator JITDylib_empty) ∅) as [r|m].
    + split; [|intros _; cbn; eauto]. intros _. split; [done|]. split; [done|].
      split; [done|]. eauto.
    + split; [intros [r Hr]; discriminate Hr|]. by intros (_ & _ & _ & [r Hr]).
  - rewrite Legacy_ctor_eq.
    destruct (createTargetMachine env (makeTargetMachineBuilder (host env))) as [tm|e].
    2:{ split; [intros [r Hr]; discriminate Hr|]. intros (H1 & H2 & _).
        destruct (proj2 Htm (conj H1 H2)) as [tm Heq]. discriminate Heq. }
    destruct (proj1 Htm (ex_intro _ tm eq_refl)) as [H1 H2].
    rewrite <- (registerIntrinsics_returns env JITDylib_empty) by done.
    destruct (registerIntrinsics env JITDylib_empty ∅) as [r|m].
    + split; [|intros _; cbn; eauto]. intros _. split; [done|]. split; [done|].
      split; [done|]. eauto.
    + split; [intros [r Hr]; discriminate Hr|]. by intros (_ & _ & _ & [r Hr]).
Qed.

End Constructors.

(** X2 at [env0]: the three names ["sinf"], ["cosf"] and
    ["DispatchParallel"] differ, and both constructors return. *)
Lemma ctor_returns_iff_witness :
  (exists impl, Impl_ctor env0 modern = Returns impl)
  /\ (exists impl, Impl_ctor env0 legacy = Returns impl).
Proof.
  assert (Hnd : NoDup (map fst (linked_symbols env0))).
  { apply (bool_decide_unpack _). vm_compute. exact I. }
  split.
  - apply (proj2 (ctor_returns_iff env0 modern)).
    split; [reflexivity|]. split; [reflexivity|].
    split; [intros _; split; reflexivity|exact Hnd].
  - apply (proj2 (ctor_returns_iff env0 legacy)).
    split; [reflexivity|]. split; [reflexivity|]. split; [intros [=]|exact Hnd].
Defined.

Section Stability.

Context (env : Env).

Lemma Modern_findSymbol_defined this Name a :
  (Modern.findSymbol env this Name).1 = Returns (JITSymbol_at a) ->
  Symbols (Modern_JD (Modern.findSymbol env this Name).2) !! Mangle env Name = Some a.
Proof.
  unfold Modern_JD, Modern.findSymbol, Modern.lookup.
  cbn [fst snd Modern.LLJ Modern.getMainJITDylib].
  destruct (Symbols (Modern.getMainJITDylib (Modern.LLJ this)) !! Mangle env Name)
    as [b|] eqn:E.
  - unfold ES_lookup. rewrite E.
    destruct (NotReady _ !! Mangle env Name) as [[MU [e|]|MU]|]; cbn [fst snd Symbols];
      try discriminate; by intros [= ->].
  - rewrite (ES_lookup_None env _ _ E).
    destruct (DefGenerator _ && _); cbn [fst snd Symbols]; [|discriminate].
    intros [= <-]. apply lookup_insert_eq.
Qed.

(** What a lookup of the modern engine that returns leaves behind. *)
Lemma Modern_findSymbol_Returns this Name Sym :
  units_coherent (Modern_JD this) ->
  (Modern.findSymbol env this Name).1 = Returns Sym ->
  exists a, Sym = JITSymbol_at a
    /\ ready (Modern_JD (Modern.findSymbol env this Name).2) (Mangle env Name) a.
Proof.
  intros Hwf. unfold Modern_JD in *. unfold Modern.findSymbol, Modern.lookup.
  cbn [fst snd Modern.LLJ Modern.getMainJITDylib].
  pose proof (ES_lookup_Value env (Modern.getMainJITDylib (Modern.LLJ this))
                (Mangle env Name)) as Hval.
  destruct (ES_lookup env (Modern.getMainJITDylib (Modern.LLJ this)) (Mangle env Name)).1
    as [a|e]; cbn [assertSuccess fmap Outcome_fmap]; [|discriminate].
  intros [= <-]. exists a. split; [done|]. by apply Hval.
Qed.

Lemma Legacy_addModule_found this M Name Sym :
  Legacy.findSymbol env this Name = Sym -> Sym <> JITSymbol_null ->
  Legacy.findSymbol env (Legacy.addModule env this M).2 Name = Sym.
Proof.
  unfold Legacy.findSymbol. rewrite Legacy_addModule_eq. cbn [snd Legacy.LinkedObjects].
  destruct (rejection M); [done|].
  intros Hf Hnn. rewrite CompileLayer_findSymbol_app, Hf. by destruct Sym.
Qed.

Lemma reachable_Impl_call v impl c :
  reachable env v impl -> reachable env v (Impl_call env impl c).2.
Proof.
  intros Hreach. destruct c as [M|Name'| | |]; cbn [Impl_call snd]; try done.
  - by apply reach_addModule.
  - by apply reach_findSymbol.
Qed.

Lemma reachable_coherent v impl :
  reachable env v impl ->
  match impl with
  | ModernImpl this => units_coherent (Modern_JD this)
  | LegacyImpl _ => True
  end.
Proof.
  intros Hreach. destruct impl as [this|this]; [|done].
  by apply reachable_Modern_ready in Hreach as [? _].
Qed.

Lemma Impl_call_stands v impl c Name Sym :
  reachable env v impl ->
  stands env impl Name Sym -> stands env (Impl_call env impl c).2 Name Sym.
Proof.
  intros Hreach. apply reachable_coherent in Hreach.
  destruct impl as [this|this]; destruct c as [M|Name'| | |]; cbn; try done.
  - intros (a & -> & Hr). exists a. split; [done|]. by apply Modern_addModule_ready.
  - intros (a & -> & Hr). exists a. split; [done|]. by apply Modern_findSymbol_ready.
  - intros [Hf Hnn]. split; [|done]. by apply Legacy_addModule_found.
Qed.

Lemma Impl_calls_stands cs : forall v impl Name Sym,
  reachable env v impl ->
  stands env impl Name Sym -> stands env (Impl_calls env impl cs).2 Name Sym.
Proof.
  induction cs as [|c cs IH]; intros v impl Name Sym Hreach Hs; [done|].
  cbn [Impl_calls snd]. apply (IH v).
  - by apply reachable_Impl_call.
  - by apply (Impl_call_stands v).
Qed.

Lemma stands_findSymbol impl Name Sym :
  stands env impl Name Sym -> (Impl_findSymbol env impl Name).1 = Returns Sym.
Proof.
  destruct impl as [this|this]; cbn.
  - intros (a & -> & Hr). by apply Modern_findSymbol_of_ready.
  - by intros [-> _].
Qed.

Lemma findSymbol_stands v impl Name Sym :
  reachable env v impl ->
  (Impl_findSymbol env impl Name).1 = Returns Sym -> Sym <> JITSymbol_null ->
  stands env (Impl_findSymbol env impl Name).2 Name Sym.
Proof.
  intros Hreach Hf Hnn. apply reachable_coherent in Hreach.
  destruct impl as [this|this]; cbn in *.
  - by apply Modern_findSymbol_Returns.
  - by injection Hf.
Qed.

(** X3.  A symbol that [findSymbol] has handed out for a name stays the
    answer for that name: on a facade whose engine a program can hold, of
    either variant, after any further calls of the five operations of the
    facade, [findSymbol] returns the same symbol, which is not null. *)
Theorem resolved_stays_resolved (v : Variant) (this : PytorchLLVMJIT) (Name : string)
  (Sym : JITSymbol) (cs : list Call) :
  reachable env v (impl_ this) ->
  (PytorchLLVMJIT_findSymbol env this Name).1 = Returns Sym ->
  Sym <> JITSymbol_null ->
  (PytorchLLVMJIT_findSymbol env
     (PytorchLLVMJIT_calls env (PytorchLLVMJIT_findSymbol env this Name).2 cs).1.2 Name).1
  = Returns Sym.
Proof.
  intros Hreach Hfound Hnn. destruct this as [impl]. cbn [impl_] in Hreach.
  unfold PytorchLLVMJIT_findSymbol in *. cbn [fst snd impl_] in *.
  rewrite (proj1 (proj2 (PytorchLLVMJIT_calls_forward env cs _))). cbn [impl_].
  apply stands_findSymbol, (Impl_calls_stands cs v).
  - by apply reach_findSymbol.
  - by apply (findSymbol_stands v).
Qed.

(** X4.  On every modern engine a program can hold, [findSymbol] resolves
    each entry the intrinsic table enumerates to the address the table gives
    it, and ["DispatchParallel"] to the address of that function; no module
    and no process symbol stands in their way. *)
Theorem intrinsics_always_resolve (this : Modern.PytorchLLVMJITImpl) :
  reachable env modern (ModernImpl this) ->
  (forall name a, (name, a) ∈ enumerated_entries (getSymbols env) ->
     (Modern.findSymbol env this name).1 = Returns (JITSymbol_at a))
  /\ (Modern.findSymbol env this "DispatchParallel").1
     = Returns (JITSymbol_at (DispatchParallel env)).
Proof.
  intros Hreach. apply reachable_Modern_ready in Hreach as [_ Hlinked].
  split.
  - intros name a Hin. apply Modern_findSymbol_of_ready, Hlinked.
    unfold linked_symbols. apply elem_of_app. left.
    unfold mangled. apply list_elem_of_fmap. by exists (name, a).
  - apply Modern_findSymbol_of_ready, Hlinked.
    unfold linked_symbols. apply elem_of_app. right.
    by apply list_elem_of_singleton.
Qed.

(** X5.  Looking a name up changes what the modern engine accepts: once
    [findSymbol] has resolved a name from the process, the name is defined
    in the dylib, and a module that defines it is turned down by [addModule]
    with a raised assertion, the engine staying as it is. *)
Theorem process_symbol_blocks_module (this : Modern.PytorchLLVMJITImpl)
  (Name : string) (M : Module) (s : string * JITTargetAddress) :
  Symbols (Modern_JD this) !! Mangle env Name = None ->
  DefGenerator (Modern_JD this) = true ->
  getSymbolAddressInProcess env (Mangle env Name) <> 0 ->
  s ∈ module_symbols env M -> s.1 = Mangle env Name ->
  let this' := (Modern.findSymbol env this Name).2 in
  (Modern.findSymbol env this Name).1
  = Returns (JITSymbol_at (getSymbolAddressInProcess env (Mangle env Name)))
  /\ is_fatal (Modern.addModule env this' M).1 = true
  /\ (Modern.addModule env this' M).2 = this'.
Proof.
  intros Hfree Hgen Hproc Hs Hname this'. unfold Modern_JD in Hfree, Hgen.
  assert (Hfound : (Modern.findSymbol env this Name).1
    = Returns (JITSymbol_at (getSymbolAddressInProcess env (Mangle env Name)))).
  { unfold Modern.findSymbol, Modern.lookup. cbn [fst snd].
    by rewrite (ES_lookup_process env _ _ Hfree Hgen Hproc). }
  split; [done|].
  apply (Modern_addModule_duplicate env this' M s Hs).
  rewrite Hname. apply Modern_findSymbol_defined in Hfound.
  subst this'. rewrite Hfound. eauto.
Qed.

End Stability.

(** X3 at the modern engine of [env0]: ["malloc"] comes from the process,
    and it is still at that address after a module was added and another
    name was looked up. *)
Lemma resolved_stays_resolved_witness :
  (PytorchLLVMJIT_findSymbol env0
     (PytorchLLVMJIT_calls env0
        (PytorchLLVMJIT_findSymbol env0 {| impl_ := engine0 modern |} "malloc").2
        [call_addModule module_foo; call_findSymbol "sinf"]).1.2 "malloc").1
  = Returns (JITSymbol_at 7000).
Proof.
  apply (resolved_stays_resolved env0 modern {| impl_ := engine0 modern |} "malloc").
  - apply reach_ctor. vm_compute. reflexivity.
  - vm_compute. reflexivity.
  - discriminate.
Defined.

(** X4 at the modern engine of [env0]. *)
Lemma intrinsics_always_resolve_witness :
  (Modern.findSymbol env0 modern0 "cosf").1 = Returns (JITSymbol_at 4160)
  /\ (Modern.findSymbol env0 modern0 "DispatchParallel").1 = Returns (JITSymbol_at 5000).
Proof.
  destruct (intrinsics_always_resolve env0 modern0) as [Htable Hdp].
  - apply reach_ctor. vm_compute. reflexivity.
  - split; [|exact Hdp]. apply Htable.
    apply list_elem_of_In. vm_compute. tauto.
Defined.

(** X5 at the modern engine of [env0]: after ["malloc"] was looked up, the
    module that defines it is turned down. *)
Lemma process_symbol_blocks_module_witness :
  is_fatal (Modern.addModule env0 (Modern.findSymbol env0 modern0 "malloc").2
              module_malloc).1 = true
  /\ (Modern.addModule env0 modern0 module_malloc).1 = Returns tt.
Proof.
  split; [|vm_compute; reflexivity].
  apply (process_symbol_blocks_module env0 modern0 "malloc" module_malloc ("malloc", 9300)).
  - vm_compute. reflexivity.
  - vm_compute. reflexivity.
  - vm_compute. discriminate.
  - apply list_elem_of_In. vm_compute. tauto.
  - reflexivity.
Defined.

Section LegacyStore.

Context (env : Env).

Lemma StronglySorted_snoc (l : list N) K :
  StronglySorted N.lt l -> Forall (fun K' => (K' < K)%N) l ->
  StronglySorted N.lt (l ++ [K]).
Proof.
  induction 1 as [|x l Hs IH Hx]; intros Hall; simpl.
  - repeat constructor.
  - apply Forall_cons in Hall as [HxK Hall]. constructor; [by apply IH|].
    apply Forall_app. split; [done|]. by constructor.
Qed.

Lemma StronglySorted_filter_keys (objs : list (Legacy.VModuleKey * Legacy.ObjectFile)) p :
  StronglySorted N.lt (map fst objs) ->
  StronglySorted N.lt (map fst (List.filter p objs)).
Proof.
  induction objs as [|KV objs IH]; simpl; [done|].
  intros Hs. apply StronglySorted_inv in Hs as [Hs Hx].
  destruct (p KV); simpl; [|by apply IH]. constructor; [by apply IH|].
  apply Forall_forall. intros K HK.
  apply list_elem_of_fmap in HK as (KV' & -> & Hin).
  apply list_elem_of_In, filter_In in Hin as [Hin _].
  rewrite Forall_forall in Hx. apply Hx.
  apply list_elem_of_fmap. exists KV'. split; [done|]. by apply list_elem_of_In.
Qed.

Lemma Forall_filter_keys (objs : list (Legacy.VModuleKey * Legacy.ObjectFile)) p (P : N -> Prop) :
  Forall P (map fst objs) -> Forall P (map fst (List.filter p objs)).
Proof.
  rewrite !Forall_forall. intros Hall K HK.
  apply list_elem_of_fmap in HK as (KV' & -> & Hin).
  apply list_elem_of_In, filter_In in Hin as [Hin _].
  apply Hall. apply list_elem_of_fmap. exists KV'. split; [done|].
  by apply list_elem_of_In.
Qed.

Lemma keys_in_order_addModule this M :
  keys_in_order this -> keys_in_order (Legacy.addModule env this M).2.
Proof.
  intros [Hs Hall]. unfold keys_in_order, linked_keys in *.
  rewrite Legacy_addModule_eq.
  destruct (rejection M); cbn [fst snd Legacy.LinkedObjects Legacy.LastKey].
  - split; [done|]. eapply Forall_impl; [exact Hall|]. simpl. intros K HK. lia.
  - rewrite map_app. cbn [map fst]. split.
    + apply StronglySorted_snoc; [done|].
      eapply Forall_impl; [exact Hall|]. simpl. intros K HK. lia.
    + apply Forall_app. split.
      * eapply Forall_impl; [exact Hall|]. simpl. intros K HK. lia.
      * constructor; [lia|constructor].
Qed.

(** [removeModule] leaves the key counter alone. *)
Lemma Legacy_removeModule_LastKey this K :
  Legacy.LastKey (Legacy.removeModule env this K).2 = Legacy.LastKey this.
Proof.
  unfold Legacy.removeModule.
  by destruct (Legacy.CompileLayer_removeModule env (Legacy.LinkedObjects this) K).
Qed.

Lemma keys_in_order_removeModule this K :
  keys_in_order this -> keys_in_order (Legacy.removeModule env this K).2.
Proof.
  intros [Hs Hall]. unfold keys_in_order, linked_keys in *.
  unfold Legacy.removeModule.
  destruct (Legacy.CompileLayer_removeModule env (Legacy.LinkedObjects this) K)
    as [r|m] eqn:Hr; [|done].
  unfold Legacy.CompileLayer_removeModule in Hr.
  destruct (LLVM_ENABLE_ASSERTIONS env && _); [discriminate|].
  injection Hr as <-. cbn [fst snd Legacy.LinkedObjects Legacy.LastKey].
  split; [by apply StronglySorted_filter_keys|by apply Forall_filter_keys].
Qed.

Lemma legacy_keys_invariant_aux (this : Legacy.PytorchLLVMJITImpl) :
  reachable env legacy (LegacyImpl this) -> keys_in_order this.
Proof.
  intros Hreach.
  remember (LegacyImpl this) as impl eqn:Himpl. revert this Himpl.
  induction Hreach as [impl Hc|impl M _ IH|impl Name _ IH|this0 K _ IH];
    intros this Himpl.
  - subst impl. cbn [Impl_ctor] in Hc. rewrite Legacy_ctor_eq in Hc.
    destruct (createTargetMachine env _); [|discriminate].
    destruct (registerIntrinsics env JITDylib_empty ∅); [|discriminate].
    injection Hc as <-. split; constructor.
  - destruct impl as [this0|this0]; [discriminate|]. cbn in Himpl.
    injection Himpl as <-. by apply keys_in_order_addModule, IH.
  - destruct impl as [this0|this0]; [discriminate|]. cbn in Himpl.
    injection Himpl as <-. by apply IH.
  - injection Himpl as <-. by apply keys_in_order_removeModule, IH.
Qed.

(** The keys a sequence of calls is given, from any engine on. *)
Lemma Legacy_calls_keys cs : forall this,
  (Legacy_calls env this cs).2
  = map (fun i => (Legacy.LastKey this + N.of_nat i)%N) (seq 1 (additions cs))
  /\ Legacy.LastKey (Legacy_calls env this cs).1
     = (Legacy.LastKey this + N.of_nat (additions cs))%N.
Proof.
  induction cs as [|[M|K] cs IH]; intros this.
  - cbn. split; [done|]. lia.
  - cbn [Legacy_calls fst snd].
    change (additions (legacy_addModule M :: cs)) with (S (additions cs)).
    destruct (IH (Legacy.addModule env this M).2) as [Hkeys Hlast].
    assert (Hk : Legacy.LastKey (Legacy.addModule env this M).2
                 = (Legacy.LastKey this + 1)%N) by (by rewrite Legacy_addModule_eq).
    rewrite Hkeys, Hlast, Hk. split; [|lia].
    cbn [seq map]. rewrite <- (seq_shift (additions cs) 1), map_map.
    apply (f_equal2 cons); [lia|]. apply map_ext. intros i. lia.
  - cbn [Legacy_calls fst snd].
    change (additions (legacy_removeModule K :: cs)) with (additions cs).
    destruct (IH (Legacy.removeModule env this K).2) as [Hkeys Hlast].
    by rewrite Hkeys, Hlast, Legacy_removeModule_LastKey.
Qed.

Lemma reachable_Legacy_calls cs : forall this,
  reachable env legacy (LegacyImpl this) ->
  reachable env legacy (LegacyImpl (Legacy_calls env this cs).1).
Proof.
  induction cs as [|[M|K] cs IH]; intros this Hreach; [done|..];
    cbn [Legacy_calls fst]; apply IH.
  - by apply (reach_addModule env legacy (LegacyImpl this) M).
  - by apply reach_removeModule.
Qed.

(** X6.  A key is never given out twice.  Over a sequence of calls of
    [addModule] and [removeModule] on a constructed legacy engine, with
    fewer than 2^64 calls of [addModule] so that the counter of the session
    has not wrapped, the keys that [ES.allocateVModule()] gives to the calls
    of [addModule] are 1, 2, 3, ... in the order of the calls, whether a
    module was turned down or a module was removed in between; so they are
    pairwise different.  The keys of the objects the engine then holds are
    among them, in increasing order. *)
Theorem legacy_keys_never_reused (this0 : Legacy.PytorchLLVMJITImpl)
  (cs : list LegacyCall) :
  Legacy.ctor env = Returns this0 ->
  (N.of_nat (additions cs) < 2 ^ 64)%N ->
  let r := Legacy_calls env this0 cs in
  r.2 = map N.of_nat (seq 1 (additions cs))
  /\ NoDup r.2
  /\ Forall (fun K => (0 < K < 2 ^ 64)%N) r.2
  /\ StronglySorted N.lt (linked_keys r.1)
  /\ (forall K, K ∈ linked_keys r.1 -> K ∈ r.2).
Proof.
  intros Hctor Hbound r.
  assert (Hreach : reachable env legacy (LegacyImpl this0)).
  { apply reach_ctor. cbn [Impl_ctor]. by rewrite Hctor. }
  assert (H0 : Legacy.LastKey this0 = 0%N).
  { rewrite Legacy_ctor_eq in Hctor.
    destruct (createTargetMachine env _); [|discriminate].
    destruct (registerIntrinsics env JITDylib_empty ∅); [|discriminate].
    by injection Hctor as <-. }
  destruct (Legacy_calls_keys cs this0) as [Hkeys Hlast]. fold r in Hkeys, Hlast.
  rewrite H0 in Hkeys, Hlast.
  assert (Heq : r.2 = map N.of_nat (seq 1 (additions cs))).
  { rewrite Hkeys. apply map_ext. intros i. lia. }
  destruct (legacy_keys_invariant_aux _ (reachable_Legacy_calls cs _ Hreach))
    as [Hsorted Hrange]. fold r in Hsorted, Hrange.
  split; [done|]. rewrite Heq. split; [|split; [|split; [done|]]].
  - apply (NoDup_fmap_2 N.of_nat), NoDup_ListNoDup, seq_NoDup.
  - apply Forall_forall. intros K HK.
    apply list_elem_of_fmap in HK as (i & -> & Hi).
    apply list_elem_of_In, in_seq in Hi. lia.
  - intros K HK. rewrite Forall_forall in Hrange. specialize (Hrange K HK).
    cbn beta in Hrange. rewrite Hlast in Hrange.
    apply list_elem_of_fmap. exists (N.to_nat K). split; [lia|].
    apply list_elem_of_In, in_seq. lia.
Qed.




End LegacyStore.

(** X6 at the legacy engine of [env0]: three modules are added, the second
    is turned down and the first is removed in between; the keys given out
    are 1, 2 and 3, and the engine holds the object under key 3. *)
Lemma legacy_keys_never_reused_witness :
  let r := Legacy_calls env0 legacy0
             [legacy_addModule module_foo; legacy_addModule module_bad;
              legacy_removeModule 1%N; legacy_addModule module_sinf] in
  r.2 = [1%N; 2%N; 3%N] /\ NoDup r.2 /\ linked_keys r.1 = [3%N].
Proof.
  intros r.
  destruct (legacy_keys_never_reused env0 legacy0
              [legacy_addModule module_foo; legacy_addModule module_bad;
               legacy_removeModule 1%N; legacy_addModule module_sinf])
    as (Hkeys & Hnd & _).
  - vm_compute. reflexivity.
  - vm_compute. reflexivity.
  - split; [exact Hkeys|]. split; [exact Hnd|]. vm_compute. reflexivity.
Defined.


Section LegacyLookup.

Context (env : Env).

Lemma getSymbol_cases obj Name :
  (Legacy.getSymbol obj Name = JITSymbol_null /\ Name ∉ map fst obj)
  \/ (exists r, Legacy.getSymbol obj Name = JITSymbol_lazy r /\ (Name, r) ∈ obj).
Proof.
  rewrite Legacy_getSymbol_defined_by.
  destruct (defined_by obj Name) as [a|] eqn:Hd.
  - right. exists a. split; [done|]. by apply defined_by_elem.
  - left. split; [done|]. by apply defined_by_None.
Qed.

(** What [CompileLayer.findSymbol] answers: the null symbol when no linked
    object has the name, else the symbol of one of them. *)
Lemma CompileLayer_findSymbol_cases objs k b :
  (Legacy.CompileLayer_findSymbol objs k b = JITSymbol_null
   /\ forall KV, KV ∈ objs -> k ∉ map fst KV.2)
  \/ (exists KV r, KV ∈ objs /\ (k, r) ∈ KV.2
        /\ Legacy.CompileLayer_findSymbol objs k b = JITSymbol_lazy r).
Proof.
  induction objs as [|KV objs IH]; cbn [Legacy.CompileLayer_findSymbol].
  - left. split; [done|]. intros KV HKV. by apply elem_of_nil in HKV.
  - destruct (getSymbol_cases KV.2 k) as [[-> Hnin]|(r & -> & Hin)].
    + destruct IH as [[Hnull Hall]|(KV' & r & HKV' & Hdef & Hf)].
      * left. split; [done|]. intros KV' HKV'.
        apply elem_of_cons in HKV' as [->|HKV']; [done|by apply Hall].
      * right. exists KV', r. split; [apply elem_of_cons; by right|done].
    + right. exists KV, r. split; [apply elem_of_cons; by left|done].
Qed.

(** X8.  The legacy [findSymbol] answers from the linked modules and from
    nothing else: it returns the null symbol exactly when no linked module
    has the linker-level name, and else the symbol of a linked module that
    has it, whose address is got by linking that module.  So
    [getSymbolAddress] returns 0 for a name no module has, returns the
    module's address when the module links, and raises, with the error of
    linking, exactly when it does not. *)
Theorem Legacy_findSymbol_from_modules (this : Legacy.PytorchLLVMJITImpl) (Name : string) :
  (Legacy.findSymbol env this Name = JITSymbol_null
   <-> forall KV, KV ∈ Legacy.LinkedObjects this -> Mangle env Name ∉ map fst KV.2)
  /\ (Legacy.findSymbol env this Name <> JITSymbol_null ->
      exists KV r, KV ∈ Legacy.LinkedObjects this /\ (Mangle env Name, r) ∈ KV.2
        /\ Legacy.findSymbol env this Name = JITSymbol_lazy r)
  /\ (Legacy.findSymbol env this Name = JITSymbol_null ->
      Legacy.getSymbolAddress env this Name = Returns 0)
  /\ (forall a, Legacy.findSymbol env this Name = JITSymbol_lazy (Value a) ->
        Legacy.getSymbolAddress env this Name = Returns a)
  /\ (forall e, Legacy.findSymbol env this Name = JITSymbol_lazy (Failure e) ->
        Legacy.getSymbolAddress env this Name = Raises (defaultErrorMsg +:+ ": " +:+ e))
  /\ ((exists m, Legacy.getSymbolAddress env this Name = Raises m)
      <-> exists e, Legacy.findSymbol env this Name = JITSymbol_lazy (Failure e)).
Proof.
  unfold Legacy.getSymbolAddress, Legacy.findSymbol.
  destruct (CompileLayer_findSymbol_cases (Legacy.LinkedObjects this) (Mangle env Name) true)
    as [[Hnull Hall]|(KV & r & HKV & Hdef & Hf)].
  - rewrite Hnull. split; [done|]. split; [done|]. split; [done|].
    split; [done|]. split; [done|].
    split; [intros [m Hm]; discriminate Hm|intros [e He]; discriminate He].
  - rewrite Hf. split; [|split; [|split; [done|split; [|split]]]].
    + split; [done|]. intros Hall. exfalso. apply (Hall KV HKV).
      apply list_elem_of_fmap. by exists (Mangle env Name, r).
    + intros _. by exists KV, r.
    + by intros a [= ->].
    + by intros e [= ->].
    + destruct r as [a|e]; cbn.
      * split; [intros [m Hm]; discriminate Hm|intros [e He]; discriminate He].
      * split; [by eauto|]. intros _. by eauto.
Qed.

Lemma CompileLayer_findSymbol_filter objs p k b :
  (forall KV, KV ∈ objs -> p KV = false -> Legacy.getSymbol KV.2 k = JITSymbol_null) ->
  Legacy.CompileLayer_findSymbol (List.filter p objs) k b
  = Legacy.CompileLayer_findSymbol objs k b.
Proof.
  induction objs as [|KV objs IH]; intros Hnull; [done|]. cbn [List.filter].
  assert (IH' : Legacy.CompileLayer_findSymbol (List.filter p objs) k b
                = Legacy.CompileLayer_findSymbol objs k b).
  { apply IH. intros KV' HKV'. apply Hnull. apply elem_of_cons. by right. }
  destruct (p KV) eqn:Hp; cbn [Legacy.CompileLayer_findSymbol].
  - by rewrite IH'.
  - rewrite (Hnull KV); [done| |done]. apply elem_of_cons. by left.
Qed.

(** X9.  [removeModule] leaves every other module's symbols alone: for a
    name that the object under the removed key does not define, [findSymbol]
    answers after the call what it answered before, whether the call
    returned or raised. *)
Theorem removeModule_keeps_others (this : Legacy.PytorchLLVMJITImpl)
  (K : Legacy.VModuleKey) (Name : string) :
  (forall KV, KV ∈ Legacy.LinkedObjects this -> KV.1 = K ->
     Mangle env Name ∉ map fst KV.2) ->
  Legacy.findSymbol env (Legacy.removeModule env this K).2 Name
  = Legacy.findSymbol env this Name.
Proof.
  intros Hother. unfold Legacy.removeModule, Legacy.CompileLayer_removeModule.
  destruct (LLVM_ENABLE_ASSERTIONS env && _); [done|].
  unfold Legacy.findSymbol. cbn [fst snd Legacy.LinkedObjects].
  apply CompileLayer_findSymbol_filter. intros KV HKV Hp.
  apply negb_false_iff, N.eqb_eq in Hp.
  destruct (getSymbol_cases KV.2 (Mangle env Name)) as [[-> _]|(a & _ & Hin)]; [done|].
  exfalso. apply (Hother KV HKV Hp). apply list_elem_of_fmap.
  by exists (Mangle env Name, a).
Qed.

(** The main dylib of a legacy engine has no generator, and its symbols are
    ready. *)
Lemma legacy_MainJITDylib_plain (this : Legacy.PytorchLLVMJITImpl) :
  reachable env legacy (LegacyImpl this) ->
  DefGenerator (Legacy.MainJITDylib this) = false
  /\ NotReady (Legacy.MainJITDylib this) = ∅.
Proof.
  intros Hreach.
  remember (LegacyImpl this) as impl eqn:Himpl. revert this Himpl.
  induction Hreach as [impl Hc|impl M _ IH|impl Name _ IH|this0 K _ IH];
    intros this Himpl.
  - subst impl. cbn [Impl_ctor] in Hc. rewrite Legacy_ctor_eq in Hc.
    destruct (createTargetMachine env _); [|discriminate].
    destruct (registerIntrinsics env JITDylib_empty ∅) as [[JD' I']|] eqn:Hreg;
      [|discriminate].
    injection Hc as <-. cbn. split.
    + by apply registerIntrinsics_spec in Hreg as (_ & _ & _ & _ & ->).
    + by apply (registerIntrinsics_NotReady env _ _ _ Hreg).
  - destruct impl as [this0|this0]; [discriminate|]. cbn in Himpl.
    injection Himpl as <-. by apply (IH this0).
  - destruct impl as [this0|this0]; [discriminate|]. cbn in Himpl.
    injection Himpl as <-. by apply IH.
  - injection Himpl as <-. specialize (IH this0 eq_refl).
    unfold Legacy.removeModule. by destruct (Legacy.CompileLayer_removeModule env _ K).
Qed.

(** X10.  On a legacy engine a program can hold, the resolver handed to the
    linker never answers with the null symbol or with an error symbol: it
    raises, with the message of a symbol that was not found, exactly when
    neither a linked module nor the process nor the main dylib has the
    name, and in every other case it returns a symbol with an address: that
    of the linked module, which gives its address when the module is
    linked, or one at the address in the process or in the main dylib. *)
Theorem Resolver_raises_iff_unresolved (this : Legacy.PytorchLLVMJITImpl) (Name : string) :
  reachable env legacy (LegacyImpl this) ->
  (unresolved env this Name ->
     Legacy.Resolver env this Name
     = Raises (defaultErrorMsg +:+ ": " +:+ SymbolsNotFound (Mangle env Name)))
  /\ (~ unresolved env this Name ->
      (exists r, Legacy.CompileLayer_findSymbol (Legacy.LinkedObjects this) Name false
                 = JITSymbol_lazy r
                 /\ Legacy.Resolver env this Name = Returns (JITSymbol_lazy r))
      \/ (exists a, Legacy.Resolver env this Name = Returns (JITSymbol_at a))).
Proof.
  intros Hreach. apply legacy_MainJITDylib_plain in Hreach as [Hgen Hrdy].
  unfold unresolved, Legacy.Resolver, ES_lookup. rewrite Hgen, Hrdy, lookup_empty.
  cbn [andb].
  destruct (CompileLayer_findSymbol_cases (Legacy.LinkedObjects this) Name false)
    as [[Hnull _]|(KV & r & _ & _ & Hf)].
  - rewrite Hnull.
    destruct (Z.eqb_spec (getSymbolAddressInProcess env Name) 0) as [Hp|Hp]; cbn [negb].
    + destruct (Symbols (Legacy.MainJITDylib this) !! Mangle env Name) as [a|] eqn:Hjd.
      * split; [by intros (_ & _ & ?)|]. intros _. right. cbn. eauto.
      * split; [done|]. intros Hn. exfalso. by apply Hn.
    + split; [by intros (_ & ? & _)|]. intros _. right. eauto.
  - rewrite Hf. split; [by intros (? & _)|]. intros _. left. eauto.
Qed.

End LegacyLookup.

Section Accessors.

Context (env : Env).

(** X11.  What the two accessors hand out is fixed by the host and fits
    together: on every engine a program can hold, of either variant,
    [getTargetMachine] is the target machine of the host's builder and
    [getDataLayout] is the data layout of that target machine, whatever
    calls were made since construction. *)
Theorem accessors_fixed (v : Variant) (impl : PytorchLLVMJITImpl) :
  reachable env v impl ->
  createTargetMachine env (makeTargetMachineBuilder (host env))
  = Value (Impl_getTargetMachine impl)
  /\ Impl_getDataLayout impl = createDataLayout env (Impl_getTargetMachine impl).
Proof.
  induction 1 as [impl Hc|impl M _ IH|impl Name _ IH|this K _ IH].
  - destruct v; cbn [Impl_ctor] in Hc.
    + rewrite Modern_ctor_eq in Hc.
      destruct (createTargetMachine env _) as [tm|]; [|discriminate].
      destruct (LLJIT_setup env); [discriminate|].
      destruct (GetForCurrentProcess env); [discriminate|].
      destruct (registerIntrinsics env _ ∅); [|discriminate].
      by injection Hc as <-.
    + rewrite Legacy_ctor_eq in Hc.
      destruct (createTargetMachine env _) as [tm|]; [|discriminate].
      destruct (registerIntrinsics env _ ∅); [|discriminate].
      by injection Hc as <-.
  - destruct impl as [this|this]; cbn in *; [|done].
    unfold Modern.getDataLayout, Modern.addModule, Modern.addIRModule in *.
    by destruct (rejection M).
  - by destruct impl as [this|this].
  - cbn in *. unfold Legacy.removeModule.
    by destruct (Legacy.CompileLayer_removeModule env _ K).
Qed.

End Accessors.

(** X8 to X11 at the engines of [env0]. *)
Lemma Legacy_findSymbol_from_modules_witness :
  Legacy.getSymbolAddress env0 (Legacy.addModule env0 legacy0 module_foo).2 "foo"
  = Returns 9100
  /\ Legacy.getSymbolAddress env0 (Legacy.addModule env0 legacy0 module_unlinkable).2 "baz"
     = Raises "Unexpected failure in LLVM JIT: Symbols not found: { nowhere }".
Proof.
  split.
  - apply (Legacy_findSymbol_from_modules env0
             (Legacy.addModule env0 legacy0 module_foo).2 "foo").
    vm_compute. reflexivity.
  - apply (Legacy_findSymbol_from_modules env0
             (Legacy.addModule env0 legacy0 module_unlinkable).2 "baz").
    vm_compute. reflexivity.
Defined.

Lemma removeModule_keeps_others_witness :
  let this2 := (Legacy.addModule env0 (Legacy.addModule env0 legacy0 module_foo).2
                  module_sinf).2 in
  Legacy.findSymbol env0 (Legacy.removeModule env0 this2 2%N).2 "foo"
  = JITSymbol_lazy (Value 9100).
Proof.
  intros this2.
  rewrite (removeModule_keeps_others env0 this2 2%N "foo").
  - vm_compute. reflexivity.
  - intros KV HKV HK. apply list_elem_of_In in HKV. simpl in HKV.
    destruct HKV as [<-|[<-|[]]]; [discriminate HK|].
    intros Hin. apply list_elem_of_In in Hin. simpl in Hin.
    destruct Hin as [Hin|[]]. discriminate Hin.
Defined.

Lemma Resolver_raises_iff_unresolved_witness :
  Legacy.Resolver env0 legacy0 "nowhere"
  = Raises "Unexpected failure in LLVM JIT: Symbols not found: { nowhere }"
  /\ ((exists r, Legacy.CompileLayer_findSymbol (Legacy.LinkedObjects legacy0) "cosf" false
                 = JITSymbol_lazy r
                 /\ Legacy.Resolver env0 legacy0 "cosf" = Returns (JITSymbol_lazy r))
      \/ exists a, Legacy.Resolver env0 legacy0 "cosf" = Returns (JITSymbol_at a)).
Proof.
  assert (Hreach : reachable env0 legacy (LegacyImpl legacy0)).
  { apply reach_ctor. vm_compute. reflexivity. }
  split.
  - apply (proj1 (Resolver_raises_iff_unresolved env0 legacy0 "nowhere" Hreach)).
    repeat split; vm_compute; reflexivity.
  - apply (proj2 (Resolver_raises_iff_unresolved env0 legacy0 "cosf" Hreach)).
    intros (_ & _ & Hjd). vm_compute in Hjd. discriminate.
Defined.

Lemma accessors_fixed_witness :
  getTargetCPU (Impl_getTargetMachine (Impl_addModule env0 (engine0 modern) module_foo).2)
  = "skylake".
Proof.
  destruct (accessors_fixed env0 modern (Impl_addModule env0 (engine0 modern) module_foo).2)
    as [Htm _].
  - apply reach_addModule, reach_ctor. vm_compute. reflexivity.
  - symmetry.
    exact (f_equal (fun o => match o with Value tm => getTargetCPU tm | Failure _ => "" end)
             Htm).
Defined.


End llvm_jit_properties.

(** * Properties of the fallback *)

Module ConjugateFallback_properties.

Import ConjugateFallback.


Section AliasCheck.

Context (kernel : Z -> list IValue -> Heap -> Outcome unit * (list IValue * Heap)).
Context (DispatchKey_Conjugate : Z) (NDEBUG : bool).

Lemma is_write_loop_Raises n args : forall w m,
  is_write_loop n args w = Raises m -> m = mix_message n.
Proof.
  induction args as [|arg args IH]; intros w m; simpl; [discriminate|].
  destruct (alias_info arg) as [ai|]; [|apply IH].
  destruct w as [w|]; [|apply IH].
  destruct (Bool.eqb w (isWrite ai)); [apply IH|]. by intros [= <-].
Qed.

Lemma is_write_loop_Some n args : forall w r,
  is_write_loop n args (Some w) = Returns r ->
  r = Some w
  /\ forall arg ai, arg ∈ args -> alias_info arg = Some ai -> isWrite ai = w.
Proof.
  induction args as [|arg args IH]; intros w r; simpl.
  - intros [= <-]. split; [done|]. intros arg ai Hin. by apply elem_of_nil in Hin.
  - destruct (alias_info arg) as [ai|] eqn:Ha.
    + destruct (Bool.eqb w (isWrite ai)) eqn:E; [|discriminate].
      apply Bool.eqb_prop in E. intros Hrun. apply IH in Hrun as [-> Hall].
      split; [done|]. intros arg' ai' Hin Ha'.
      apply elem_of_cons in Hin as [->|Hin]; [congruence|by eapply Hall].
    + intros Hrun. apply IH in Hrun as [-> Hall].
      split; [done|]. intros arg' ai' Hin Ha'.
      apply elem_of_cons in Hin as [->|Hin]; [congruence|by eapply Hall].
Qed.

(** When the loop returns, every argument with alias information has the
    flag the loop returns. *)
Lemma is_write_loop_None n args : forall r,
  is_write_loop n args None = Returns r ->
  forall arg ai, arg ∈ args -> alias_info arg = Some ai -> r = Some (isWrite ai).
Proof.
  induction args as [|arg args IH]; intros r; simpl.
  - intros _ arg ai Hin. by apply elem_of_nil in Hin.
  - destruct (alias_info arg) as [ai|] eqn:Ha.
    + intros Hrun. apply is_write_loop_Some in Hrun as [-> Hall].
      intros arg' ai' Hin Ha'.
      apply elem_of_cons in Hin as [->|Hin]; [congruence|].
      by rewrite (Hall _ _ Hin Ha').
    + intros Hrun arg' ai' Hin Ha'.
      apply elem_of_cons in Hin as [->|Hin]; [congruence|]. by eapply IH.
Qed.

(** C10.  For an operator whose arguments carry alias information with both
    a write and a non-write flag, the fallback raises the checked error,
    whose message names the operator, and the state is the one it was called
    with: the stack and the heap are untouched and no redispatch was made. *)
Theorem mixed_alias_info_raises (op : FunctionSchema) (dispatch_keys : Z) (st : State) :
  mixed (arguments op) ->
  conjugateFallback kernel DispatchKey_Conjugate NDEBUG op dispatch_keys st
  = (Raises (mix_message (name op)), st).
Proof.
  intros (arg1 & arg2 & a1 & a2 & Hin1 & Hin2 & Ha1 & Ha2 & Hne).
  unfold conjugateFallback.
  destruct (is_write_loop (name op) (arguments op) None) as [r|m] eqn:Hloop.
  - pose proof (is_write_loop_None _ _ _ Hloop _ _ Hin1 Ha1) as H1.
    pose proof (is_write_loop_None _ _ _ Hloop _ _ Hin2 Ha2) as H2.
    congruence.
  - by rewrite (is_write_loop_Raises _ _ _ _ Hloop).
Qed.

End AliasCheck.

(** C10 at [mixed_op], whose first argument is written and whose third is a
    view. *)
Lemma mixed_alias_info_raises_witness :
  conjugateFallback kernel_id 10 false mixed_op 1023 state0
  = (Raises (mix_message "aten::mixed"), state0).
Proof.
  apply (mixed_alias_info_raises kernel_id 10 false mixed_op 1023 state0).
  exists write_arg, view_arg, {| isWrite := true |}, {| isWrite := false |}.
  repeat split.
  - apply list_elem_of_In. simpl. tauto.
  - apply list_elem_of_In. simpl. tauto.
  - simpl. discriminate.
Defined.

Section HeapSteps.

Lemma conj_conj z : conj (conj z) = z.
Proof. destruct z as [re im]. unfold conj. simpl. f_equal. lia. Qed.

Lemma map_conj_conj d : map conj (map conj d) = d.
Proof. induction d as [|z d IH]; simpl; [done|]. by rewrite conj_conj, IH. Qed.

Lemma iter_swap {A} (f : A -> A) n x : Nat.iter n f (f x) = f (Nat.iter n f x).
Proof. induction n as [|n IH]; simpl; [done|]. by rewrite IH. Qed.

Lemma iter_twice {A} (f : A -> A) n x :
  (forall y, f (f y) = y) -> Nat.iter n f (Nat.iter n f x) = x.
Proof.
  intros Hf. induction n as [|n IH]; simpl; [done|].
  by rewrite iter_swap, Hf.
Qed.

Lemma iter_fmap_Some {A} (f : A -> A) n x :
  Nat.iter n (fmap f) (Some x) = Some (Nat.iter n f x).
Proof. induction n as [|n IH]; simpl; [done|]. by rewrite IH. Qed.

Lemma flip_impls b h t :
  impls (flip b h t) = alter (with_bit b) t (impls h).
Proof. unfold flip, set_conj, conj_physical_. by destruct (impls h !! t). Qed.

Lemma flip_impls_lookup b h t t' :
  impls (flip b h t) !! t'
  = (if decide (t = t') then with_bit b else id) <$> impls h !! t'.
Proof.
  rewrite flip_impls, lookup_alter. case_decide as E; [by rewrite E|].
  by destruct (impls h !! t').
Qed.

Lemma flip_storage_of b h t t' : storage_of (flip b h t) t' = storage_of h t'.
Proof.
  unfold storage_of. rewrite flip_impls_lookup.
  case_decide; by destruct (impls h !! t').
Qed.

Lemma flip_storages_lookup b h t s :
  storages (flip b h t) !! s
  = if bool_decide (storage_of h t = Some s)
    then map conj <$> storages h !! s
    else storages h !! s.
Proof.
  unfold flip, set_conj, conj_physical_, storage_of. simpl.
  destruct (impls h !! t) as [i|]; simpl.
  - case_bool_decide as E.
    + injection E as <-. by rewrite lookup_alter_eq.
    + rewrite lookup_alter_ne; [done|]. congruence.
  - done.
Qed.

Lemma views_ext h h' ms s :
  (forall t, t ∈ ms -> storage_of h' t = storage_of h t) ->
  views h' ms s = views h ms s.
Proof.
  intros Hext. unfold views. f_equal. apply filter_ext_in.
  intros t Hin. by rewrite Hext by (by apply list_elem_of_In).
Qed.

Lemma views_app h ms t s :
  views h (ms ++ [t]) s
  = (views h ms s + if bool_decide (storage_of h t = Some s) then 1 else 0)%nat.
Proof.
  unfold views. rewrite List.filter_app, length_app. simpl.
  by destruct (bool_decide (storage_of h t = Some s)).
Qed.

(** The passes of a loop over [ms], seen from one tensor and one storage. *)
Lemma fold_flip_impls b ms : forall h t',
  impls (fold_left (flip b) ms h) !! t'
  = (if decide (t' ∈ ms) then with_bit b else id) <$> impls h !! t'.
Proof.
  induction ms as [|t ms IH]; intros h t'.
  - cbn [fold_left]. destruct (decide (t' ∈ [])) as [Hin|_].
    + by apply elem_of_nil in Hin.
    + by destruct (impls h !! t').
  - cbn [fold_left]. rewrite IH, flip_impls_lookup.
    destruct (impls h !! t') as [i|]; [|done]. cbn [fmap option_fmap option_map].
    f_equal.
    destruct (decide (t' ∈ ms)) as [H1|H1], (decide (t = t')) as [H2|H2],
      (decide (t' ∈ t :: ms)) as [H3|H3]; try reflexivity; exfalso; apply H3 || idtac;
      rewrite ?elem_of_cons in *; naive_solver.
Qed.

Lemma fold_flip_storage_of b ms : forall h t,
  storage_of (fold_left (flip b) ms h) t = storage_of h t.
Proof.
  induction ms as [|t0 ms IH]; intros h t; simpl; [done|].
  by rewrite IH, flip_storage_of.
Qed.

Lemma fold_flip_storages b ms : forall h s,
  storages (fold_left (flip b) ms h) !! s
  = Nat.iter (views h ms s) (fmap (map conj)) (storages h !! s).
Proof.
  induction ms as [|t ms IH]; intros h s; simpl; [done|].
  rewrite IH, flip_storages_lookup.
  rewrite (views_ext h (flip b h t)) by (intros; apply flip_storage_of).
  unfold views at 2. simpl. fold (views h ms s).
  destruct (bool_decide (storage_of h t = Some s)); simpl; [|done].
  by rewrite iter_swap.
Qed.

End HeapSteps.

Section Prepare.

Lemma Prepared_init h0 : Prepared h0 h0 [].
Proof.
  split.
  - constructor.
  - intros t Hin. by apply elem_of_nil in Hin.
  - intros t i0 H0. rewrite decide_False by apply not_elem_of_nil. done.
  - intros t i Hi H0. congruence.
  - intros s d Hs. done.
Qed.

Lemma is_conj_true h t :
  is_conj h t = true -> exists i, impls h !! t = Some i /\ conj_bit i = true.
Proof. unfold is_conj. destruct (impls h !! t) as [i|]; [eauto|discriminate]. Qed.

(** A tensor whose bit is set inside the loop had it set on entry and is not
    yet among the mutable inputs. *)
Lemma Prepared_conj h0 h ms t :
  Prepared h0 h ms -> is_conj h t = true ->
  (t ∉ ms)
  /\ exists i0, impls h0 !! t = Some i0 /\ conj_bit i0 = true /\ impls h !! t = Some i0.
Proof.
  intros HP Hc. apply is_conj_true in Hc as (i & Hi & Hbit).
  destruct (impls h0 !! t) as [i0|] eqn:H0.
  - pose proof (prep_impls _ _ _ HP _ _ H0) as Hi'. rewrite Hi in Hi'.
    destruct (decide (t ∈ ms)) as [Hin|Hnin].
    + injection Hi' as ->. discriminate.
    + injection Hi' as ->. eauto.
  - rewrite (prep_new _ _ _ HP _ _ Hi H0) in Hbit. discriminate.
Qed.

Lemma Prepared_flip h0 h ms t :
  Prepared h0 h ms -> is_conj h t = true ->
  Prepared h0 (flip false h t) (ms ++ [t]).
Proof.
  intros HP Hc. destruct (Prepared_conj _ _ _ _ HP Hc) as (Hnin & i0 & H0 & Hbit0 & Hi).
  split.
  - apply NoDup_app. split; [apply HP|]. split; [|apply NoDup_singleton].
    intros x Hx Hx'. apply list_elem_of_singleton in Hx' as ->. done.
  - intros x Hx. apply elem_of_app in Hx as [Hx|Hx]; [by apply HP|].
    apply list_elem_of_singleton in Hx as ->. unfold is_conj. by rewrite H0.
  - intros x ix Hx. rewrite flip_impls_lookup, (prep_impls _ _ _ HP _ _ Hx).
    cbn [fmap option_fmap option_map]. f_equal.
    destruct (decide (t = x)) as [<-|Hne].
    + rewrite decide_False by done.
      rewrite decide_True by (apply elem_of_app; right; by apply list_elem_of_singleton).
      done.
    + destruct (decide (x ∈ ms)) as [Hin|Hnin'].
      * rewrite decide_True by (apply elem_of_app; by left). done.
      * rewrite decide_False; [done|]. intros Hin.
        apply elem_of_app in Hin as [Hin|Hin]; [done|].
        apply list_elem_of_singleton in Hin. congruence.
  - intros x ix Hx Hx0. rewrite flip_impls_lookup in Hx.
    destruct (decide (t = x)) as [<-|Hne]; [congruence|].
    destruct (impls h !! x) as [ix'|] eqn:E; [|discriminate].
    injection Hx as <-. by eapply (prep_new _ _ _ HP).
  - intros s d Hs. rewrite flip_storages_lookup, (prep_storages _ _ _ HP _ _ Hs).
    rewrite views_app.
    assert (storage_of h t = storage_of h0 t) as ->.
    { unfold storage_of. by rewrite Hi, H0. }
    destruct (bool_decide (storage_of h0 t = Some s)).
    + by rewrite Nat.add_1_r.
    + by rewrite Nat.add_0_r.
Qed.

Lemma Prepared_resolve h0 h ms t :
  Prepared h0 h ms -> Prepared h0 (resolve_conj h t).2 ms.
Proof.
  intros HP. unfold resolve_conj.
  destruct (impls h !! t) as [i|] eqn:Hi; [|done].
  destruct (conj_bit i); [|done]. cbn [snd].
  pose proof (is_fresh (dom (impls h))) as Ht'.
  pose proof (is_fresh (dom (storages h))) as Hs'.
  split; [apply HP|apply HP|..]; cbn [impls storages].
  - intros x ix Hx. pose proof (prep_impls _ _ _ HP _ _ Hx) as Hx'.
    rewrite lookup_insert_ne; [done|]. intros <-.
    apply Ht', elem_of_dom. eauto.
  - intros x ix Hx Hx0.
    destruct (decide (fresh (dom (impls h)) = x)) as [<-|Hne].
    + rewrite lookup_insert_eq in Hx. by injection Hx as <-.
    + rewrite lookup_insert_ne in Hx by done. by eapply (prep_new _ _ _ HP).
  - intros s d Hs. pose proof (prep_storages _ _ _ HP _ _ Hs) as Hs''.
    rewrite lookup_insert_ne; [done|]. intros <-.
    apply Hs', elem_of_dom. eauto.
Qed.

End Prepare.

Section RoundTrip.

Context (kernel : Z -> list IValue -> Heap -> Outcome unit * (list IValue * Heap)).
Context (DispatchKey_Conjugate : Z) (NDEBUG : bool).

(** Line 29 on a stack that holds the arguments. *)
Lemma stack_start_of_le size num_arguments :
  (num_arguments <= size)%nat ->
  stack_start_of size num_arguments = (size - num_arguments)%nat.
Proof.
  intros Hle. unfold stack_start_of.
  by destruct (Nat.leb_spec num_arguments size) as [_|Hlt]; [|lia].
Qed.

(** Line 29 on a shorter stack: the index is beyond the end. *)
Lemma stack_start_of_gt size num_arguments :
  (size < num_arguments)%nat -> (size <= stack_start_of size num_arguments)%nat.
Proof.
  intros Hlt. unfold stack_start_of.
  destruct (Nat.leb_spec num_arguments size) as [Hle|_]; lia.
Qed.

(** The loop of lines 59-86, from any point on. *)
Lemma materialize_loop_spec h0 ss args : forall i stk h ms stk' h' ms',
  materialize_loop NDEBUG args i ss stk h ms = (Returns tt, (stk', h', ms')) ->
  Prepared h0 h ms ->
  Prepared h0 h' ms'
  /\ (forall t, t ∈ ms -> t ∈ ms')
  /\ (forall k arg ai t,
        args !! k = Some arg -> alias_info arg = Some ai ->
        stk !! (ss + i + k)%nat = Some (Tensor t) -> is_conj h0 t = true ->
        t ∈ ms')
  /\ (forall t, t ∈ ms' ->
        t ∈ ms \/ exists k arg ai,
          args !! k = Some arg /\ alias_info arg = Some ai
          /\ stk !! (ss + i + k)%nat = Some (Tensor t)).
Proof.
  induction args as [|argument args IH]; intros i stk h ms stk' h' ms' Hrun HP.
  - simpl in Hrun. injection Hrun as <- <- <-.
    split; [done|]. split; [done|]. split; [|by left].
    intros k arg ai t Hk. by rewrite lookup_nil in Hk.
  - (* what one more iteration adds to the statement for the rest *)
    assert (Hstep : forall stk1 h1 ms1,
      materialize_loop NDEBUG args (S i) ss stk1 h1 ms1 = (Returns tt, (stk', h', ms')) ->
      Prepared h0 h1 ms1 ->
      (forall j, (ss + i < j)%nat -> stk1 !! j = stk !! j) ->
      (forall t, t ∈ ms -> t ∈ ms1) ->
      (forall ai t, alias_info argument = Some ai ->
         stk !! (ss + i)%nat = Some (Tensor t) -> is_conj h0 t = true -> t ∈ ms1) ->
      (forall t, t ∈ ms1 -> t ∈ ms \/ exists ai,
         alias_info argument = Some ai /\ stk !! (ss + i)%nat = Some (Tensor t)) ->
      Prepared h0 h' ms'
      /\ (forall t, t ∈ ms -> t ∈ ms')
      /\ (forall k arg ai t,
            (argument :: args) !! k = Some arg -> alias_info arg = Some ai ->
            stk !! (ss + i + k)%nat = Some (Tensor t) -> is_conj h0 t = true ->
            t ∈ ms')
      /\ (forall t, t ∈ ms' ->
            t ∈ ms \/ exists k arg ai,
              (argument :: args) !! k = Some arg /\ alias_info arg = Some ai
              /\ stk !! (ss + i + k)%nat = Some (Tensor t))).
    { intros stk1 h1 ms1 Hrun1 HP1 Hstk Hmono Hhere Hfrom.
      destruct (IH _ _ _ _ _ _ _ Hrun1 HP1) as (HP' & Hmono' & Hin' & Hfrom').
      split; [done|]. split; [by eauto|]. split.
      - intros [|k] arg ai t Hk Ha Hs Hc.
        + simpl in Hk. injection Hk as <-. rewrite Nat.add_0_r in Hs.
          by eauto.
        + simpl in Hk. apply (Hin' k arg ai t Hk Ha); [|done].
          rewrite Hstk by lia. rewrite <- Hs. f_equal. lia.
      - intros t Ht. destruct (Hfrom' t Ht) as [Ht1|(k & arg & ai & Hk & Ha & Hs)].
        + destruct (Hfrom t Ht1) as [?|(ai & Ha & Hs)]; [by left|].
          right. exists 0%nat, argument, ai. by rewrite Nat.add_0_r.
        + right. exists (S k), arg, ai. split; [done|]. split; [done|].
          rewrite <- Hs, Hstk by lia. f_equal. lia. }
    simpl in Hrun.
    destruct (stk !! (ss + i)%nat) as [[t|v]|] eqn:Hslot.
    + destruct (alias_info argument) as [ai|] eqn:Ha.
      * destruct (negb NDEBUG && negb (isWrite ai)); [discriminate|].
        destruct (is_conj h t) eqn:Hc; cbn [negb] in Hrun.
        -- apply (Hstep _ _ _ Hrun); clear Hstep.
           ++ by apply Prepared_flip.
           ++ intros j Hj. apply list_lookup_insert_ne. lia.
           ++ intros x Hx. apply elem_of_app. by left.
           ++ intros ai' x _ [= <-] _. apply elem_of_app. right.
              by apply list_elem_of_singleton.
           ++ intros x Hx. apply elem_of_app in Hx as [Hx|Hx]; [by left|].
              apply list_elem_of_singleton in Hx as ->. right. by exists ai.
        -- apply (Hstep _ _ _ Hrun); clear Hstep; try done.
           ++ intros ai' x _ [= <-] Hc0.
              apply is_conj_true in Hc0 as (i0 & H0 & Hbit).
              pose proof (prep_impls _ _ _ HP _ _ H0) as Hi.
              destruct (decide (t ∈ ms)) as [Hin|Hnin]; [done|].
              unfold is_conj in Hc. rewrite Hi in Hc. congruence.
           ++ intros x Hx. by left.
      * destruct (is_conj h t) eqn:Hc; cbn [negb] in Hrun.
        -- apply (Hstep _ _ _ Hrun); clear Hstep; try done.
           ++ by apply Prepared_resolve.
           ++ intros j Hj. apply list_lookup_insert_ne. lia.
           ++ intros x Hx. by left.
        -- apply (Hstep _ _ _ Hrun); clear Hstep; try done.
           intros x Hx. by left.
    + apply (Hstep _ _ _ Hrun); clear Hstep; try done.
      intros x Hx. by left.
    + discriminate Hrun.
Qed.

Lemma views_none h ms s :
  (forall t, t ∈ ms -> storage_of h t <> Some s) -> views h ms s = 0%nat.
Proof.
  unfold views. induction ms as [|t ms IH]; intros Hno; [done|].
  cbn [List.filter]. rewrite bool_decide_eq_false_2.
  - apply IH. intros t' Hin. apply Hno, elem_of_cons. by right.
  - apply Hno, elem_of_cons. by left.
Qed.

Lemma views_unique h ms s t :
  NoDup ms -> t ∈ ms -> storage_of h t = Some s ->
  (forall t', t' ∈ ms -> t' <> t -> storage_of h t' <> Some s) ->
  views h ms s = 1%nat.
Proof.
  induction ms as [|x ms IH]; intros Hnd Hin Hs Hothers.
  - by apply elem_of_nil in Hin.
  - apply NoDup_cons in Hnd as [Hx Hnd].
    unfold views. cbn [List.filter]. fold (views h ms s).
    apply elem_of_cons in Hin as [->|Hin].
    + rewrite bool_decide_eq_true_2 by done. cbn [length]. f_equal.
      apply views_none. intros t' Hin'. apply Hothers.
      * apply elem_of_cons. by right.
      * intros ->. done.
    + rewrite bool_decide_eq_false_2.
      * apply IH; try done. intros t' Hin' Hne. apply Hothers; [|done].
        apply elem_of_cons. by right.
      * apply Hothers; [apply elem_of_cons; by left|]. intros ->. done.
Qed.

Lemma restore_loop_fold ms h : restore_loop ms h = fold_left (flip true) ms h.
Proof. reflexivity. Qed.

(** After the loop of lines 90-93 a tensor it passed over has the bit set. *)
Lemma restore_loop_is_conj ms h t :
  t ∈ ms -> is_Some (impls h !! t) -> is_conj (restore_loop ms h) t = true.
Proof.
  intros Hin [i Hi]. unfold is_conj.
  rewrite restore_loop_fold, fold_flip_impls, Hi, decide_True by done. done.
Qed.

(** The loop of lines 90-93 undoes what the loop of lines 59-86 did to the
    tensors and storages that were there on entry. *)
Lemma restore_loop_Prepared h0 h1 ms :
  Prepared h0 h1 ms ->
  (forall x i0, impls h0 !! x = Some i0 -> impls (restore_loop ms h1) !! x = Some i0)
  /\ (forall s d, storages h0 !! s = Some d -> storages (restore_loop ms h1) !! s = Some d).
Proof.
  intros HP. split.
  - intros x i0 H0. rewrite restore_loop_fold, fold_flip_impls.
    rewrite (prep_impls _ _ _ HP _ _ H0). cbn [fmap option_fmap option_map]. f_equal.
    destruct (decide (x ∈ ms)) as [Hin|Hnin]; [|done].
    pose proof (prep_conj _ _ _ HP _ Hin) as Hc. unfold is_conj in Hc.
    rewrite H0 in Hc. destruct i0 as [s b]. simpl in Hc. subst b. reflexivity.
  - intros s d Hs. rewrite restore_loop_fold, fold_flip_storages.
    rewrite (prep_storages _ _ _ HP _ _ Hs), iter_fmap_Some. f_equal.
    rewrite (views_ext h0 h1).
    + apply iter_twice, map_conj_conj.
    + intros t Hin. pose proof (prep_conj _ _ _ HP _ Hin) as Hc.
      apply is_conj_true in Hc as (i0 & H0 & _). unfold storage_of.
      rewrite (prep_impls _ _ _ HP _ _ H0), H0. by case_decide.
Qed.

(** C9.  Let the fallback return on a call, with the arguments of the
    operator on the stack, in which the tensor [t] is a mutable input with
    its conjugate bit set.  Then exactly one redispatch
    was made, on a heap [h1] in which the bit of [t] is clear and, when no
    other such input views the storage of [t], the data of [t] is the
    conjugate of its data on entry.  If [t] is alive in the heap [h2] the
    kernel leaves, its bit is set again when the fallback returns and, when
    no other such input views its storage, its data is the conjugate of what
    the kernel left.  If the kernel leaves the heap as it got it, every
    tensor and every storage that was there on entry is, on return, as it
    was on entry. *)
Theorem conjugate_bit_round_trip (op : FunctionSchema) (dispatch_keys : Z)
  (st st' : State) (t : nat) :
  (length (arguments op) <= length (stack st))%nat ->
  conjugateFallback kernel DispatchKey_Conjugate NDEBUG op dispatch_keys st
  = (Returns tt, st') ->
  mutable_conj_input op (stack st) (heap st) t ->
  exists stk1 h1 h2,
    let ks := Z.land dispatch_keys (FULL_AFTER DispatchKey_Conjugate) in
    redispatched st' = (redispatched st ++ [(ks, stk1, h1)])%list
    /\ kernel ks stk1 h1 = (Returns tt, (stack st', h2))
    /\ is_conj h1 t = false
    /\ (forall i0 d,
          impls (heap st) !! t = Some i0 -> storages (heap st) !! storage i0 = Some d ->
          (forall t', mutable_conj_input op (stack st) (heap st) t' -> t' <> t ->
             storage_of (heap st) t' <> Some (storage i0)) ->
          storages h1 !! storage i0 = Some (map conj d))
    /\ (forall i2,
          impls h2 !! t = Some i2 ->
          is_conj (heap st') t = true
          /\ ((forall t', mutable_conj_input op (stack st) (heap st) t' -> t' <> t ->
                 storage_of h2 t' <> Some (storage i2)) ->
              storages (heap st') !! storage i2 = map conj <$> storages h2 !! storage i2))
    /\ (h2 = h1 ->
        (forall x i0, impls (heap st) !! x = Some i0 -> impls (heap st') !! x = Some i0)
        /\ (forall s d, storages (heap st) !! s = Some d ->
              storages (heap st') !! s = Some d)).
Proof.
  intros Hlen Hrun Hmut. pose proof Hmut as (i & arg & ai & Harg & Ha & Hw & Hslot & Hc).
  unfold conjugateFallback in Hrun. rewrite (stack_start_of_le _ _ Hlen) in Hrun.
  destruct (is_write_loop (name op) (arguments op) None) as [r|m] eqn:Hloop;
    [|discriminate].
  assert (Hwrites : forall arg' ai', arg' ∈ arguments op ->
            alias_info arg' = Some ai' -> isWrite ai' = true).
  { intros arg' ai' Hin' Ha'.
    pose proof (is_write_loop_None _ _ _ Hloop _ _ Hin' Ha') as H1.
    pose proof (is_write_loop_None _ _ _ Hloop _ _
                  (list_elem_of_lookup_2 _ _ _ Harg) Ha) as H2.
    congruence. }
  assert (r = Some true) as ->.
  { rewrite <- Hw.
    apply (is_write_loop_None _ _ _ Hloop arg ai); [|done].
    by eapply list_elem_of_lookup_2. }
  destruct (materialize_loop NDEBUG (arguments op) 0 _ (stack st) (heap st) [])
    as [[[]|m] [[stk1 h1] ms]] eqn:Hmat; [|discriminate].
  unfold redispatchBoxed in Hrun. cbn [stack heap redispatched] in Hrun.
  destruct (kernel (Z.land dispatch_keys (FULL_AFTER DispatchKey_Conjugate)) stk1 h1)
    as [[[]|m] [stk2 h2]] eqn:Hk; cbn [fst snd stack heap redispatched] in Hrun;
    [|discriminate].
  injection Hrun as <-. cbn [stack heap redispatched].
  destruct (materialize_loop_spec (heap st) _ _ _ _ _ _ _ _ _ Hmat (Prepared_init _))
    as (HP & _ & Hin & Hfrom).
  assert (Ht : t ∈ ms).
  { apply (Hin i arg ai t Harg Ha); [|done]. by rewrite Nat.add_0_r. }
  assert (Hmembers : forall t', t' ∈ ms -> mutable_conj_input op (stack st) (heap st) t').
  { intros t' Hin'. destruct (Hfrom t' Hin') as [Hnil|(k & arg' & ai' & Hk' & Ha' & Hs')].
    - by apply elem_of_nil in Hnil.
    - exists k, arg', ai'. rewrite Nat.add_0_r in Hs'.
      repeat split; try done.
      + apply (Hwrites arg' ai'); [|done]. by eapply list_elem_of_lookup_2.
      + by apply (prep_conj _ _ _ HP). }
  exists stk1, h1, h2. cbn zeta.
  split; [done|]. split; [done|].
  pose proof Hc as Hc'. apply is_conj_true in Hc' as (j0 & Hj0 & Hbit0).
  split; [|split; [|split]].
  - unfold is_conj. rewrite (prep_impls _ _ _ HP _ _ Hj0), decide_True by done. done.
  - intros i0 d Hi0 Hd Hothers.
    rewrite (prep_storages _ _ _ HP _ _ Hd).
    rewrite (views_unique (heap st) ms (storage i0) t); [done|apply HP|done|..].
    + unfold storage_of. by rewrite Hi0.
    + intros t' Hin' Hne. apply Hothers; [by apply Hmembers|done].
  - intros i2 Hi2. split.
    + apply restore_loop_is_conj; [done|by eexists].
    + intros Hothers. rewrite restore_loop_fold, fold_flip_storages.
      rewrite (views_unique h2 ms (storage i2) t); [done|apply HP|done|..].
      * unfold storage_of. by rewrite Hi2.
      * intros t' Hin' Hne. apply Hothers; [by apply Hmembers|done].
  - intros ->. by apply restore_loop_Prepared.
Qed.

End RoundTrip.

(** C9 at [mul_] on [state0]: tensor 0 is written with its bit set; after
    the call its bit is set and its storage holds what it held. *)
Lemma conjugate_bit_round_trip_witness :
  let st' := (conjugateFallback kernel_id 10 false mul_ 1023 state0).2 in
  is_conj (heap st') 0 = true
  /\ storages (heap st') !! 0%nat = Some [(1, 2); (3, -4)].
Proof.
  intros st'.
  destruct (conjugate_bit_round_trip kernel_id 10 false mul_ 1023 state0 st' 0)
    as (stk1 & h1 & h2 & _ & Hk & _ & _ & _ & Hround).
  - simpl. lia.
  - subst st'. vm_compute. reflexivity.
  - exists 0%nat, write_arg, {| isWrite := true |}. repeat split.
  - unfold kernel_id in Hk. injection Hk as _ Hh. destruct (Hround (eq_sym Hh)) as [Hi Hs].
    split.
    + unfold is_conj.
      rewrite (Hi 0%nat {| storage := 0%nat; conj_bit := true |}); reflexivity.
    + apply Hs. reflexivity.
Defined.

Section Redispatch.

Context (kernel : Z -> list IValue -> Heap -> Outcome unit * (list IValue * Heap)).
Context (DispatchKey_Conjugate : Z).

Lemma is_write_loop_agree n args : forall w m,
  is_write_loop n args (Some w) = Raises m ->
  exists arg ai, arg ∈ args /\ alias_info arg = Some ai /\ isWrite ai <> w.
Proof.
  induction args as [|arg args IH]; intros w m; simpl; [discriminate|].
  destruct (alias_info arg) as [ai|] eqn:Ha.
  - destruct (Bool.eqb w (isWrite ai)) eqn:E.
    + intros H. destruct (IH _ _ H) as (arg' & ai' & Hin & Ha' & Hne).
      exists arg', ai'. split; [apply elem_of_cons; by right|done].
    + intros _. exists arg, ai. split; [apply elem_of_cons; by left|]. split; [done|].
      apply Bool.eqb_false_iff in E. congruence.
  - intros H. destruct (IH _ _ H) as (arg' & ai' & Hin & Ha' & Hne).
    exists arg', ai'. split; [apply elem_of_cons; by right|done].
Qed.

(** The check of line 36 fails on mixed operators only. *)
Lemma is_write_loop_mixed n args m :
  is_write_loop n args None = Raises m -> mixed args.
Proof.
  induction args as [|arg args IH]; simpl; [discriminate|].
  destruct (alias_info arg) as [ai|] eqn:Ha.
  - intros H. destruct (is_write_loop_agree _ _ _ _ H) as (arg' & ai' & Hin & Ha' & Hne).
    exists arg, arg', ai, ai'.
    split; [apply elem_of_cons; by left|]. split; [apply elem_of_cons; by right|].
    split; [done|]. split; [done|]. congruence.
  - intros H. destruct (IH H) as (a1 & a2 & x1 & x2 & H1 & H2 & Hrest).
    exists a1, a2, x1, x2.
    split; [apply elem_of_cons; by right|]. split; [apply elem_of_cons; by right|]. done.
Qed.

Lemma is_write_loop_found n args : forall w,
  is_write_loop n args None = Returns (Some w) ->
  exists arg ai, arg ∈ args /\ alias_info arg = Some ai.
Proof.
  induction args as [|arg args IH]; intros w; simpl; [discriminate|].
  destruct (alias_info arg) as [ai|] eqn:Ha.
  - intros _. exists arg, ai. split; [apply elem_of_cons; by left|done].
  - intros H. destruct (IH _ H) as (arg' & ai' & Hin & Ha').
    exists arg', ai'. split; [apply elem_of_cons; by right|done].
Qed.

(** What the loop of lines 31-46 finds for an operator that is not mixed. *)
Lemma is_write_loop_cases n args :
  ~ mixed args ->
  (is_write_loop n args None = Returns (Some false) /\ view_op args)
  \/ (exists r, is_write_loop n args None = Returns r /\ r <> Some false
                /\ writes_only args).
Proof.
  intros Hnm. destruct (is_write_loop n args None) as [r|m] eqn:Hloop.
  - pose proof (is_write_loop_None _ _ _ Hloop) as Hall.
    destruct r as [[|]|].
    + right. exists (Some true). split; [done|]. split; [done|].
      intros arg ai Hin Ha. specialize (Hall _ _ Hin Ha). congruence.
    + left. split; [done|]. split.
      * by eapply is_write_loop_found.
      * intros arg ai Hin Ha. specialize (Hall _ _ Hin Ha). congruence.
    + right. exists None. split; [done|]. split; [done|].
      intros arg ai Hin Ha. specialize (Hall _ _ Hin Ha). congruence.
  - exfalso. apply Hnm. by eapply is_write_loop_mixed.
Qed.

Lemma writes_only_not_mixed args : writes_only args -> ~ mixed args.
Proof.
  intros Hw (a1 & a2 & x1 & x2 & H1 & H2 & E1 & E2 & Hne).
  rewrite (Hw _ _ H1 E1), (Hw _ _ H2 E2) in Hne. done.
Qed.

Lemma view_op_not_mixed args : view_op args -> ~ mixed args.
Proof.
  intros [_ Hv] (a1 & a2 & x1 & x2 & H1 & H2 & E1 & E2 & Hne).
  rewrite (Hv _ _ H1 E1), (Hv _ _ H2 E2) in Hne. done.
Qed.

Lemma view_op_not_writes args : view_op args -> writes_only args -> False.
Proof.
  intros [(arg & ai & Hin & Ha) Hv] Hw.
  pose proof (Hv _ _ Hin Ha). pose proof (Hw _ _ Hin Ha). congruence.
Qed.

(** With every flagged argument written the assertion of line 68 holds
    whenever it is evaluated. *)
Lemma materialize_loop_writes NDEBUG args :
  writes_only args ->
  forall i ss stk h ms,
    materialize_loop NDEBUG args i ss stk h ms = materialize_loop true args i ss stk h ms.
Proof.
  induction args as [|argument args IH]; intros Hw i ss stk h ms; [done|].
  assert (Hw' : writes_only args).
  { intros arg ai Hin. apply Hw, elem_of_cons. by right. }
  cbn [materialize_loop].
  destruct (stk !! (ss + i)%nat) as [[t|v]|]; [|by apply IH|done].
  destruct (alias_info argument) as [ai|] eqn:Ha.
  - rewrite (Hw argument ai) by (done || apply elem_of_cons; by left).
    rewrite !andb_false_r. destruct (negb (is_conj h t)); by apply IH.
  - destruct (negb (is_conj h t)); by apply IH.
Qed.

(** With the assertion compiled out the loop returns on a stack that has a
    slot for every argument. *)
Lemma materialize_loop_release args : forall i ss stk h ms,
  (ss + i + length args <= length stk)%nat ->
  (materialize_loop true args i ss stk h ms).1 = Returns tt.
Proof.
  induction args as [|argument args IH]; intros i ss stk h ms Hlen; [done|].
  cbn [length] in Hlen. cbn [materialize_loop].
  destruct (stk !! (ss + i)%nat) as [[t|v]|] eqn:Hslot.
  - destruct (alias_info argument) as [ai|]; cbn [negb andb];
      destruct (negb (is_conj h t)); apply IH; rewrite ?length_insert; lia.
  - apply IH. lia.
  - apply lookup_ge_None in Hslot. lia.
Qed.

(** The loop of lines 59-86 changes nothing when no tensor it meets has the
    bit set. *)
Lemma materialize_loop_no_conj args : forall i ss stk h ms,
  (ss + i + length args <= length stk)%nat ->
  (forall k t, (k < length args)%nat -> stk !! (ss + i + k)%nat = Some (Tensor t) ->
     is_conj h t = false) ->
  materialize_loop true args i ss stk h ms = (Returns tt, (stk, h, ms)).
Proof.
  induction args as [|argument args IH]; intros i ss stk h ms Hlen Hno; [done|].
  cbn [length] in Hlen.
  assert (Hrest : materialize_loop true args (S i) ss stk h ms = (Returns tt, (stk, h, ms))).
  { apply IH; [lia|]. intros k t Hk Hs. apply (Hno (S k) t); [simpl; lia|].
    rewrite <- Hs. f_equal. lia. }
  cbn [materialize_loop].
  destruct (stk !! (ss + i)%nat) as [[t|v]|] eqn:Hslot; [|done|].
  - rewrite (Hno 0%nat t) by (simpl; lia || by rewrite Nat.add_0_r).
    cbn [negb andb]. by destruct (alias_info argument).
  - apply lookup_ge_None in Hslot. lia.
Qed.

(** The fallback on an operator whose flagged arguments are all written, on
    a stack that holds the arguments: the loop of lines 59-86, one
    redispatch, and the loop of lines 90-93 when the kernel returns. *)
Lemma conjugateFallback_writes NDEBUG op dispatch_keys st :
  (length (arguments op) <= length (stack st))%nat ->
  writes_only (arguments op) ->
  exists stk1 h1 ms,
    materialize_loop true (arguments op) 0 (length (stack st) - length (arguments op))
      (stack st) (heap st) [] = (Returns tt, (stk1, h1, ms))
    /\ conjugateFallback kernel DispatchKey_Conjugate NDEBUG op dispatch_keys st
       = let ks := Z.land dispatch_keys (FULL_AFTER DispatchKey_Conjugate) in
         let r := kernel ks stk1 h1 in
         (r.1, {| stack := r.2.1;
                  heap := match r.1 with
                          | Returns _ => restore_loop ms r.2.2
                          | Raises _ => r.2.2
                          end;
                  redispatched := (redispatched st ++ [(ks, stk1, h1)])%list |}).
Proof.
  intros Hlen Hw.
  destruct (is_write_loop_cases (name op) _ (writes_only_not_mixed _ Hw))
    as [[_ Hv]|(r & Hloop & Hr & _)]; [by destruct (view_op_not_writes _ Hv Hw)|].
  assert (Hret : (materialize_loop true (arguments op) 0
                    (length (stack st) - length (arguments op)) (stack st) (heap st) []).1
                 = Returns tt) by (apply materialize_loop_release; lia).
  destruct (materialize_loop true (arguments op) 0 _ (stack st) (heap st) [])
    as [o [[stk1 h1] ms]] eqn:Hmat.
  cbn [fst] in Hret. subst o. exists stk1, h1, ms. split; [done|].
  unfold conjugateFallback.
  rewrite Hloop, (stack_start_of_le _ _ Hlen), (materialize_loop_writes NDEBUG _ Hw), Hmat.
  unfold redispatchBoxed. cbn [stack heap redispatched]. cbn zeta.
  destruct (kernel (Z.land dispatch_keys (FULL_AFTER DispatchKey_Conjugate)) stk1 h1)
    as [[[]|m] [stk2 h2]]; cbn [fst snd stack heap redispatched];
    by destruct r as [[|]|].
Qed.

(** On a stack shorter than the argument list the loop of lines 59-86
    reads beyond the end of the stack in its first turn: no redispatch is
    made and the state is left as it was. *)
Lemma conjugateFallback_short_stack NDEBUG op dispatch_keys st :
  (length (stack st) < length (arguments op))%nat ->
  writes_only (arguments op) ->
  conjugateFallback kernel DispatchKey_Conjugate NDEBUG op dispatch_keys st
  = (Raises out_of_bounds_message, st).
Proof.
  intros Hlt Hw.
  destruct (is_write_loop_cases (name op) _ (writes_only_not_mixed _ Hw))
    as [[_ Hv]|(r & Hloop & Hr & _)]; [by destruct (view_op_not_writes _ Hv Hw)|].
  unfold conjugateFallback. rewrite Hloop.
  pose proof (stack_start_of_gt _ _ Hlt) as Hge.
  destruct (arguments op) as [|argument args]; [simpl in Hlt; lia|].
  cbn [materialize_loop]. rewrite Nat.add_0_r.
  rewrite (proj2 (lookup_ge_None _ _) Hge).
  destruct st. by destruct r as [[|]|].
Qed.

(** X12.  The fallback built with the debug assertion of line 68 and the
    fallback built without it are the same function: on every operator,
    key set and state they give the same outcome and leave the same state.
    The assertion is evaluated only after the check of lines 31-46 has
    passed, and then it holds. *)
Theorem debug_assertion_never_fires (op : FunctionSchema) (dispatch_keys : Z) (st : State) :
  conjugateFallback kernel DispatchKey_Conjugate false op dispatch_keys st
  = conjugateFallback kernel DispatchKey_Conjugate true op dispatch_keys st.
Proof.
  unfold conjugateFallback.
  destruct (is_write_loop (name op) (arguments op) None) as [r|m] eqn:Hloop; [|done].
  pose proof (is_write_loop_None _ _ _ Hloop) as Hall.
  assert (r = Some false \/ writes_only (arguments op)) as [->|Hw].
  { destruct r as [[|]|]; [right|by left|right];
      intros arg ai Hin Ha; specialize (Hall _ _ Hin Ha); congruence. }
  - done.
  - by rewrite (materialize_loop_writes false _ Hw).
Qed.

(** X13.  On an operator that is not mixed, called with its arguments on
    the stack, the fallback makes exactly one redispatch, with the key set
    below Conjugate, and hands on what the kernel answers: its outcome is the
    kernel's outcome and the stack it leaves is the stack the kernel left.
    When the kernel raises, the heap is left as the kernel left it: the loop
    of lines 90-93 has not run. *)
Theorem one_redispatch_unless_mixed (NDEBUG : bool) (op : FunctionSchema)
  (dispatch_keys : Z) (st : State) :
  (length (arguments op) <= length (stack st))%nat ->
  ~ mixed (arguments op) ->
  exists stk1 h1,
    let ks := Z.land dispatch_keys (FULL_AFTER DispatchKey_Conjugate) in
    let r := kernel ks stk1 h1 in
    let res := conjugateFallback kernel DispatchKey_Conjugate NDEBUG op dispatch_keys st in
    res.1 = r.1
    /\ stack res.2 = r.2.1
    /\ redispatched res.2 = (redispatched st ++ [(ks, stk1, h1)])%list
    /\ (forall m, r.1 = Raises m -> heap res.2 = r.2.2).
Proof.
  intros Hlen Hnm.
  destruct (is_write_loop_cases (name op) _ Hnm) as [[Hloop _]|(r & _ & _ & Hw)].
  - exists (stack st), (heap st). cbn zeta. unfold conjugateFallback. rewrite Hloop.
    unfold redispatchBoxed. cbn [fst snd stack heap redispatched]. done.
  - destruct (conjugateFallback_writes NDEBUG op dispatch_keys st Hlen Hw)
      as (stk1 & h1 & ms & _ & ->).
    exists stk1, h1. cbn zeta. cbn [fst snd stack heap redispatched].
    split; [done|]. split; [done|]. split; [done|].
    intros m ->. done.
Qed.

(** X14.  The key sets of the redispatches of a call hold no key at or
    above Conjugate, and below Conjugate exactly the keys the fallback was
    called with: the kernel reached is never the fallback itself. *)
Theorem redispatch_below_Conjugate (NDEBUG : bool) (op : FunctionSchema)
  (dispatch_keys : Z) (st : State) :
  1 <= DispatchKey_Conjugate ->
  exists made,
    redispatched (conjugateFallback kernel DispatchKey_Conjugate NDEBUG op dispatch_keys st).2
    = (redispatched st ++ made)%list
    /\ forall ks stk h, (ks, stk, h) ∈ made ->
         (forall n, DispatchKey_Conjugate - 1 <= n -> Z.testbit ks n = false)
         /\ (forall n, 0 <= n < DispatchKey_Conjugate - 1 ->
               Z.testbit ks n = Z.testbit dispatch_keys n).
Proof.
  intros HDK.
  assert (Hbits : forall (ks : Z) (stk : list IValue) (h : Heap) stk1 h1,
            (ks, stk, h) ∈ [(Z.land dispatch_keys (FULL_AFTER DispatchKey_Conjugate),
                             stk1, h1)] ->
            (forall n, DispatchKey_Conjugate - 1 <= n -> Z.testbit ks n = false)
            /\ (forall n, 0 <= n < DispatchKey_Conjugate - 1 ->
                  Z.testbit ks n = Z.testbit dispatch_keys n)).
  { intros ks stk h stk1 h1 Hin. apply list_elem_of_singleton in Hin.
    injection Hin as -> _ _.
    assert (FULL_AFTER DispatchKey_Conjugate = Z.ones (DispatchKey_Conjugate - 1)) as ->.
    { unfold FULL_AFTER, Z.ones. by rewrite Z.sub_1_r. }
    split; intros n Hn; rewrite Z.land_spec.
    - rewrite Z.ones_spec_high by lia. apply andb_false_r.
    - rewrite Z.ones_spec_low by lia. apply andb_true_r. }
  unfold conjugateFallback.
  destruct (is_write_loop (name op) (arguments op) None) as [r|m] eqn:Hloop.
  - assert (Hview : exists made,
      redispatched (redispatchBoxed kernel
        (Z.land dispatch_keys (FULL_AFTER DispatchKey_Conjugate)) st).2
      = (redispatched st ++ made)%list
      /\ forall ks stk h, (ks, stk, h) ∈ made ->
         (forall n, DispatchKey_Conjugate - 1 <= n -> Z.testbit ks n = false)
         /\ (forall n, 0 <= n < DispatchKey_Conjugate - 1 ->
               Z.testbit ks n = Z.testbit dispatch_keys n)).
    { eexists. split; [reflexivity|]. intros ks stk h Hin.
      by apply (Hbits ks stk h (stack st) (heap st)). }
    assert (Hrest : exists made,
      redispatched
        (match materialize_loop NDEBUG (arguments op) 0
                 (stack_start_of (length (stack st)) (length (arguments op)))
                 (stack st) (heap st) [] with
         | (Raises m, (stk, h, _)) =>
             (Raises m, {| stack := stk; heap := h; redispatched := redispatched st |})
         | (Returns _, (stk, h, mutable_inputs)) =>
             match redispatchBoxed kernel
                     (Z.land dispatch_keys (FULL_AFTER DispatchKey_Conjugate))
                     {| stack := stk; heap := h; redispatched := redispatched st |} with
             | (Raises m, st2) => (Raises m, st2)
             | (Returns _, st2) =>
                 (Returns tt,
                  {| stack := stack st2; heap := restore_loop mutable_inputs (heap st2);
                     redispatched := redispatched st2 |})
             end
         end).2
      = (redispatched st ++ made)%list
      /\ forall ks stk h, (ks, stk, h) ∈ made ->
         (forall n, DispatchKey_Conjugate - 1 <= n -> Z.testbit ks n = false)
         /\ (forall n, 0 <= n < DispatchKey_Conjugate - 1 ->
               Z.testbit ks n = Z.testbit dispatch_keys n)).
    { destruct (materialize_loop NDEBUG (arguments op) 0 _ (stack st) (heap st) [])
        as [[[]|m] [[stk1 h1] ms]].
      - unfold redispatchBoxed. cbn [stack heap redispatched].
        exists [(Z.land dispatch_keys (FULL_AFTER DispatchKey_Conjugate), stk1, h1)].
        split.
        + by destruct (kernel _ stk1 h1) as [[[]|m] [stk2 h2]].
        + intros ks stk h Hin. by apply (Hbits ks stk h stk1 h1).
      - exists []. cbn [snd redispatched]. split; [by rewrite app_nil_r|].
        intros ks stk h Hin. by apply elem_of_nil in Hin. }
    destruct r as [[|]|]; done.
  - exists []. cbn [snd]. split; [by rewrite app_nil_r|].
    intros ks stk h Hin. by apply elem_of_nil in Hin.
Qed.

(** X15.  On a view operator, and on an operator that is not mixed when
    its arguments are on the stack and no tensor in an argument slot has its
    conjugate bit set, the fallback is the redispatch and nothing else: the
    kernel gets the stack and the heap of the call, and the outcome and the
    state it leaves are the kernel's. *)
Theorem fallback_passes_through (NDEBUG : bool) (op : FunctionSchema)
  (dispatch_keys : Z) (st : State) :
  ~ mixed (arguments op) ->
  view_op (arguments op)
  \/ ((length (arguments op) <= length (stack st))%nat
      /\ no_conj_argument (length (arguments op)) (stack st) (heap st)) ->
  conjugateFallback kernel DispatchKey_Conjugate NDEBUG op dispatch_keys st
  = redispatchBoxed kernel (Z.land dispatch_keys (FULL_AFTER DispatchKey_Conjugate)) st.
Proof.
  intros Hnm Hor.
  destruct (is_write_loop_cases (name op) _ Hnm) as [[Hloop _]|(r & _ & _ & Hw)].
  - unfold conjugateFallback. by rewrite Hloop.
  - destruct Hor as [Hv|[Hlen Hno]]; [by destruct (view_op_not_writes _ Hv Hw)|].
    destruct (conjugateFallback_writes NDEBUG op dispatch_keys st Hlen Hw)
      as (stk1 & h1 & ms & Hmat & ->).
    rewrite materialize_loop_no_conj in Hmat.
    + injection Hmat as <- <- <-. cbn zeta. unfold redispatchBoxed.
      destruct (kernel (Z.land dispatch_keys (FULL_AFTER DispatchKey_Conjugate))
                  (stack st) (heap st)) as [[[]|m] [stk2 h2]]; reflexivity.
    + lia.
    + intros k t Hk Hs. apply (Hno k t Hk). rewrite <- Hs. f_equal. lia.
Qed.

End Redispatch.

(** X13 at [add] with a kernel that raises: the kernel's error comes back
    and one redispatch has been made. *)
Lemma one_redispatch_unless_mixed_witness :
  let res := conjugateFallback kernel_raise 10 false add 1023 state0 in
  res.1 = Raises "kernel" /\ length (redispatched res.2) = 1%nat.
Proof.
  intros res.
  destruct (one_redispatch_unless_mixed kernel_raise 10 false add 1023 state0)
    as (stk1 & h1 & Hout & _ & Hlog & _).
  - simpl. lia.
  - intros (a1 & a2 & x1 & x2 & H1 & H2 & E1 & E2 & _).
    apply list_elem_of_In in H1. simpl in H1.
    destruct H1 as [<-|[<-|[]]]; discriminate E1.
  - split.
    + exact Hout.
    + fold res in Hlog. rewrite Hlog. reflexivity.
Defined.

(** X14 with Conjugate at position 10 and all of the keys 1 to 12 in the
    caller's set: the redispatch keeps the keys 1 to 9. *)
Lemma redispatch_below_Conjugate_witness :
  Forall (fun e : Z * list IValue * Heap =>
            Z.testbit e.1.1 9 = false /\ Z.testbit e.1.1 10 = false
            /\ Z.testbit e.1.1 8 = true)
    (redispatched (conjugateFallback kernel_id 10 false mul_ 4095 state0).2).
Proof.
  destruct (redispatch_below_Conjugate kernel_id 10 false mul_ 4095 state0)
    as (made & Hlog & Hbits).
  - lia.
  - rewrite Hlog. change (redispatched state0) with (@nil (Z * list IValue * Heap)).
    rewrite app_nil_l. apply Forall_forall. intros [[ks stk] h] Hin.
    destruct (Hbits ks stk h Hin) as [Hhigh Hlow]. cbn [fst].
    split; [apply Hhigh; lia|]. split; [apply Hhigh; lia|].
    rewrite Hlow by lia. reflexivity.
Defined.

(** X15 at [view], a view operator, on a stack with conjugated tensors. *)
Lemma fallback_passes_through_witness :
  conjugateFallback kernel_id 10 false view 1023 state0
  = redispatchBoxed kernel_id 511 state0.
Proof.
  apply (fallback_passes_through kernel_id 10 false view 1023 state0).
  - intros (a1 & a2 & x1 & x2 & H1 & H2 & E1 & E2 & Hne).
    apply list_elem_of_In in H1, H2. simpl in H1, H2.
    destruct H1 as [<-|[<-|[]]]; destruct H2 as [<-|[<-|[]]];
      try discriminate E1; try discriminate E2.
    injection E1 as <-. injection E2 as <-. by apply Hne.
  - left. split.
    + exists view_arg, {| isWrite := false |}. split; [|reflexivity].
      apply list_elem_of_In. simpl. tauto.
    + intros arg ai Hin Ha. apply list_elem_of_In in Hin. simpl in Hin.
      destruct Hin as [<-|[<-|[]]]; [by injection Ha as <-|discriminate Ha].
Defined.

Section Materialize.

Context (kernel : Z -> list IValue -> Heap -> Outcome unit * (list IValue * Heap)).
Context (DispatchKey_Conjugate : Z).

(** One turn of the loop of lines 59-86, and the rest of it. *)
Lemma materialize_loop_cons NDEBUG argument args i ss stk h ms res :
  materialize_loop NDEBUG (argument :: args) i ss stk h ms = (Returns tt, res) ->
  exists stk1 h1 ms1,
    Turn argument (ss + i) stk h ms stk1 h1 ms1
    /\ materialize_loop NDEBUG args (S i) ss stk1 h1 ms1 = (Returns tt, res).
Proof.
  cbn [materialize_loop]. intros Hrun.
  destruct (stk !! (ss + i)%nat) as [[t|v]|] eqn:Hslot.
  - destruct (alias_info argument) as [ai|] eqn:Ha.
    + destruct (negb NDEBUG && negb (isWrite ai)); [discriminate|].
      destruct (is_conj h t) eqn:Hc; cbn [negb] in Hrun.
      * eexists _, _, _. split; [|exact Hrun].
        apply (turn_flip _ _ _ _ _ t); [done|by rewrite Ha|done].
      * exists stk, h, ms. split; [|done]. apply turn_pass.
        intros t' Ht'. rewrite Hslot in Ht'. by injection Ht' as <-.
    + destruct (is_conj h t) eqn:Hc; cbn [negb] in Hrun.
      * eexists _, _, _. split; [|exact Hrun].
        by apply (turn_resolve _ _ _ _ _ t).
      * exists stk, h, ms. split; [|done]. apply turn_pass.
        intros t' Ht'. rewrite Hslot in Ht'. by injection Ht' as <-.
  - exists stk, h, ms. split; [|done]. apply turn_pass.
    intros t' Ht'. rewrite Hslot in Ht'. discriminate.
  - discriminate Hrun.
Qed.

Lemma Turn_Prepared h0 argument pos stk h ms stk1 h1 ms1 :
  Turn argument pos stk h ms stk1 h1 ms1 -> Prepared h0 h ms -> Prepared h0 h1 ms1.
Proof.
  intros [Hpass|t Hs Ha Hc|t Hs Ha Hc] HP;
    [done|by apply Prepared_flip|by apply Prepared_resolve].
Qed.

(** A turn writes the slot it is at and no other. *)
Lemma Turn_stack argument pos stk h ms stk1 h1 ms1 :
  Turn argument pos stk h ms stk1 h1 ms1 ->
  length stk1 = length stk /\ forall j, j <> pos -> stk1 !! j = stk !! j.
Proof.
  intros [Hpass|t Hs Ha Hc|t Hs Ha Hc]; [done|..];
    (split; [apply length_insert|]; intros j Hj; by apply list_lookup_insert_ne).
Qed.

Lemma Turn_mono argument pos stk h ms stk1 h1 ms1 :
  Turn argument pos stk h ms stk1 h1 ms1 -> forall t, t ∈ ms -> t ∈ ms1.
Proof.
  intros [Hpass|t Hs Ha Hc|t Hs Ha Hc] x Hx; [done| |done].
  apply elem_of_app. by left.
Qed.

Lemma resolve_conj_conj h t :
  is_conj h t = true ->
  exists i, impls h !! t = Some i
    /\ resolve_conj h t
       = (fresh (dom (impls h)),
          {| impls := <[fresh (dom (impls h)) :=
                          {| storage := fresh (dom (storages h)); conj_bit := false |}]>
                        (impls h);
             storages := <[fresh (dom (storages h)) :=
                             map conj (default [] (storages h !! storage i))]>
                           (storages h) |}).
Proof.
  intros Hc. apply is_conj_true in Hc as (i & Hi & Hbit). exists i. split; [done|].
  unfold resolve_conj. by rewrite Hi, Hbit.
Qed.

(** A turn leaves alone the tensors and storages made since the call. *)
Lemma Turn_new h0 argument pos stk h ms stk1 h1 ms1 :
  storages_alive h0 -> Prepared h0 h ms ->
  Turn argument pos stk h ms stk1 h1 ms1 ->
  (forall t' i', impls h0 !! t' = None -> impls h !! t' = Some i' ->
     impls h1 !! t' = Some i')
  /\ (forall s' d, storages h0 !! s' = None -> storages h !! s' = Some d ->
        storages h1 !! s' = Some d).
Proof.
  intros Halive HP [Hpass|t Hs Ha Hc|t Hs Ha Hc]; [done|..].
  - destruct (Prepared_conj _ _ _ _ HP Hc) as (_ & i0 & H0 & _ & Hi). split.
    + intros t' i' Hn Hi'. rewrite flip_impls_lookup, decide_False by congruence.
      by rewrite Hi'.
    + intros s' d Hn Hd. rewrite flip_storages_lookup, bool_decide_eq_false_2; [done|].
      unfold storage_of. rewrite Hi. cbn [fmap option_fmap option_map]. intros [= <-].
      destruct (Halive _ _ H0) as [d0 Hd0]. congruence.
  - destruct (resolve_conj_conj _ _ Hc) as (i & Hi & ->). cbn [snd impls storages]. split.
    + intros t' i' Hn Hi'. rewrite lookup_insert_ne; [done|]. intros <-.
      apply (is_fresh (dom (impls h))), elem_of_dom. eauto.
    + intros s' d Hn Hd. rewrite lookup_insert_ne; [done|]. intros <-.
      apply (is_fresh (dom (storages h))), elem_of_dom. eauto.
Qed.

(** The loop of lines 59-86 keeps the length of the stack and the slots
    below the arguments, and leaves alone what it has made. *)
Lemma materialize_loop_frame NDEBUG h0 ss args :
  storages_alive h0 ->
  forall i stk h ms stk' h' ms',
    materialize_loop NDEBUG args i ss stk h ms = (Returns tt, (stk', h', ms')) ->
    Prepared h0 h ms ->
    length stk' = length stk
    /\ (forall j, (j < ss + i)%nat -> stk' !! j = stk !! j)
    /\ (forall t' i', impls h0 !! t' = None -> impls h !! t' = Some i' ->
          impls h' !! t' = Some i')
    /\ (forall s' d, storages h0 !! s' = None -> storages h !! s' = Some d ->
          storages h' !! s' = Some d).
Proof.
  intros Halive.
  induction args as [|argument args IH]; intros i stk h ms stk' h' ms' Hrun HP.
  - cbn [materialize_loop] in Hrun. by injection Hrun as <- <- <-.
  - apply materialize_loop_cons in Hrun as (stk1 & h1 & ms1 & Hturn & Hrun).
    destruct (IH _ _ _ _ _ _ _ Hrun (Turn_Prepared _ _ _ _ _ _ _ _ _ Hturn HP))
      as (Hlen & Hlow & Himpls & Hstor).
    destruct (Turn_stack _ _ _ _ _ _ _ _ Hturn) as [Hlen1 Hother].
    destruct (Turn_new _ _ _ _ _ _ _ _ _ Halive HP Hturn) as [Himpls1 Hstor1].
    split; [congruence|]. split; [|split].
    + intros j Hj. rewrite Hlow by lia. apply Hother. lia.
    + intros t' i' Hn Hi'. by apply Himpls, Himpls1.
    + intros s' d Hn Hd. by apply Hstor, Hstor1.
Qed.

(** A tensor of the call that the loop of lines 59-86 has not replaced:
    its bit is clear at the end, and its contents are those of the call. *)
Lemma value_of_input h0 h' ms' t i0 :
  storages_alive h0 -> Prepared h0 h' ms' ->
  impls h0 !! t = Some i0 -> t ∈ ms' \/ conj_bit i0 = false ->
  is_conj h' t = false
  /\ ((forall t2, t2 ∈ ms' -> t2 <> t -> storage_of h0 t2 <> storage_of h0 t) ->
      value h' t = value h0 t).
Proof.
  intros Halive HP H0 Hor. destruct (Halive _ _ H0) as [d0 Hd0].
  pose proof (prep_impls _ _ _ HP _ _ H0) as Hi.
  pose proof (prep_storages _ _ _ HP _ _ Hd0) as Hd.
  assert (Hs0 : storage_of h0 t = Some (storage i0)).
  { unfold storage_of. by rewrite H0. }
  destruct (decide (t ∈ ms')) as [Hin|Hnin].
  - pose proof (prep_conj _ _ _ HP _ Hin) as Hc. unfold is_conj in Hc. rewrite H0 in Hc.
    split.
    + unfold is_conj. by rewrite Hi.
    + intros Hothers. unfold value. rewrite Hi, H0, Hc. cbn [with_bit conj_bit storage].
      rewrite Hd, Hd0.
      rewrite (views_unique h0 ms' (storage i0) t); [done|apply HP|done|done|].
      intros t2 Hin2 Hne. rewrite <- Hs0. by apply Hothers.
  - destruct Hor as [?|Hbit]; [done|]. split.
    + unfold is_conj. by rewrite Hi.
    + intros Hothers. unfold value. rewrite Hi, H0, Hbit, Hd, Hd0.
      rewrite views_none; [done|].
      intros t2 Hin2. rewrite <- Hs0. apply Hothers; [done|]. by intros ->.
Qed.

(** What the loop of lines 59-86 leaves in each argument slot. *)
Lemma materialize_loop_slot NDEBUG h0 ss args :
  storages_alive h0 ->
  forall i stk h ms stk' h' ms',
    materialize_loop NDEBUG args i ss stk h ms = (Returns tt, (stk', h', ms')) ->
    Prepared h0 h ms ->
    forall k, (k < length args)%nat ->
      (forall v, stk !! (ss + i + k)%nat = Some (NotTensor v) ->
         stk' !! (ss + i + k)%nat = Some (NotTensor v))
      /\ (forall t, stk !! (ss + i + k)%nat = Some (Tensor t) ->
            is_Some (impls h0 !! t) ->
            exists t', stk' !! (ss + i + k)%nat = Some (Tensor t')
              /\ is_conj h' t' = false
              /\ ((forall t2, t2 ∈ ms' -> t2 <> t ->
                     storage_of h0 t2 <> storage_of h0 t) ->
                  value h' t' = value h0 t)).
Proof.
  intros Halive.
  induction args as [|argument args IH]; intros i stk h ms stk' h' ms' Hrun HP k Hk;
    [simpl in Hk; lia|].
  apply materialize_loop_cons in Hrun as (stk1 & h1 & ms1 & Hturn & Hrun).
  pose proof (Turn_Prepared _ _ _ _ _ _ _ _ _ Hturn HP) as HP1.
  destruct (Turn_stack _ _ _ _ _ _ _ _ Hturn) as [Hlen1 Hother].
  destruct k as [|k].
  - rewrite Nat.add_0_r.
    destruct (materialize_loop_frame _ _ _ _ Halive _ _ _ _ _ _ _ Hrun HP1)
      as (_ & Hlow & Himpls & Hstor).
    destruct (materialize_loop_spec _ _ _ _ _ _ _ _ _ _ _ Hrun HP1) as (HP' & Hmono & _).
    rewrite (Hlow (ss + i)%nat) by lia.
    destruct Hturn as [Hpass|t0 Hs Ha Hc|t0 Hs Ha Hc].
    + split; [done|]. intros t Hs [i0 H0]. exists t. split; [done|].
      apply (value_of_input h0 h' ms' t i0); try done.
      pose proof (prep_impls _ _ _ HP _ _ H0) as Hi.
      destruct (decide (t ∈ ms)) as [Hin|Hnin]; [left; by apply Hmono|right].
      pose proof (Hpass _ Hs) as Hc. unfold is_conj in Hc. by rewrite Hi in Hc.
    + split; [intros v Hv; congruence|]. intros t Hs' [i0 H0].
      assert (t = t0) as -> by congruence.
      exists t0. split; [apply list_lookup_insert_eq; by eapply lookup_lt_Some|].
      apply (value_of_input h0 h' ms' t0 i0); try done.
      left. apply Hmono, elem_of_app. right. by apply list_elem_of_singleton.
    + split; [intros v Hv; congruence|]. intros t Hs' _.
      assert (t = t0) as -> by congruence.
      destruct (Prepared_conj _ _ _ _ HP Hc) as (Hnin & i0 & H0 & Hbit & Hi).
      destruct (resolve_conj_conj _ _ Hc) as (i' & Hi' & Hres).
      assert (i' = i0) as -> by congruence.
      rewrite Hres in Himpls, Hstor |- *. cbn [fst snd impls storages] in *.
      set (t' := fresh (dom (impls h))) in *.
      set (s' := fresh (dom (storages h))) in *.
      assert (Ht' : impls h0 !! t' = None).
      { destruct (impls h0 !! t') as [j|] eqn:E; [|done].
        pose proof (prep_impls _ _ _ HP _ _ E) as Hj.
        exfalso. apply (is_fresh (dom (impls h))), elem_of_dom. fold t'. eauto. }
      assert (Hs'' : storages h0 !! s' = None).
      { destruct (storages h0 !! s') as [d|] eqn:E; [|done].
        pose proof (prep_storages _ _ _ HP _ _ E) as Hd.
        exfalso. apply (is_fresh (dom (storages h))), elem_of_dom. fold s'. eauto. }
      pose proof (Himpls t' _ Ht' (lookup_insert_eq _ _ _)) as Hfin.
      pose proof (Hstor s' _ Hs'' (lookup_insert_eq _ _ _)) as Hdat.
      exists t'. split; [apply list_lookup_insert_eq; by eapply lookup_lt_Some|].
      split; [unfold is_conj; by rewrite Hfin|].
      intros Hothers. unfold value. rewrite Hfin, H0, Hbit. cbn [conj_bit storage].
      rewrite Hdat. destruct (Halive _ _ H0) as [d0 Hd0]. rewrite Hd0.
      rewrite (prep_storages _ _ _ HP _ _ Hd0), views_none; [done|].
      intros t2 Hin2.
      assert (Hs0 : storage_of h0 t0 = Some (storage i0)).
      { unfold storage_of. by rewrite H0. }
      rewrite <- Hs0. apply Hothers; [by apply Hmono|]. by intros ->.
  - replace (ss + i + S k)%nat with (ss + S i + k)%nat by lia.
    rewrite <- (Hother (ss + S i + k)%nat) by lia.
    apply (IH _ _ _ _ _ _ _ Hrun HP1). simpl in Hk. lia.
Qed.

(** The tensors the loop of lines 59-86 collects are the mutable inputs
    with the bit set, each once. *)
Lemma materialize_loop_members op stk h stk1 h1 ms :
  writes_only (arguments op) ->
  materialize_loop true (arguments op) 0 (length stk - length (arguments op)) stk h []
  = (Returns tt, (stk1, h1, ms)) ->
  Prepared h h1 ms /\ forall t, t ∈ ms <-> mutable_conj_input op stk h t.
Proof.
  intros Hw Hmat.
  destruct (materialize_loop_spec _ h _ _ _ _ _ _ _ _ _ Hmat (Prepared_init _))
    as (HP & _ & Hin & Hfrom).
  split; [done|]. intros t. split.
  - intros Ht. destruct (Hfrom t Ht) as [Hnil|(k & arg & ai & Hk & Ha & Hs)].
    + by apply elem_of_nil in Hnil.
    + exists k, arg, ai. rewrite Nat.add_0_r in Hs.
      split; [done|]. split; [done|]. split; [|split; [done|]].
      * apply (Hw arg ai); [|done]. by eapply list_elem_of_lookup_2.
      * by apply (prep_conj _ _ _ HP).
  - intros (k & arg & ai & Hk & Ha & _ & Hs & Hc).
    apply (Hin k arg ai t Hk Ha); [|done]. by rewrite Nat.add_0_r.
Qed.

(** X16.  Take an operator whose flagged arguments are all written, called
    with its arguments on the stack and a heap in which every tensor has its
    storage.  The fallback makes its redispatch on a stack of the same
    length, with the slots below the arguments and the arguments that are
    not tensors as they were, and with a tensor whose conjugate bit is clear
    in the slot of every tensor argument.  That tensor has the contents the
    argument had on entry, data and bit taken together, provided that no
    other mutable input with the bit set views the storage of the
    argument. *)
Theorem kernel_sees_resolved_arguments (NDEBUG : bool) (op : FunctionSchema)
  (dispatch_keys : Z) (st : State) :
  writes_only (arguments op) ->
  (length (arguments op) <= length (stack st))%nat ->
  storages_alive (heap st) ->
  exists stk1 h1,
    let ks := Z.land dispatch_keys (FULL_AFTER DispatchKey_Conjugate) in
    let stack_start := (length (stack st) - length (arguments op))%nat in
    redispatched (conjugateFallback kernel DispatchKey_Conjugate NDEBUG op dispatch_keys st).2
    = (redispatched st ++ [(ks, stk1, h1)])%list
    /\ length stk1 = length (stack st)
    /\ (forall j, (j < stack_start)%nat -> stk1 !! j = stack st !! j)
    /\ (forall k v, (k < length (arguments op))%nat ->
          stack st !! (stack_start + k)%nat = Some (NotTensor v) ->
          stk1 !! (stack_start + k)%nat = Some (NotTensor v))
    /\ (forall k t, (k < length (arguments op))%nat ->
          stack st !! (stack_start + k)%nat = Some (Tensor t) ->
          is_Some (impls (heap st) !! t) ->
          exists t', stk1 !! (stack_start + k)%nat = Some (Tensor t')
            /\ is_conj h1 t' = false
            /\ ((forall t2, mutable_conj_input op (stack st) (heap st) t2 -> t2 <> t ->
                   storage_of (heap st) t2 <> storage_of (heap st) t) ->
                value h1 t' = value (heap st) t)).
Proof.
  intros Hw Hargs Halive.
  destruct (conjugateFallback_writes kernel DispatchKey_Conjugate NDEBUG op dispatch_keys st
              Hargs Hw) as (stk1 & h1 & ms & Hmat & ->).
  exists stk1, h1. cbn zeta. cbn [snd redispatched].
  destruct (materialize_loop_members _ _ _ _ _ _ Hw Hmat) as [HP Hms].
  destruct (materialize_loop_frame _ _ _ _ Halive _ _ _ _ _ _ _ Hmat (Prepared_init _))
    as (Hlen & Hlow & _ & _).
  pose proof (materialize_loop_slot _ _ _ _ Halive _ _ _ _ _ _ _ Hmat (Prepared_init _))
    as Hslots.
  split; [done|]. split; [done|]. split; [|split].
  - intros j Hj. apply Hlow. lia.
  - intros k v Hk Hs. destruct (Hslots k Hk) as [Hv _].
    rewrite Nat.add_0_r in Hv. by apply Hv.
  - intros k t Hk Hs Ht. destruct (Hslots k Hk) as [_ Htens].
    rewrite Nat.add_0_r in Htens.
    destruct (Htens t Hs Ht) as (t' & Hs' & Hc' & Hval).
    exists t'. split; [done|]. split; [done|].
    intros Hothers. apply Hval. intros t2 Hin2. apply Hothers. by apply Hms.
Qed.



End Materialize.

Lemma mul__writes_only : writes_only (arguments mul_).
Proof.
  intros arg ai Hin Ha. apply list_elem_of_In in Hin. simpl in Hin.
  destruct Hin as [<-|[<-|[]]]; [by injection Ha as <-|discriminate Ha].
Qed.

Lemma heap0_storages_alive : storages_alive heap0.
Proof.
  intros t i Hi. unfold heap0 in Hi. cbn [impls] in Hi.
  apply lookup_insert_Some in Hi as [[<- <-]|[_ Hi]]; [eexists; reflexivity|].
  apply lookup_singleton_Some in Hi as [<- <-]. eexists; reflexivity.
Qed.

(** Tensor 0 is the one mutable input of [mul_] on [state0]. *)
Lemma mul__mutable_input t :
  mutable_conj_input mul_ (stack state0) (heap state0) t -> t = 0%nat.
Proof.
  intros (i & arg & ai & Harg & Ha & _ & Hslot & _).
  destruct i as [|[|i]]; simpl in Harg.
  - simpl in Hslot. by injection Hslot as <-.
  - injection Harg as <-. discriminate Ha.
  - discriminate Harg.
Qed.

(** X16 at [mul_] on [state0]: the kernel gets the scalar below the
    arguments as it was and, in the two argument slots, tensors that hold
    the conjugates of the data of storages 0 and 1. *)
Lemma kernel_sees_resolved_arguments_witness :
  exists ks stk1 h1 t0 t1,
    redispatched (conjugateFallback kernel_id 10 false mul_ 1023 state0).2
    = [(ks, stk1, h1)]
    /\ stk1 !! 0%nat = Some (NotTensor 42)
    /\ stk1 !! 1%nat = Some (Tensor t0) /\ value h1 t0 = Some [(1, -2); (3, 4)]
    /\ stk1 !! 2%nat = Some (Tensor t1) /\ value h1 t1 = Some [(5, -6)].
Proof.
  destruct (kernel_sees_resolved_arguments kernel_id 10 false mul_ 1023 state0
              mul__writes_only) as (stk1 & h1 & H).
  - simpl. lia.
  - exact heap0_storages_alive.
  - cbn zeta in H. destruct H as (Hlog & _ & Hlow & _ & Htens).
    destruct (Htens 0%nat 0%nat) as (t0 & Hs0 & _ & Hv0);
      [simpl; lia|reflexivity|eexists; reflexivity|].
    destruct (Htens 1%nat 1%nat) as (t1 & Hs1 & _ & Hv1);
      [simpl; lia|reflexivity|eexists; reflexivity|].
    exists (Z.land 1023 (FULL_AFTER 10)), stk1, h1, t0, t1.
    split; [exact Hlog|]. split; [apply (Hlow 0%nat); simpl; lia|].
    split; [exact Hs0|]. split.
    + rewrite Hv0; [reflexivity|].
      intros t2 Hmut Hne. by apply mul__mutable_input in Hmut.
    + split; [exact Hs1|]. rewrite Hv1; [reflexivity|].
      intros t2 Hmut _. apply mul__mutable_input in Hmut as ->. discriminate.
Defined.


End ConjugateFallback_properties.
